(** * EssentiaSketch: the asynchronous analysis pipeline

    A shallow embedding of [js/CacheManager.js] (the [CacheManager] and the
    [EssentiaWorkerManager] classes), of [js/essentia.worker.js] (its message
    handler), of [AudioManager.loadAudioBuffer] and of the batch functions of
    [sketch.js], followed by the properties of the specification that were
    checked against them.

    Conventions.
    - A JS object used as a dictionary ([cache.data]) is an association list
      in property-creation order: [Object.entries] enumerates string keys
      that are not array indices in that order, and every cache key contains
      the character [_], so none is an array index.  [Array.prototype.sort]
      is stable, so that order decides ties.
    - A JS [Map] keyed by numbers ([pendingMessages]) is a [gmap Z].
    - Strings are byte strings holding the UTF-8 encoding of the JS string,
      so that [String.length] is the size of the [Blob] built from it.
    - [Date.now()], [Math.random()], [localStorage], the audio decoder and
      the worker thread belong to the platform: their answers are inputs.
    - [undefined] in a slot of type [T] is [None : option T]. *)

From Stdlib Require Import ZArith List String Ascii Lia Permutation.
From Stdlib Require Import DecimalString DecimalZ DecimalPos.

From stdpp Require Import base strings list sorting gmap.

Local Open Scope string_scope.
Local Open Scope list_scope.
Local Open Scope Z_scope.

(** ** Platform functions of JavaScript *)

Module JS.

(** The character [U+0022], written from its code. *)
Definition dquote : string := String "034"%char EmptyString.

Definition hex_digit (n : N) : ascii :=
  match n with
  | 0 => "0" | 1 => "1" | 2 => "2" | 3 => "3" | 4 => "4" | 5 => "5"
  | 6 => "6" | 7 => "7" | 8 => "8" | 9 => "9" | 10 => "a" | 11 => "b"
  | 12 => "c" | 13 => "d" | 14 => "e" | _ => "f"
  end%char%N.

(** [Number.prototype.toString] of an integer: its decimal digits, with a
    minus sign when it is negative. *)
Definition Number_toString (z : Z) : string :=
  NilZero.string_of_int (Z.to_int z).

(** [QuoteJSONString] of ECMA-262, one code unit at a time: the two-character
    escapes, [\u00XX] for the other control characters, everything else as
    it is (bytes above 127 are parts of UTF-8 sequences and are not
    escaped). *)
Definition quote_control (c : ascii) : string :=
  match N_of_ascii c with
  | 8 => "\b" | 9 => "\t" | 10 => "\n" | 12 => "\f" | 13 => "\r"
  | n => "\u00" +:+ String (hex_digit (n / 16)) (String (hex_digit (n mod 16)) EmptyString)
  end%N.

Definition quote_char (c : ascii) : string :=
  match c with
  | Ascii _ _ _ _ _ false false false => quote_control c
  | _ =>
      if Ascii.eqb c "034" then "\" +:+ dquote
      else if Ascii.eqb c "\" then "\\"
      else String c EmptyString
  end.

Fixpoint quote_body (s : string) : string :=
  match s with
  | EmptyString => EmptyString
  | String c s' => quote_char c +:+ quote_body s'
  end.

Definition QuoteJSONString (s : string) : string :=
  dquote +:+ quote_body s +:+ dquote.

(** [Array.prototype.join]. *)
Fixpoint join (sep : string) (l : list string) : string :=
  match l with
  | [] => EmptyString
  | [x] => x
  | x :: l' => x +:+ sep +:+ join sep l'
  end.

(** One member [name:value] of an object literal in [JSON.stringify]'s
    output; a member whose value is [undefined] is left out. *)
Definition member (name : string) (value : option string) : list string :=
  match value with
  | Some v => [QuoteJSONString name +:+ ":" +:+ v]
  | None => []
  end.

Definition object (members : list string) : string :=
  "{" +:+ join "," members +:+ "}".

(** [new Blob([s]).size]: the number of bytes of the UTF-8 encoding. *)
Definition Blob_size (s : string) : Z := Z.of_nat (String.length s).

(** Numbers are IEEE 754 doubles.  [round53 n] is the integer nearest to
    [n] among those that have at most 53 significant bits, a tie going to
    the even significand: what rounding to the nearest double does to a
    value that is [n] times a power of two (out of the range of overflow
    and of subnormal numbers). *)
Definition round53 (n : Z) : Z :=
  let a := Z.abs n in
  let shift := Z.log2 a - 52 in
  if shift <=? 0 then n
  else
    let q := a / 2 ^ shift in
    let r := a mod 2 ^ shift in
    let half := 2 ^ (shift - 1) in
    let q' := if (half <? r) || ((r =? half) && Z.odd q) then q + 1 else q in
    Z.sgn n * (q' * 2 ^ shift).

(** [Math.floor(n * 0.7)] for an integer [n].  The double written [0.7]
    is [6305039478318694 / 2^53]; the exact product with [n] is rounded
    to the nearest double and then floored. *)
Definition Math_floor_times_0_7 (n : Z) : Z :=
  round53 (n * 6305039478318694) / 2 ^ 53.

Section Arrays.
Context {A : Type}.

(** [arr.slice(start)] with one argument: a negative [start] counts from
    the end, and [slice(-0)] is [slice(0)]. *)
Definition slice (start : Z) (arr : list A) : list A :=
  let len := Z.of_nat (length arr) in
  let from := if start <? 0 then Z.max (len + start) 0 else Z.min start len in
  drop (Z.to_nat from) arr.

(** [arr.sort((a, b) => key(a) - key(b))].  The sort is stable: [x], which
    stood before every element of [l], goes before the first element
    whose key is not smaller. *)
Fixpoint sort_insert (key : A → Z) (x : A) (l : list A) : list A :=
  match l with
  | [] => [x]
  | y :: l' => if key y <? key x then y :: sort_insert key x l' else x :: l
  end.

Fixpoint sort (key : A → Z) (arr : list A) : list A :=
  match arr with
  | [] => []
  | x :: arr' => sort_insert key x (sort key arr')
  end.
End Arrays.

(** A dictionary object: own string-keyed properties in creation order. *)
Abbreviation obj V := (list (string * V)) (only parsing).

Section Objects.
Context {V : Type}.

(** [o[k]] *)
Fixpoint get (k : string) (o : obj V) : option V :=
  match o with
  | [] => None
  | (k', v) :: o' => if String.eqb k' k then Some v else get k o'
  end.

(** [k in o] *)
Definition has (k : string) (o : obj V) : bool :=
  match get k o with Some _ => true | None => false end.

(** [o[k] = v]: an existing property keeps its place, a new one goes
    last. *)
Fixpoint set (k : string) (v : V) (o : obj V) : obj V :=
  match o with
  | [] => [(k, v)]
  | (k', v') :: o' =>
      if String.eqb k' k then (k', v) :: o' else (k', v') :: set k v o'
  end.

(** [Object.keys(o)] *)
Definition keys (o : obj V) : list string := o.*1.

(** [Object.fromEntries(entries)] *)
Definition fromEntries (entries : list (string * V)) : obj V :=
  fold_left (λ o kv, set kv.1 kv.2 o) entries [].
End Objects.

End JS.

(** ** Shared data contracts *)

(** [size: file.size || 'Unknown'] (AudioManager.loadAudioDataset): a byte
    count, or the placeholder string. *)
Inductive FileSize := Bytes (n : Z) | Unknown.

(** The text a template literal gives for a size. *)
Definition size_to_string (s : FileSize) : string :=
  match s with
  | Bytes n => JS.Number_toString n
  | Unknown => "Unknown"
  end.

(** The fields of an audio file object that the pipeline reads or writes;
    [analysis] is [null] until the file has been processed. *)
Module AudioFile.
Record t (Analysis : Type) := mk {
  name : string;
  url : string;
  path : string;
  size : FileSize;
  analysis : option Analysis
}.
Arguments mk {_} _ _ _ _ _.
Arguments name {_} _.
Arguments url {_} _.
Arguments path {_} _.
Arguments size {_} _.
Arguments analysis {_} _.

(** [audioFile.analysis = a] *)
Definition set_analysis {Analysis} (a : option Analysis) (f : t Analysis) : t Analysis :=
  mk (name f) (url f) (path f) (size f) a.
End AudioFile.

(** The analysis record is opaque to the cache and to the channel: they
    store it, hand it on and serialise it.  [stringify a] is the text
    [JSON.stringify] gives for it. *)
Class JSONValue (A : Type) := stringify : A → string.

Module CacheEntry.
Record t (Analysis : Type) := mk {
  fileName : string;
  path : string;
  size : FileSize;
  analysis : option Analysis;
  cachedAt : Z;
  lastAccessed : Z
}.
Arguments mk {_} _ _ _ _ _ _.
Arguments fileName {_} _.
Arguments path {_} _.
Arguments size {_} _.
Arguments analysis {_} _.
Arguments cachedAt {_} _.
Arguments lastAccessed {_} _.

(** [entry.lastAccessed = now] *)
Definition touch {Analysis} (now : Z) (e : t Analysis) : t Analysis :=
  mk (fileName e) (path e) (size e) (analysis e) (cachedAt e) now.
End CacheEntry.

(** ** js/CacheManager.js: class CacheManager *)

Module Cache.

Section Cache.
Context {Analysis : Type} `{!JSONValue Analysis}.

(** [{ version, data }]: the persisted aggregate. *)
Record CacheStore := mkStore {
  version : option string;
  data : JS.obj (CacheEntry.t Analysis)
}.

(** [JSON.stringify] of a size, of an entry and of the store. *)
Definition stringify_size (s : FileSize) : string :=
  match s with
  | Bytes n => JS.Number_toString n
  | Unknown => JS.QuoteJSONString "Unknown"
  end.

Definition stringify_entry (e : CacheEntry.t Analysis) : string :=
  JS.object
    (JS.member "fileName" (Some (JS.QuoteJSONString (CacheEntry.fileName e))) ++
     JS.member "path" (Some (JS.QuoteJSONString (CacheEntry.path e))) ++
     JS.member "size" (Some (stringify_size (CacheEntry.size e))) ++
     JS.member "analysis" (stringify <$> CacheEntry.analysis e) ++
     JS.member "cachedAt" (Some (JS.Number_toString (CacheEntry.cachedAt e))) ++
     JS.member "lastAccessed" (Some (JS.Number_toString (CacheEntry.lastAccessed e)))).

Definition stringify_data (d : JS.obj (CacheEntry.t Analysis)) : string :=
  JS.object (flat_map (λ kv, JS.member kv.1 (Some (stringify_entry kv.2))) d).

Definition JSON_text (c : CacheStore) : string :=
  JS.object
    (JS.member "version" (JS.QuoteJSONString <$> version c) ++
     JS.member "data" (Some (stringify_data (data c)))).

(** A text that [localStorage] can hold under [storageKey], together with
    what [JSON.parse] makes of it ([None] when it throws): the parser is
    not written out, a stored item carries the parse of its text.  For
    the text that [JSON.stringify] gives, the parse is taken to be the
    store that was serialised, a member that was [undefined] being absent
    from the text and [undefined] again after parsing.  That is how JSON
    treats analyses made of strings, booleans, finite numbers, arrays and
    objects (a [NaN] or an infinite number would come back as [null]).
    What is stated on reloading without relying on this is stated for an
    arbitrary stored item and its parse. *)
Record StoredText := mkText {
  text : string;
  parsed : option CacheStore
}.

Definition JSON_stringify (c : CacheStore) : StoredText :=
  mkText (JSON_text c) (Some c).

Definition JSON_parse (s : StoredText) : option CacheStore := parsed s.

(** The [localStorage] of the page's origin, as far as this key sees it:
    the item, the longest text the origin's remaining quota lets the item
    be, and whether access to storage is refused altogether. *)
Inductive StorageError := QuotaExceededError | SecurityError.

Record LocalStorage := mkStorage {
  item : option StoredText;
  quota : Z;
  denied : bool
}.

Definition getItem (ls : LocalStorage) : StorageError + option StoredText :=
  if denied ls then inl SecurityError else inr (item ls).

Definition setItem (v : StoredText) (ls : LocalStorage) : StorageError + LocalStorage :=
  if denied ls then inl SecurityError
  else if JS.Blob_size (text v) >? quota ls then inl QuotaExceededError
  else inr (mkStorage (Some v) (quota ls) (denied ls)).

Definition removeItem (ls : LocalStorage) : StorageError + LocalStorage :=
  if denied ls then inl SecurityError
  else inr (mkStorage None (quota ls) (denied ls)).

(** The object's fields.  [cacheVersion] is [undefined] until the
    constructor assigns it; the other fields are not read before they are
    assigned. *)
Record CacheManager := mkManager {
  storageKey : string;
  cache : CacheStore;
  maxCacheSize : Z;
  cacheVersion : option string
}.

(** The messages the class writes to the console. *)
Inductive Log :=
| LogNoCache
| LogVersionMismatch
| LogLoaded (entries : nat)
| ErrLoading
| WarnSizeLimit
| LogSaved (entries : nat)
| ErrQuotaExceeded
| ErrStillCannotSave
| ErrSaving
| LogHit (name : string)
| LogMiss (name : string)
| LogCached (name : string)
| LogPruned (before after : nat)
| LogCleared.

(** The manager together with what its methods act on. *)
Record World := mkWorld {
  this : CacheManager;
  localStorage : LocalStorage;
  console : list Log
}.

Definition log (e : Log) (w : World) : World :=
  mkWorld (this w) (localStorage w) (console w ++ [e]).

Definition with_cache (c : CacheStore) (w : World) : World :=
  mkWorld
    (mkManager (storageKey (this w)) c (maxCacheSize (this w)) (cacheVersion (this w)))
    (localStorage w) (console w).

Definition with_data (d : JS.obj (CacheEntry.t Analysis)) (w : World) : World :=
  with_cache (mkStore (version (cache (this w))) d) w.

Definition with_storage (ls : LocalStorage) (w : World) : World :=
  mkWorld (this w) ls (console w).

(** [4.5 * 1024 * 1024] *)
Definition SIZE_LIMIT : Z := 4718592.

(** [Math.floor(this.maxCacheSize * 0.7)], in doubles as the code computes
    it: 350 for the constructor's 500, and 62 (not 63) for 90. *)
Definition keepCount (maxCacheSize : Z) : Z := JS.Math_floor_times_0_7 maxCacheSize.

Definition empty_store (w : World) : CacheStore :=
  mkStore (cacheVersion (this w)) [].

(** [clearCache()]: the assignment, then [removeItem], which may throw
    (the error is returned beside the world left behind). *)
Definition clearCache (w : World) : option StorageError * World :=
  let w := with_cache (empty_store w) w in
  match removeItem (localStorage w) with
  | inl e => (Some e, w)
  | inr ls => (None, log LogCleared (with_storage ls w))
  end.

(** [loadCache()]: the store it returns and the world it leaves.  An empty
    text is falsy, like a missing item; whatever is thrown inside [try]
    ends in the [catch]. *)
Definition loadCache (w : World) : CacheStore * World :=
  match getItem (localStorage w) with
  | inl _ => (empty_store w, log ErrLoading w)
  | inr None => (empty_store w, log LogNoCache w)
  | inr (Some stored) =>
      if String.eqb (text stored) EmptyString
      then (empty_store w, log LogNoCache w)
      else
        match JSON_parse stored with
        | None => (empty_store w, log ErrLoading w)
        | Some parsed =>
            if bool_decide (version parsed ≠ cacheVersion (this w)) then
              match clearCache (log LogVersionMismatch w) with
              | (Some _, w') => (empty_store w', log ErrLoading w')
              | (None, w') => (empty_store w', w')
              end
            else (parsed, log (LogLoaded (length (JS.keys (data parsed)))) w)
        end
  end.

(** [new CacheManager()]: [loadCache] runs before [maxCacheSize] and
    [cacheVersion] are assigned. *)
Definition constructor (ls : LocalStorage) (out : list Log) : World :=
  let this0 := mkManager "essentiaSketch_audioAnalysis" (mkStore None []) 0 None in
  let '(c, w) := loadCache (mkWorld this0 ls out) in
  mkWorld (mkManager (storageKey (this w)) c 500 (Some "1.0"))
          (localStorage w) (console w).

(** [generateFileKey(audioFile)] *)
Definition generateFileKey (f : AudioFile.t Analysis) : string :=
  AudioFile.path f +:+ "_" +:+ size_to_string (AudioFile.size f).

(** [hasCachedAnalysis(audioFile)] *)
Definition hasCachedAnalysis (f : AudioFile.t Analysis) (w : World) : bool :=
  JS.has (generateFileKey f) (data (cache (this w))).

(** [getCachedAnalysis(audioFile)]; [now] is what [Date.now()] answers.
    [None] is the [null] of a miss (or an [undefined] that was stored). *)
Definition getCachedAnalysis (f : AudioFile.t Analysis) (now : Z) (w : World)
  : option Analysis * World :=
  let key := generateFileKey f in
  match JS.get key (data (cache (this w))) with
  | Some cached =>
      let w := with_data (JS.set key (CacheEntry.touch now cached) (data (cache (this w)))) w in
      (CacheEntry.analysis cached, log (LogHit (AudioFile.name f)) w)
  | None => (None, log (LogMiss (AudioFile.name f)) w)
  end.

(** [pruneCache()] *)
Definition pruneCache (w : World) : World :=
  let entries := data (cache (this w)) in
  let sorted := JS.sort (λ kv, CacheEntry.lastAccessed kv.2) entries in
  let toKeep := JS.slice (- keepCount (maxCacheSize (this w))) sorted in
  log (LogPruned (length entries) (length toKeep))
      (with_data (JS.fromEntries toKeep) w).

(** [saveCache()].  [serialized] is computed once, before the size check. *)
Definition saveCache (w : World) : World :=
  let serialized := JSON_stringify (cache (this w)) in
  let estimatedSize := JS.Blob_size (text serialized) in
  let w := if estimatedSize >? SIZE_LIMIT
           then pruneCache (log WarnSizeLimit w) else w in
  match setItem serialized (localStorage w) with
  | inr ls =>
      log (LogSaved (length (JS.keys (data (cache (this w)))))) (with_storage ls w)
  | inl QuotaExceededError =>
      let w := pruneCache (log ErrQuotaExceeded w) in
      match setItem (JSON_stringify (cache (this w))) (localStorage w) with
      | inr ls => with_storage ls w
      | inl _ => log ErrStillCannotSave w
      end
  | inl _ => log ErrSaving w
  end.

(** [setCachedAnalysis(audioFile, analysis)]; [t1] and [t2] are the two
    readings of [Date.now()], for [cachedAt] and for [lastAccessed]. *)
Definition newEntry (f : AudioFile.t Analysis) (a : option Analysis) (t1 t2 : Z)
  : CacheEntry.t Analysis :=
  CacheEntry.mk (AudioFile.name f) (AudioFile.path f) (AudioFile.size f) a t1 t2.

(** [this.cache.data[key] = entry] *)
Definition assign (key : string) (entry : CacheEntry.t Analysis) (w : World) : World :=
  with_data (JS.set key entry (data (cache (this w)))) w.

(** [if (Object.keys(this.cache.data).length > this.maxCacheSize)
    this.pruneCache()] *)
Definition checkCount (w : World) : World :=
  if Z.of_nat (length (JS.keys (data (cache (this w))))) >? maxCacheSize (this w)
  then pruneCache w else w.

Definition setCachedAnalysis (f : AudioFile.t Analysis) (a : option Analysis)
    (t1 t2 : Z) (w : World) : World :=
  log (LogCached (AudioFile.name f))
      (saveCache (checkCount (assign (generateFileKey f) (newEntry f a t1 t2) w))).

(** A call [setCachedAnalysis(file, value)] with the two clock readings it
    makes, the dictionary entry it writes, and a run of such calls. *)
Record Call := mkCall {
  file : AudioFile.t Analysis;
  value : option Analysis;
  at1 : Z;
  at2 : Z
}.

Definition written (c : Call) : string * CacheEntry.t Analysis :=
  (generateFileKey (file c), newEntry (file c) (value c) (at1 c) (at2 c)).

Definition setAll (calls : list Call) (w : World) : World :=
  fold_left (λ w c, setCachedAnalysis (file c) (value c) (at1 c) (at2 c) w) calls w.

End Cache.
Arguments CacheStore : clear implicits.
Arguments Call : clear implicits.
Arguments StoredText : clear implicits.
Arguments mkText {_} _ _.
Arguments LocalStorage : clear implicits.
Arguments CacheManager : clear implicits.
Arguments World : clear implicits.

End Cache.

(** ** js/CacheManager.js: class EssentiaWorkerManager *)

Module Channel.

Section Channel.
Context {Analysis Signal : Type}.

(** What the host posts to the worker: [{ type, payload, id }], the payload
    being [{}] for ["init"] and [{ audioBuffer, fileName }] for
    ["analyze"] ([audioBuffer] may be [null]). *)
Inductive RequestPayload :=
| EmptyPayload
| AnalyzePayload (audioBuffer : option Signal) (fileName : string).

Record Request := mkRequest {
  rtype : string;
  rpayload : RequestPayload;
  rid : Z
}.

(** What the worker posts back: [{ type, payload, id }].  A payload is an
    object some of whose members may be missing. *)
Record Payload := mkPayload {
  success : option bool;
  error : option string;
  analysis : option Analysis;
  fileName : option string
}.

Record Message := mkMessage {
  type : string;
  payload : Payload;
  id : Z
}.

Inductive JSError :=
| Error (message : string)
| TypeError.

(** The promise [sendMessage] returns for a request. *)
Inductive PromiseState :=
| Pending
| Fulfilled (value : Payload)
| Rejected (reason : JSError).

(** [{ resolve, reject }]: the entry stored under an id holds the two
    functions of the promise made for the request of that id, so the entry
    itself carries nothing more. *)
Inductive PendingRequest := ResolveReject.

(** A [Worker] object, by the order of creation. *)
Definition WorkerRef := nat.

Record EssentiaWorkerManager := mkManager {
  worker : option WorkerRef;
  isInitialized : bool;
  messageId : Z;
  pendingMessages : gmap Z PendingRequest
}.

(** A callback registered with [setTimeout]: when it is due and the
    request whose pending entry it removes. *)
Record Timer := mkTimer { due : Z; request : Z }.

Inductive Log :=
| LogInitializing
| LogInitialized
| WarnInitFailed
| ErrInitializing
| WarnUnknownId (id : Z)
| WarnNotInitialized
| LogSending (fileName : string)
| LogComplete (fileName : string)
| ErrAnalyzing (fileName : string) (e : JSError)
| LogTerminated.

(** The manager and the part of the platform its methods act on: the
    promises it has handed out (by request id), the timeouts not yet run,
    every [postMessage] so far, the workers created and terminated, the
    event loop's clock in milliseconds, how many mock analyses were
    generated, and the console. *)
Record World := mkWorld {
  this : EssentiaWorkerManager;
  promises : gmap Z PromiseState;
  timers : list Timer;
  posted : list (WorkerRef * Request);
  created : nat;
  terminated : list WorkerRef;
  time : Z;
  mocks : nat;
  console : list Log
}.

Definition log (e : Log) (w : World) : World :=
  mkWorld (this w) (promises w) (timers w) (posted w) (created w)
          (terminated w) (time w) (mocks w) (console w ++ [e]).

Definition with_this (m : EssentiaWorkerManager) (w : World) : World :=
  mkWorld m (promises w) (timers w) (posted w) (created w)
          (terminated w) (time w) (mocks w) (console w).

Definition with_promises (p : gmap Z PromiseState) (w : World) : World :=
  mkWorld (this w) p (timers w) (posted w) (created w)
          (terminated w) (time w) (mocks w) (console w).

Definition with_timers (t : list Timer) (w : World) : World :=
  mkWorld (this w) (promises w) t (posted w) (created w)
          (terminated w) (time w) (mocks w) (console w).

Definition with_pending (p : gmap Z PendingRequest) (w : World) : World :=
  with_this (mkManager (worker (this w)) (isInitialized (this w)) (messageId (this w)) p) w.

Definition with_isInitialized (b : bool) (w : World) : World :=
  with_this (mkManager (worker (this w)) b (messageId (this w)) (pendingMessages (this w))) w.

(** [new EssentiaWorkerManager()] on a fresh page. *)
Definition constructor : World :=
  mkWorld (mkManager None false 0 ∅) ∅ [] [] 0 [] 0 0 [].

(** Settling a promise: only a pending promise changes. *)
Definition settle (i : Z) (s : PromiseState) (w : World) : World :=
  match promises w !! i with
  | Some (Fulfilled _) | Some (Rejected _) => w
  | _ => with_promises (<[i := s]> (promises w)) w
  end.

(** [resolve] and [reject] of the promise made for request [i]. *)
Definition resolve (i : Z) (v : Payload) : World → World :=
  settle i (Fulfilled v).

Definition reject (i : Z) (e : JSError) : World → World :=
  settle i (Rejected e).

(** The delay given to [setTimeout]. *)
Definition TIMEOUT : Z := 60000.

(** [sendMessage(type, payload)]: the id it used (the promise is
    [promises !! id]) and the world after the executor has run.  With no
    worker, [this.worker.postMessage] throws inside the executor: the
    promise is rejected with the [TypeError], the entry stays in
    [pendingMessages] and no timeout is set. *)
Definition sendMessage (type : string) (payload : RequestPayload) (w : World)
  : Z * World :=
  let id := messageId (this w) in
  let w := with_this (mkManager (worker (this w)) (isInitialized (this w)) (id + 1)
                                (pendingMessages (this w))) w in
  let w := with_promises (<[id := Pending]> (promises w)) w in
  let w := with_pending (<[id := ResolveReject]> (pendingMessages (this w))) w in
  match worker (this w) with
  | None => (id, reject id TypeError w)
  | Some wk =>
      let w := mkWorld (this w) (promises w) (timers w)
                       (posted w ++ [(wk, mkRequest type payload id)])
                       (created w) (terminated w) (time w) (mocks w) (console w) in
      (id, with_timers (timers w ++ [mkTimer (time w + TIMEOUT) id]) w)
  end.

(** [handleMessage(e)] with [e.data = m]. *)
Definition handleMessage (m : Message) (w : World) : World :=
  match pendingMessages (this w) !! id m with
  | None => log (WarnUnknownId (id m)) w
  | Some ResolveReject =>
      let w := with_pending (delete (id m) (pendingMessages (this w))) w in
      if String.eqb (type m) "error"
      then reject (id m) (Error (default EmptyString (error (payload m)))) w
      else resolve (id m) (payload m) w
  end.

(** The callback [sendMessage] gave to [setTimeout] for request [i]. *)
Definition onTimeout (i : Z) (w : World) : World :=
  match pendingMessages (this w) !! i with
  | Some _ =>
      reject i (Error "Worker message timeout")
             (with_pending (delete i (pendingMessages (this w))) w)
  | None => w
  end.

(** [terminate()] *)
Definition terminate (w : World) : World :=
  match worker (this w) with
  | Some wk =>
      let w := mkWorld (mkManager None false (messageId (this w)) (pendingMessages (this w)))
                       (promises w) (timers w) (posted w) (created w)
                       (terminated w ++ [wk]) (time w) (mocks w) (console w) in
      log LogTerminated w
  | None => w
  end.

(** What can happen to the channel between two steps of its caller: the
    worker's [onmessage] runs [handleMessage], time passes, the platform
    runs a timeout callback that is due (each runs once), somebody sends a
    request, somebody terminates the channel. *)
Inductive Action :=
| Deliver (m : Message)
| Elapse (ms : Z)
| Fire (i : Z)
| Send (type : string) (payload : RequestPayload)
| Terminate.

Definition is_due (i now : Z) (t : Timer) : bool :=
  bool_decide (request t = i) && bool_decide (due t ≤ now).

Definition fire (i : Z) (w : World) : World :=
  if existsb (is_due i (time w)) (timers w)
  then onTimeout i (with_timers (filter (λ t, request t ≠ i) (timers w)) w)
  else w.

Definition elapse (ms : Z) (w : World) : World :=
  mkWorld (this w) (promises w) (timers w) (posted w) (created w)
          (terminated w) (time w + Z.max 0 ms) (mocks w) (console w).

Definition step (a : Action) (w : World) : World :=
  match a with
  | Deliver m => handleMessage m w
  | Elapse ms => elapse ms w
  | Fire i => fire i w
  | Send type payload => (sendMessage type payload w).2
  | Terminate => terminate w
  end.

Definition run (actions : list Action) (w : World) : World :=
  fold_left (λ w a, step a w) actions w.

(** [generateMockAnalysis()]: eight draws of [Math.random()] made into a
    record.  [mock k] is the record built from the [k]-th eight draws. *)
Context (mock : nat → Analysis).

Definition generateMockAnalysis (w : World) : Analysis * World :=
  (mock (mocks w),
   mkWorld (this w) (promises w) (timers w) (posted w) (created w)
           (terminated w) (time w) (S (mocks w)) (console w)).

(** An [async] call either completes with a value or is still suspended
    at its [await] when the actions it was given run out. *)
Inductive Completion (R : Type) :=
| Completed (r : R)
| Suspended.
Arguments Completed {_} _.
Arguments Suspended {_}.

(** What the worker thread and the timers do while the host waits for the
    answer to a request that was posted. *)
Definition Thread := Request → list Action.

(** [await this.sendMessage(type, payload)]: send, let the event loop run
    (the worker thread only acts on a request that was posted), look at
    the promise. *)
Definition await_sendMessage (thread : Thread) (type : string)
    (payload : RequestPayload) (w : World) : Completion PromiseState * World :=
  let '(id, w') := sendMessage type payload w in
  let w' := match worker (this w) with
            | Some _ => run (thread (mkRequest type payload id)) w'
            | None => w'
            end in
  match promises w' !! id with
  | Some (Fulfilled v) => (Completed (Fulfilled v), w')
  | Some (Rejected e) => (Completed (Rejected e), w')
  | _ => (Suspended, w')
  end.

(** [initialize()]: [spawned] says whether [new Worker(...)] succeeded. *)
Definition initialize (spawned : bool) (thread : Thread) (w : World)
  : Completion bool * World :=
  let w := log LogInitializing w in
  if negb spawned then (Completed false, with_isInitialized false (log ErrInitializing w))
  else
    let w := mkWorld (mkManager (Some (created w)) (isInitialized (this w))
                                (messageId (this w)) (pendingMessages (this w)))
                     (promises w) (timers w) (posted w) (S (created w))
                     (terminated w) (time w) (mocks w) (console w) in
    match await_sendMessage thread "init" EmptyPayload w with
    | (Completed (Fulfilled initResult), w) =>
        if default false (success initResult)
        then (Completed true, log LogInitialized (with_isInitialized true w))
        else (Completed false, log WarnInitFailed w)
    | (Completed _, w) =>
        (Completed false, with_isInitialized false (log ErrInitializing w))
    | (Suspended, w) => (Suspended, w)
    end.

(** [analyzeAudio(audioBuffer, fileName)].  [result.analysis] is
    [undefined] when the payload has no such member. *)
Definition analyzeAudio (thread : Thread) (audioBuffer : option Signal)
    (fileName : string) (w : World) : Completion (option Analysis) * World :=
  if negb (isInitialized (this w)) then
    let '(a, w) := generateMockAnalysis (log WarnNotInitialized w) in
    (Completed (Some a), w)
  else
    match await_sendMessage thread "analyze" (AnalyzePayload audioBuffer fileName)
                            (log (LogSending fileName) w) with
    | (Completed (Fulfilled result), w) =>
        (Completed (analysis result), log (LogComplete fileName) w)
    | (Completed (Rejected e), w) =>
        let '(a, w) := generateMockAnalysis (log (ErrAnalyzing fileName e) w) in
        (Completed (Some a), w)
    | (Completed Pending, w) | (Suspended, w) => (Suspended, w)
    end.

End Channel.
Arguments RequestPayload : clear implicits.
Arguments Request : clear implicits.
Arguments Payload : clear implicits.
Arguments Message : clear implicits.
Arguments Action : clear implicits.
Arguments World : clear implicits.
Arguments Thread : clear implicits.
Arguments Completed {_} _.
Arguments Suspended {_}.

End Channel.

(** ** js/essentia.worker.js: the script the worker runs *)

Module Worker.

Section Worker.
Context {Analysis Signal : Type}.

(** The library behind the script: whether [new Essentia(EssentiaWASM)]
    succeeds; the record the [try] block of [analyzeAudio] builds from a
    signal ([None] when something outside its inner [try] blocks throws);
    the mock built from the [k]-th draws of [Math.random()]. *)
Context (essentia_loads : bool).
Context (extract : Signal → nat → option Analysis).
Context (mock : nat → Analysis).

(** [essentia] (is it non-null), [isInitialized], and the draws so far. *)
Record State := mkState {
  essentia : bool;
  isInitialized : bool;
  draws : nat
}.

Definition initial : State := mkState false false 0.

(** [initializeEssentia()] *)
Definition initializeEssentia (st : State) : Channel.Payload Analysis * State :=
  if essentia_loads
  then (Channel.mkPayload (Some true) None None None, mkState true true (draws st))
  else (Channel.mkPayload (Some false) (Some "Essentia failed to load") None None,
        mkState (essentia st) false (draws st)).

(** [analyzeAudio(audioBuffer)]: [audioBuffer.length] throws on [null]
    inside the [try], so a null buffer ends in the mock as well. *)
Definition analyzeAudio (audioBuffer : option Signal) (st : State) : Analysis * State :=
  let st' := mkState (essentia st) (isInitialized st) (S (draws st)) in
  if negb (isInitialized st) || negb (essentia st) then (mock (draws st), st')
  else
    match audioBuffer with
    | None => (mock (draws st), st')
    | Some signal =>
        match extract signal (draws st) with
        | Some a => (a, st')
        | None => (mock (draws st), st')
        end
    end.

(** [self.onmessage]: the messages it posts back.  Nothing in the two
    cases throws, so the ["error"] reply of the [catch] is never sent. *)
Definition onmessage (req : Channel.Request Signal) (st : State)
  : list (Channel.Message Analysis) * State :=
  if String.eqb (Channel.rtype req) "init" then
    let '(initResult, st) := initializeEssentia st in
    ([Channel.mkMessage "init-complete" initResult (Channel.rid req)], st)
  else if String.eqb (Channel.rtype req) "analyze" then
    let '(audioBuffer, fileName) :=
      match Channel.rpayload req with
      | Channel.AnalyzePayload b n => (b, Some n)
      | Channel.EmptyPayload => (None, None)
      end in
    let '(a, st) := analyzeAudio audioBuffer st in
    ([Channel.mkMessage "analysis-complete"
        (Channel.mkPayload None None (Some a) fileName) (Channel.rid req)], st)
  else ([], st).

(** A worker that answers every request at once, from state [st]. *)
Definition prompt_thread (st : State) : Channel.Thread Analysis Signal :=
  λ req, Channel.Deliver <$> (onmessage req st).1.

End Worker.

End Worker.

(** ** sketch.js: the batch processor *)

Module Sketch.

Section Sketch.
Context {Analysis Signal : Type} `{!JSONValue Analysis}.

(** The platform, as the batch sees it: the successive readings of
    [Date.now()]; the decoder ([fetch], [decodeAudioData] and
    [getChannelData(0)]: [None] when any of them throws); the mock records
    [generateMockAnalysis] builds; the worker thread and the timers. *)
Record Env := mkEnv {
  Date_now : nat → Z;
  decodeAudio : AudioFile.t Analysis → option Signal;
  mock : nat → Analysis;
  thread : Channel.Thread Analysis Signal
}.

Record ProcessingStatus := mkStatus {
  current : nat;
  total : nat;
  cached : nat
}.

(** The globals of the sketch.  [audioPlayerUIs] holds, for each player,
    the index of its file in [audioFiles]; [clock] counts the readings of
    [Date.now()]. *)
Record App := mkApp {
  cacheManager : Cache.World Analysis;
  essentiaWorker : Channel.World Analysis Signal;
  audioFiles : list (AudioFile.t Analysis);
  audioPlayerUIs : list nat;
  processingStatus : ProcessingStatus;
  isLoading : bool;
  clock : nat
}.

Context (env : Env).

(** [AudioManager.loadAudioBuffer(audioFile)]: the samples, or [null] from
    its own [catch]. *)
Definition loadAudioBuffer (f : AudioFile.t Analysis) : option Signal :=
  decodeAudio env f.

(** [audioFile.analysis = cacheManager.getCachedAnalysis(audioFile)] for the
    file at index [i]. *)
Definition useCached (i : nat) (f : AudioFile.t Analysis) (app : App) : App :=
  let '(a, cm) := Cache.getCachedAnalysis f (Date_now env (clock app)) (cacheManager app) in
  mkApp cm (essentiaWorker app) (<[i := AudioFile.set_analysis a f]> (audioFiles app))
        (audioPlayerUIs app) (processingStatus app) (isLoading app) (S (clock app)).

(** The [try] block shared by [processFirstAudioFile] and
    [processRemainingAudioFiles]: load the buffer, analyse, cache.  The
    [catch] beside it (mock analysis, not cached) is entered only if one
    of the three calls throws, and none does: [loadAudioBuffer] returns
    [null] from its own [catch], [analyzeAudio] returns a mock from its
    own, and [saveCache] swallows storage errors. *)
Definition analyzeAndCache (i : nat) (f : AudioFile.t Analysis) (app : App)
  : Channel.Completion unit * App :=
  let audioBuffer := loadAudioBuffer f in
  match Channel.analyzeAudio (mock env) (thread env) audioBuffer (AudioFile.name f)
                             (essentiaWorker app) with
  | (Channel.Completed a, ww) =>
      let f := AudioFile.set_analysis a f in
      let t1 := Date_now env (clock app) in
      let t2 := Date_now env (S (clock app)) in
      (Channel.Completed (),
       mkApp (Cache.setCachedAnalysis f (AudioFile.analysis f) t1 t2 (cacheManager app))
             ww (<[i := f]> (audioFiles app)) (audioPlayerUIs app)
             (processingStatus app) (isLoading app) (S (S (clock app))))
  | (Channel.Suspended, ww) =>
      (Channel.Suspended,
       mkApp (cacheManager app) ww (audioFiles app) (audioPlayerUIs app)
             (processingStatus app) (isLoading app) (clock app))
  end.

Definition pushPlayer (i : nat) (app : App) : App :=
  mkApp (cacheManager app) (essentiaWorker app) (audioFiles app)
        (audioPlayerUIs app ++ [i]) (processingStatus app) (isLoading app) (clock app).

Definition setCurrent (n : nat) (app : App) : App :=
  mkApp (cacheManager app) (essentiaWorker app) (audioFiles app) (audioPlayerUIs app)
        (mkStatus n (total (processingStatus app)) (cached (processingStatus app)))
        (isLoading app) (clock app).

(** [processFirstAudioFile(audioFiles, ...)] *)
Definition processFirstAudioFile (app : App) : Channel.Completion unit * App :=
  let app := mkApp (cacheManager app) (essentiaWorker app) (audioFiles app) []
                   (processingStatus app) (isLoading app) (clock app) in
  match audioFiles app !! 0%nat with
  | None => (Channel.Completed (), app)
  | Some f =>
      let '(c, app) :=
        if Cache.hasCachedAnalysis f (cacheManager app)
        then (Channel.Completed (), useCached 0 f app)
        else analyzeAndCache 0 f app in
      match c with
      | Channel.Completed _ => (c, pushPlayer 0 app)
      | Channel.Suspended => (c, app)
      end
  end.

(** One turn of the loop of [processRemainingAudioFiles], for index [i]. *)
Definition processOne (i : nat) (app : App) : Channel.Completion unit * App :=
  match audioFiles app !! i with
  | None => (Channel.Completed (), app)
  | Some f =>
      let '(c, app) :=
        if Cache.hasCachedAnalysis f (cacheManager app)
        then (Channel.Completed (), app)
        else analyzeAndCache i f app in
      match c with
      | Channel.Completed _ => (c, setCurrent (S i) (pushPlayer i app))
      | Channel.Suspended => (c, app)
      end
  end.

(** [for (let i = 1; i < audioFiles.length; i++)], by the indices left. *)
Fixpoint processFrom (indices : list nat) (app : App) : Channel.Completion unit * App :=
  match indices with
  | [] => (Channel.Completed (), app)
  | i :: rest =>
      match processOne i app with
      | (Channel.Completed _, app) => processFrom rest app
      | (Channel.Suspended, app) => (Channel.Suspended, app)
      end
  end.

(** [processRemainingAudioFiles(audioFiles, ...)] *)
Definition processRemainingAudioFiles (app : App) : Channel.Completion unit * App :=
  processFrom (seq 1 (length (audioFiles app) - 1)) app.

(** The [forEach] of [initializeApp]: a file already in the cache gets its
    cached analysis and counts as cached. *)
Definition checkCached (app : App) (i : nat) : App :=
  match audioFiles app !! i with
  | None => app
  | Some f =>
      if Cache.hasCachedAnalysis f (cacheManager app) then
        let app := useCached i f app in
        mkApp (cacheManager app) (essentiaWorker app) (audioFiles app) (audioPlayerUIs app)
              (mkStatus (current (processingStatus app)) (total (processingStatus app))
                        (S (cached (processingStatus app))))
              (isLoading app) (clock app)
      else app
  end.

(** [initializeApp()] from the point where the dataset [files] has been
    loaded; the managers are those of [setup], the worker initialised or
    not. *)
Definition initializeApp (cm : Cache.World Analysis)
    (ew : Channel.World Analysis Signal) (files : list (AudioFile.t Analysis))
  : Channel.Completion unit * App :=
  let app := mkApp cm ew files [] (mkStatus 0 (length files) 0) true 0 in
  let app := fold_left checkCached (seq 0 (length files)) app in
  let '(c, app) :=
    match files with
    | [] => (Channel.Completed (), app)
    | _ :: _ =>
        match processFirstAudioFile app with
        | (Channel.Completed _, app) => (Channel.Completed (), setCurrent 1 app)
        | (Channel.Suspended, app) => (Channel.Suspended, app)
        end
    end in
  match c with
  | Channel.Suspended => (c, app)
  | Channel.Completed _ =>
      processRemainingAudioFiles
        (mkApp (cacheManager app) (essentiaWorker app) (audioFiles app)
               (audioPlayerUIs app) (processingStatus app) false (clock app))
  end.

End Sketch.
Arguments Env : clear implicits.
Arguments App : clear implicits.

End Sketch.

(** ** js/CacheManager.js: the statistics and the debugging helpers of
    [CacheManager] *)

(** [JSON.stringify(a, null, 2)] of an analysis record that stands at the
    indentation [indent]. *)
Class JSONPretty (A : Type) := stringify_pretty : string → A → string.

Module CacheTools.

Section CacheTools.
Context {Analysis : Type} `{!JSONValue Analysis} `{!JSONPretty Analysis}.
Import Cache.

(** *** [getCacheStats()] *)

(** The object it returns; the two dates by their time values.
    [cacheSizeMB] is absent from the object returned for an empty
    store. *)
Record CacheStats := mkStats {
  totalEntries : nat;
  cacheSize : Z;
  cacheSizeMB : option string;
  oldestEntry : option Z;
  newestEntry : option Z
}.

(** [Math.min(...timestamps)] and [Math.max(...timestamps)] of a
    non-empty array. *)
Definition Math_min (first : Z) (rest : list Z) : Z := fold_left Z.min rest first.
Definition Math_max (first : Z) (rest : list Z) : Z := fold_left Z.max rest first.

(** [s.padStart(2, '0')] *)
Definition padStart2 (s : string) : string :=
  match String.length s with
  | O => "00" +:+ s
  | S O => "0" +:+ s
  | _ => s
  end.

(** [(bytes / (1024 * 1024)).toFixed(2)] for a byte count.  The quotient
    is exact in double precision, so the digits are those of the integer
    [n] nearest to a hundred times the quotient, the larger one in a tie:
    the integer part of [n / 100], a point, and the two last digits. *)
Definition toFixed2_MB (bytes : Z) : string :=
  let n := (200 * bytes + 1048576) / 2097152 in
  JS.Number_toString (n / 100) +:+ "." +:+ padStart2 (JS.Number_toString (n mod 100)).

Definition getCacheStats (w : World Analysis) : CacheStats :=
  let entries := (data (cache (this w))).*2 in
  match CacheEntry.cachedAt <$> entries with
  | [] => mkStats 0 0 None None None
  | t :: timestamps =>
      let cacheSize := JS.Blob_size (text (JSON_stringify (cache (this w)))) in
      mkStats (length entries) cacheSize (Some (toFixed2_MB cacheSize))
              (Some (Math_min t timestamps)) (Some (Math_max t timestamps))
  end.

(** *** [exportCache()] and [importCache(jsonString)] *)

Definition newline : string := String "010"%char EmptyString.

(** An object of [JSON.stringify(value, null, 2)] whose own indentation
    is [indent]: one member per line, two spaces further in; [{}] when
    there is none. *)
Definition pretty_object (indent : string) (members : list string) : string :=
  match members with
  | [] => "{}"
  | _ =>
      "{" +:+ newline +:+ indent +:+ "  "
        +:+ JS.join ("," +:+ newline +:+ indent +:+ "  ") members
        +:+ newline +:+ indent +:+ "}"
  end.

Definition pretty_member (name : string) (value : option string) : list string :=
  match value with
  | Some v => [JS.QuoteJSONString name +:+ ": " +:+ v]
  | None => []
  end.

Definition pretty_entry (indent : string) (e : CacheEntry.t Analysis) : string :=
  pretty_object indent
    (pretty_member "fileName" (Some (JS.QuoteJSONString (CacheEntry.fileName e))) ++
     pretty_member "path" (Some (JS.QuoteJSONString (CacheEntry.path e))) ++
     pretty_member "size" (Some (stringify_size (CacheEntry.size e))) ++
     pretty_member "analysis" (stringify_pretty (indent +:+ "  ") <$> CacheEntry.analysis e) ++
     pretty_member "cachedAt" (Some (JS.Number_toString (CacheEntry.cachedAt e))) ++
     pretty_member "lastAccessed" (Some (JS.Number_toString (CacheEntry.lastAccessed e)))).

Definition pretty_data (indent : string) (d : JS.obj (CacheEntry.t Analysis)) : string :=
  pretty_object indent
    (flat_map (λ kv, pretty_member kv.1 (Some (pretty_entry (indent +:+ "  ") kv.2))) d).

Definition pretty_text (c : CacheStore Analysis) : string :=
  pretty_object ""
    (pretty_member "version" (JS.QuoteJSONString <$> version c) ++
     pretty_member "data" (Some (pretty_data "  " (data c)))).

(** [exportCache()]: the indented text, with what [JSON.parse] makes of
    it. *)
Definition exportCache (w : World Analysis) : StoredText Analysis :=
  mkText (pretty_text (cache (this w))) (Some (cache (this w))).

(** What [importCache] prints last. *)
Inductive ImportLog := LogImported | ErrVersionMismatch | ErrImporting.

(** [importCache(jsonString)], for a text on which [JSON.parse] throws or
    which parses to a store: the value returned, its own message (printed
    after whatever [saveCache] printed), and the world left. *)
Definition importCache (jsonString : StoredText Analysis) (w : World Analysis)
  : (bool * ImportLog) * World Analysis :=
  match JSON_parse jsonString with
  | None => ((false, ErrImporting), w)
  | Some imported =>
      if bool_decide (version imported = cacheVersion (this w))
      then ((true, LogImported), saveCache (with_cache imported w))
      else ((false, ErrVersionMismatch), w)
  end.

End CacheTools.

End CacheTools.

(** ** js/CacheManager.js and sketch.js: the circle of fifths *)

Module Wheel.

(** The own properties of the [keyPositions] literal of
    [keyToCirclePosition]. *)
Definition keyPositions : JS.obj Z :=
  [("C", 0); ("G", 1); ("D", 2); ("A", 3); ("E", 4); ("B", 5);
   ("F#", 6); ("C#", 7); ("G#", 8); ("D#", 9); ("A#", 10); ("F", 11)].

(** The names an object literal inherits from [Object.prototype]; a lookup
    of one of them answers a function (or, for [__proto__], the prototype
    itself), which is truthy. *)
Definition Object_prototype : list string :=
  ["constructor"; "hasOwnProperty"; "isPrototypeOf"; "propertyIsEnumerable";
   "toLocaleString"; "toString"; "valueOf"; "__proto__";
   "__defineGetter__"; "__defineSetter__"; "__lookupGetter__"; "__lookupSetter__"].

(** What [keyPositions[key] || 0] answers: a number, or the inherited
    member.  The only falsy values a lookup can give are the [0] of ["C"]
    and [undefined], and both end in [0]. *)
Inductive Looked := Position (n : Z) | Inherited (name : string).

(** [keyToCirclePosition(key)] *)
Definition keyToCirclePosition (key : string) : Looked :=
  match JS.get key keyPositions with
  | Some n => if Z.eqb n 0 then Position 0 else Position n
  | None => if bool_decide (key ∈ Object_prototype) then Inherited key else Position 0
  end.

(** The [keys] array of [drawCircleOfFifths]: slice [i] of the wheel
    carries the label [keys[i]]. *)
Definition keys : list string :=
  ["C"; "G"; "D"; "A"; "E"; "B"; "F#"; "C#"; "G#"; "D#"; "A#"; "F"].

(** The array [generateMockAnalysis] draws its key from, in semitone
    order. *)
Definition mock_keys : list string :=
  ["C"; "C#"; "D"; "D#"; "E"; "F"; "F#"; "G"; "G#"; "A"; "A#"; "B"].

End Wheel.

(** ** js/AudioPlayerUI.js: the playback state of [AudioManager] *)

Module Playback.

Section Playback.
(** Times are seconds as the platform reports them.  The manager copies
    and stores them and writes the literal [0]; it never computes with
    them. *)
Context {Time : Type} (zero : Time).

(** An [Audio] element as far as the manager reads or writes it: its
    [currentTime], and whether [playAudio] has attached its [timeupdate]
    and [ended] listeners to it. *)
Record Audio := mkAudio {
  element_currentTime : Time;
  listening : bool
}.

(** The playback fields of an audio file object. *)
Record File := mkFile {
  name : string;
  url : option string;
  duration : Time;
  audioElement : option Audio;
  isLoaded : bool;
  isPlaying : bool;
  currentTime : Time
}.

(** [if (audioFile.url)]: [null] and the empty string are falsy. *)
Definition truthy (u : option string) : bool :=
  match u with
  | Some s => negb (String.eqb s "")
  | None => false
  end.

Inductive Log :=
  | LogPlayingDummy (name : string)   (* Playing dummy audio: <name> *)
  | ErrLoadingAudio.                  (* Error loading audio: <event> *)

(** The manager.  A file object is known by its place in [audioFiles]:
    [currentPlayingAudio] holds that place, or [None] for [null].
    [suspended] lists the calls of [playAudio] that wait at
    [await this.loadAudio(audioFile)], by file.  ([loadedAudioObjects] is
    written once per load and never read.) *)
Record AudioManager := mkManager {
  audioFiles : list File;
  currentPlayingAudio : option nat;
  suspended : list nat;
  console : list Log
}.

Definition with_files (files : list File) (m : AudioManager) : AudioManager :=
  mkManager files (currentPlayingAudio m) (suspended m) (console m).

Definition with_current (c : option nat) (m : AudioManager) : AudioManager :=
  mkManager (audioFiles m) c (suspended m) (console m).

Definition with_suspended (s : list nat) (m : AudioManager) : AudioManager :=
  mkManager (audioFiles m) (currentPlayingAudio m) s (console m).

Definition set_isPlaying (b : bool) (f : File) : File :=
  mkFile (name f) (url f) (duration f) (audioElement f) (isLoaded f) b (currentTime f).

Definition set_isLoaded (b : bool) (f : File) : File :=
  mkFile (name f) (url f) (duration f) (audioElement f) b (isPlaying f) (currentTime f).

(** [audioFile.audioElement.currentTime = time; audioFile.currentTime = time] *)
Definition set_time (time : Time) (f : File) : File :=
  mkFile (name f) (url f) (duration f)
    ((λ el, mkAudio time (listening el)) <$> audioElement f)
    (isLoaded f) (isPlaying f) time.

(** [pauseAudio(audioFile)]; [audioElement.pause()] changes nothing the
    manager keeps. *)
Definition pauseAudio (i : nat) (m : AudioManager) : AudioManager :=
  let m := with_files (alter (set_isPlaying false) i (audioFiles m)) m in
  if bool_decide (currentPlayingAudio m = Some i) then with_current None m else m.

(** The callback of [stopAll]'s [forEach], at the file in place [i]. *)
Definition stop (m : AudioManager) (i : nat) : AudioManager :=
  match audioFiles m !! i with
  | None => m
  | Some f =>
      let m := if isPlaying f then pauseAudio i m else m in
      match audioElement f with
      | Some _ => with_files (alter (set_time zero) i (audioFiles m)) m
      | None => m
      end
  end.

(** [stopAll()] *)
Definition stopAll (m : AudioManager) : AudioManager :=
  with_current None (fold_left stop (seq 0 (length (audioFiles m))) m).

(** [seekTo(audioFile, time)] *)
Definition seekTo (i : nat) (time : Time) (m : AudioManager) : AudioManager :=
  match audioFiles m !! i with
  | None => m
  | Some f =>
      match audioElement f with
      | Some _ => with_files (alter (set_time time) i (audioFiles m)) m
      | None => m
      end
  end.

(** [playAudio(audioFile)] from the test of [audioFile.audioElement] on:
    what runs at once for a loaded file, and after the [await] for the
    others. *)
Definition start (i : nat) (m : AudioManager) : AudioManager :=
  match audioFiles m !! i with
  | None => m
  | Some f =>
      match audioElement f with
      | Some el =>
          let playing f :=
            mkFile (name f) (url f) (duration f)
              (Some (mkAudio (element_currentTime el) true))
              (isLoaded f) true (currentTime f) in
          with_current (Some i) (with_files (alter playing i (audioFiles m)) m)
      | None =>
          mkManager (alter (set_isPlaying true) i (audioFiles m)) (Some i)
            (suspended m) (console m ++ [LogPlayingDummy (name f)])
      end
  end.

(** [loadAudio(audioFile)] up to the promise it returns, for a file that
    is not loaded: a file without url is marked loaded; for the others an
    [Audio] is created, whose events come later. *)
Definition loadAudio (i : nat) (m : AudioManager) : AudioManager :=
  match audioFiles m !! i with
  | None => m
  | Some f =>
      if truthy (url f) then m
      else with_files (alter (set_isLoaded true) i (audioFiles m)) m
  end.

(** A call either runs to its end or stops at the [await]. *)
Inductive Played :=
  | Started (m : AudioManager)
  | Awaiting (m : AudioManager).

(** [playAudio(audioFile)], to its end or to the [await]. *)
Definition playAudio (i : nat) (m : AudioManager) : Played :=
  let m := stopAll m in
  match audioFiles m !! i with
  | None => Started m
  | Some f =>
      if isLoaded f then Started (start i m)
      else Awaiting (with_suspended (suspended m ++ [i]) (loadAudio i m))
  end.

(** The [loadedmetadata] listener of the [Audio] that [loadAudio] made;
    [d] is the [audio.duration] the platform reports. *)
Definition loadedmetadata (i : nat) (d : Time) (m : AudioManager) : AudioManager :=
  let loaded f :=
    mkFile (name f) (url f) d (Some (mkAudio zero false)) true
      (isPlaying f) (currentTime f) in
  with_files (alter loaded i (audioFiles m)) m.

(** First occurrence of [i] removed. *)
Fixpoint remove_first (i : nat) (l : list nat) : list nat :=
  match l with
  | [] => []
  | j :: l' => if Nat.eqb i j then l' else j :: remove_first i l'
  end.

(** A suspended call goes on: for a file with a url when its metadata
    have arrived (the listener runs, then the call), for a file without
    one as soon as the caller has returned. *)
Definition resume (i : nat) (d : Time) (m : AudioManager) : AudioManager :=
  let m := with_suspended (remove_first i (suspended m)) m in
  match audioFiles m !! i with
  | None => m
  | Some f =>
      if truthy (url f) then start i (loadedmetadata i d m) else start i m
  end.

(** The [error] listener of that [Audio]: the promise is rejected, and
    with it the suspended call. *)
Definition load_error (i : nat) (m : AudioManager) : AudioManager :=
  mkManager (audioFiles m) (currentPlayingAudio m)
    (remove_first i (suspended m)) (console m ++ [ErrLoadingAudio]).

(** The [ended] listener that [playAudio] attaches. *)
Definition ended (i : nat) (m : AudioManager) : AudioManager :=
  match audioFiles m !! i with
  | None => m
  | Some f =>
      match audioElement f with
      | Some el =>
          if listening el
          then with_current None (with_files (alter (set_isPlaying false) i (audioFiles m)) m)
          else m
      | None => m
      end
  end.

(** The [timeupdate] listener: the element has moved on to [time]. *)
Definition timeupdate (i : nat) (time : Time) (m : AudioManager) : AudioManager :=
  match audioFiles m !! i with
  | None => m
  | Some f =>
      match audioElement f with
      | Some el =>
          if listening el
          then with_files (alter (set_time time) i (audioFiles m)) m
          else m
      | None => m
      end
  end.

(** What a played call leaves behind. *)
Definition after (p : Played) : AudioManager :=
  match p with Started m | Awaiting m => m end.

End Playback.

Arguments Audio : clear implicits.
Arguments File : clear implicits.
Arguments AudioManager : clear implicits.
Arguments Played : clear implicits.

End Playback.

(** ** js/AudioPlayerUI.js: [AudioManager.loadAudioDataset] *)

Module Dataset.

(** [s.endsWith(suffix)] *)
Fixpoint endsWith (s suffix : string) : bool :=
  String.eqb s suffix ||
  match s with
  | EmptyString => false
  | String _ s' => endsWith s' suffix
  end.

(** What follows the last ["/"] of [s], if [s] has one. *)
Fixpoint after_last_slash (s : string) : option string :=
  match s with
  | EmptyString => None
  | String c s' =>
      match after_last_slash s' with
      | Some r => Some r
      | None => if Ascii.eqb c "/" then Some s' else None
      end
  end.

(** [s.split('/').pop()] *)
Definition last_segment (s : string) : string :=
  default s (after_last_slash s).

Section Dataset.
Context {Analysis : Type}.

(** An entry of a tree listing of the dataset API, as far as it is read:
    its [type], its [path], which every entry has, and its [size] ([None]
    when the entry has none). *)
Record Item := mkItem {
  type : string;
  path : string;
  size : option Z
}.

(** What a [fetch] of a listing comes to: the request or the reading of
    its body fails (or the body is no array, on which [filter] and [find]
    throw), or there is a response with its [ok] flag and its body. *)
Inductive Response :=
  | Rejected
  | Answered (ok : bool) (body : list Item).

(** The network, by url. *)
Context (fetch : string → Response).

Definition tree_url : string :=
  "https://huggingface.co/api/datasets/joeljaffesd/jamlog/tree/main".

Definition resolve_url : string :=
  "https://huggingface.co/datasets/joeljaffesd/jamlog/resolve/main/".

(** The filter for audio files, the same in both places. *)
Definition isAudioFile (file : Item) : bool :=
  String.eqb (type file) "file" &&
  (negb (String.eqb (path file) "") &&
   (endsWith (path file) ".mp3" || endsWith (path file) ".wav" ||
    endsWith (path file) ".ogg" || endsWith (path file) ".m4a" ||
    endsWith (path file) ".flac")).

Definition isAudioSubdir (item : Item) : bool :=
  String.eqb (type item) "directory" && endsWith (path item) "/audio".

(** One turn of the loop over the subdirectories: the files it pushes.
    Whatever fails inside is caught there and the directory gives
    nothing. *)
Definition explore (dir : Item) : list Item :=
  match fetch (tree_url +:+ "/" +:+ path dir) with
  | Answered true dirData =>
      match List.find isAudioSubdir dirData with
      | Some audioSubdir =>
          match fetch (tree_url +:+ "/" +:+ path audioSubdir) with
          | Answered true audioData => List.filter isAudioFile audioData
          | _ => []
          end
      | None => List.filter isAudioFile dirData
      end
  | _ => []
  end.

(** [file.size || 'Unknown'] *)
Definition size_or_Unknown (s : option Z) : FileSize :=
  match s with
  | Some n => if Z.eqb n 0 then Unknown else Bytes n
  | None => Unknown
  end.

(** The object made for a listed file: the fields [AudioFile.t] keeps.
    (The others are [id], the place in the list, and the playback fields,
    which start out unloaded and silent.) *)
Definition toAudioFile (file : Item) : AudioFile.t Analysis :=
  AudioFile.mk (last_segment (path file)) (resolve_url +:+ path file)
    (path file) (size_or_Unknown (size file)) None.

(** What [loadAudioDataset] sets [this.audioFiles] to and returns: the
    files of the dataset, or the five built-in samples of
    [createDummyAudioData] when anything went wrong.  (Console output is
    left out.) *)
Inductive Loaded :=
  | FromDataset (files : list (AudioFile.t Analysis))
  | DummyData.

(** [loadAudioDataset()] *)
Definition loadAudioDataset : Loaded :=
  match fetch tree_url with
  | Answered true mainData =>
      let subdirectories :=
        List.filter (λ item, String.eqb (type item) "directory") mainData in
      let allAudioFiles := flat_map explore subdirectories in
      match allAudioFiles with
      | [] => DummyData
      | _ => FromDataset (toAudioFile <$> allAudioFiles)
      end
  | _ => DummyData
  end.

End Dataset.

Arguments Loaded : clear implicits.

End Dataset.

(** * Properties *)

(** ** Dictionary objects *)

(** *** Doubles *)

(** Rounding moves a non-negative integer by at most one part in [2^53]. *)
Lemma round53_bounds n :
  0 ≤ n →
  n * (2 ^ 53 - 1) ≤ JS.round53 n * 2 ^ 53 ≤ n * (2 ^ 53 + 1).
Proof.
  intros Hn. unfold JS.round53. rewrite Z.abs_eq by done.
  destruct (Z.log2 n - 52 <=? 0) eqn:Hs; [lia|].
  apply Z.leb_gt in Hs.
  set (shift := Z.log2 n - 52) in *.
  assert (0 < n) as Hpos.
  { destruct (decide (n = 0)) as [->|]; [|lia]. cbn in shift. lia. }
  rewrite (Z.sgn_pos n) by done. rewrite Z.mul_1_l.
  destruct (Z.log2_spec n Hpos) as [Hlo Hhi].
  assert (Z.log2 n = shift - 1 + 53) as Hlog by lia.
  rewrite Hlog in Hlo. rewrite Z.pow_add_r in Hlo by lia.
  set (half := 2 ^ (shift - 1)) in *.
  assert (2 ^ shift = 2 * half) as Hpow.
  { unfold half. rewrite <- Z.pow_succ_r by lia. f_equal. lia. }
  assert (0 < half) as Hhalf by (apply Z.pow_pos_nonneg; lia).
  rewrite Hpow.
  pose proof (Z.div_mod n (2 * half) ltac:(lia)) as Hdm.
  pose proof (Z.mod_pos_bound n (2 * half) ltac:(lia)) as Hr.
  set (q := n / (2 * half)) in *. set (r := n mod (2 * half)) in *.
  destruct ((half <? r) || ((r =? half) && Z.odd q)) eqn:Hup.
  - assert (half ≤ r) as Hge.
    { apply orb_true_iff in Hup as [H|H]; [apply Z.ltb_lt in H; lia|].
      apply andb_true_iff in H as [H _]. apply Z.eqb_eq in H. lia. }
    nia.
  - assert (r ≤ half) as Hle.
    { apply orb_false_iff in Hup as [H _]. apply Z.ltb_ge in H. lia. }
    nia.
Qed.

Lemma round53_nonpos n : n ≤ 0 → JS.round53 n ≤ 0.
Proof.
  intros Hn. unfold JS.round53.
  destruct (Z.log2 (Z.abs n) - 52 <=? 0) eqn:Hs; [done|].
  apply Z.leb_gt in Hs.
  destruct (decide (n = 0)) as [->|Hne]; [done|].
  rewrite Z.sgn_neg by lia.
  set (p := 2 ^ (Z.log2 (Z.abs n) - 52)).
  assert (0 < p) as Hp by (apply Z.pow_pos_nonneg; lia).
  assert (0 ≤ Z.abs n / p) as Hq by (apply Z.div_pos; lia).
  destruct (_ || _); nia.
Qed.

Lemma Math_floor_times_0_7_le n : 0 ≤ n → JS.Math_floor_times_0_7 n ≤ n.
Proof.
  intros Hn. unfold JS.Math_floor_times_0_7.
  destruct (round53_bounds (n * 6305039478318694)) as [_ Hup]; [lia|].
  apply Z.div_le_upper_bound; [done|]. lia.
Qed.

Lemma Math_floor_times_0_7_pos n : 0 < JS.Math_floor_times_0_7 n → 0 < n.
Proof.
  intros H. destruct (decide (0 < n)) as [|Hn]; [done|]. exfalso.
  unfold JS.Math_floor_times_0_7 in H.
  pose proof (round53_nonpos (n * 6305039478318694) ltac:(lia)) as Hr.
  assert (JS.round53 (n * 6305039478318694) / 2 ^ 53 ≤ 0); [|lia].
  apply Z.div_le_upper_bound; [done|]. lia.
Qed.

(** Against the exact product [7 n / 10]: the same floor, or one less. *)
Lemma Math_floor_times_0_7_exact n :
  0 ≤ n ≤ 2 ^ 51 →
  n * 7 / 10 - 1 ≤ JS.Math_floor_times_0_7 n ≤ n * 7 / 10.
Proof.
  intros Hn. unfold JS.Math_floor_times_0_7.
  destruct (round53_bounds (n * 6305039478318694)) as [Hlo Hup]; [lia|].
  set (R := JS.round53 _) in *.
  split.
  - apply Z.div_le_lower_bound; [done|].
    pose proof (Z.mul_div_le (n * 7) 10 ltac:(lia)). lia.
  - assert (R / 2 ^ 53 < n * 7 / 10 + 1); [|lia].
    apply Z.div_lt_upper_bound; [done|].
    pose proof (Z.mod_pos_bound (n * 7) 10 ltac:(lia)).
    pose proof (Z.div_mod (n * 7) 10 ltac:(lia)). lia.
Qed.

Section ObjectFacts.
Context {V : Type}.
Implicit Types (o : JS.obj V) (k : string) (v : V).

Lemma get_set_eq k v o : JS.get k (JS.set k v o) = Some v.
Proof.
  induction o as [|[k' v'] o IH]; simpl.
  - by rewrite String.eqb_refl.
  - destruct (String.eqb_spec k' k) as [->|Hne]; simpl.
    + by rewrite String.eqb_refl.
    + by destruct (String.eqb_spec k' k).
Qed.

Lemma get_set_ne k k' v o : k' ≠ k → JS.get k' (JS.set k v o) = JS.get k' o.
Proof.
  intros Hne. induction o as [|[k0 v0] o IH]; simpl.
  - by destruct (String.eqb_spec k k') as [->|].
  - destruct (String.eqb_spec k0 k) as [->|Hk]; simpl.
    + by destruct (String.eqb_spec k k') as [->|].
    + by rewrite IH.
Qed.

Lemma get_None_keys k o : JS.get k o = None ↔ k ∉ JS.keys o.
Proof.
  unfold JS.keys. induction o as [|[k' v'] o IH]; simpl.
  - split; [intros _; apply not_elem_of_nil | done].
  - rewrite not_elem_of_cons. destruct (String.eqb_spec k' k) as [->|Hk].
    + split; [done | intros [? _]; done].
    + rewrite IH. split; [intros ?; split; [congruence | done] | intros [_ ?]; done].
Qed.

Lemma get_Some_elem k v o : JS.get k o = Some v → (k, v) ∈ o.
Proof.
  induction o as [|[k' v'] o IH]; simpl; [done|].
  destruct (String.eqb_spec k' k) as [->|Hk].
  - intros [= ->]. apply list_elem_of_here.
  - intros. apply list_elem_of_further. auto.
Qed.

Lemma get_Some_keys k v o : JS.get k o = Some v → k ∈ JS.keys o.
Proof.
  intros H. apply get_Some_elem in H. unfold JS.keys.
  by apply (list_elem_of_fmap_2 fst) in H.
Qed.

Lemma elem_get_NoDup k v o : NoDup (JS.keys o) → (k, v) ∈ o → JS.get k o = Some v.
Proof.
  unfold JS.keys. induction o as [|[k' v'] o IH]; simpl.
  - intros _ H. by apply elem_of_nil in H.
  - rewrite NoDup_cons. intros [Hk Hnd] Hin.
    apply elem_of_cons in Hin as [[= -> ->]|Hin].
    + by rewrite String.eqb_refl.
    + destruct (String.eqb_spec k' k) as [->|Hne]; [|auto].
      destruct Hk. by apply (list_elem_of_fmap_2 fst) in Hin.
Qed.

Lemma set_None k v o : JS.get k o = None → JS.set k v o = o ++ [(k, v)].
Proof.
  induction o as [|[k' v'] o IH]; simpl; [done|].
  destruct (String.eqb_spec k' k); [done|]. intros H. by rewrite IH.
Qed.

Lemma keys_set_Some k v v0 o :
  JS.get k o = Some v0 → JS.keys (JS.set k v o) = JS.keys o.
Proof.
  unfold JS.keys. induction o as [|[k' v'] o IH]; simpl; [done|].
  destruct (String.eqb_spec k' k); [done|]. intros H. rewrite !fmap_cons.
  f_equal. auto.
Qed.

Lemma length_set_Some k v v0 o :
  JS.get k o = Some v0 → length (JS.set k v o) = length o.
Proof.
  intros H. apply (keys_set_Some k v) in H. unfold JS.keys in H.
  rewrite <-(length_fmap fst (JS.set k v o)), <-(length_fmap fst o). by rewrite H.
Qed.

Lemma NoDup_keys_set k v o : NoDup (JS.keys o) → NoDup (JS.keys (JS.set k v o)).
Proof.
  intros Hnd. destruct (JS.get k o) as [v0|] eqn:Hget.
  - by rewrite (keys_set_Some _ _ _ _ Hget).
  - rewrite set_None by done. unfold JS.keys in *. rewrite fmap_app. simpl.
    apply NoDup_app. split; [done|]. split.
    + intros x Hx Hx'. apply list_elem_of_singleton in Hx' as ->.
      by apply get_None_keys in Hget.
    + apply NoDup_singleton.
Qed.

Lemma fromEntries_app (acc l : JS.obj V) :
  NoDup (JS.keys (acc ++ l)) →
  fold_left (λ o kv, JS.set kv.1 kv.2 o) l acc = acc ++ l.
Proof.
  revert acc. induction l as [|[k v] l IH]; intros acc Hnd; simpl.
  - by rewrite app_nil_r.
  - rewrite set_None.
    + rewrite IH; rewrite <-app_assoc; done.
    + apply get_None_keys. unfold JS.keys in *. rewrite fmap_app in Hnd.
      apply NoDup_app in Hnd as (_ & Hdisj & _). intros Hin.
      apply (Hdisj _ Hin). simpl. apply list_elem_of_here.
Qed.

Lemma fromEntries_NoDup (l : JS.obj V) : NoDup (JS.keys l) → JS.fromEntries l = l.
Proof. intros. unfold JS.fromEntries. by rewrite fromEntries_app. Qed.

End ObjectFacts.

(** ** Arrays: stable sort and slice *)

(** The order [sort key] establishes. *)
Definition by_key {A : Type} (key : A → Z) : relation A := λ a b, key a ≤ key b.

Section ArrayFacts.
Context {A : Type} (key : A → Z).
Implicit Types (x : A) (l : list A).

Lemma sort_insert_Permutation x l : JS.sort_insert key x l ≡ₚ x :: l.
Proof.
  induction l as [|y l IH]; simpl; [done|].
  destruct (key y <? key x); [|done].
  rewrite IH. apply Permutation_swap.
Qed.

Lemma sort_Permutation l : JS.sort key l ≡ₚ l.
Proof.
  induction l as [|x l IH]; simpl; [done|].
  by rewrite sort_insert_Permutation, IH.
Qed.

Lemma length_sort l : length (JS.sort key l) = length l.
Proof. apply Permutation_length, sort_Permutation. Qed.

Lemma sort_insert_HdRel a x l :
  by_key key a x → HdRel (by_key key) a l → HdRel (by_key key) a (JS.sort_insert key x l).
Proof.
  intros Hax Hal. destruct l as [|y l]; simpl; [by constructor|].
  inversion_clear Hal. destruct (key y <? key x); by constructor.
Qed.

Lemma sort_insert_Sorted x l :
  Sorted (by_key key) l → Sorted (by_key key) (JS.sort_insert key x l).
Proof.
  induction 1 as [|y l Hs IH Hhd]; simpl.
  - by repeat constructor.
  - destruct (key y <? key x) eqn:Hlt.
    + constructor; [done|]. apply sort_insert_HdRel; [|done].
      unfold by_key. lia.
    + constructor; [by constructor|]. constructor. unfold by_key. lia.
Qed.

Lemma sort_Sorted l : Sorted (by_key key) (JS.sort key l).
Proof. induction l; simpl; [constructor | by apply sort_insert_Sorted]. Qed.

#[local] Instance by_key_trans : Transitive (by_key key).
Proof. unfold by_key. intros ???. lia. Qed.

Lemma sort_StronglySorted l : StronglySorted (by_key key) (JS.sort key l).
Proof. apply Sorted_StronglySorted; [apply _ | apply sort_Sorted]. Qed.

(** A list that is already in order is left as it is. *)
Lemma sort_sorted_id l : Sorted (by_key key) l → JS.sort key l = l.
Proof.
  induction 1 as [|x l Hs IH Hhd]; simpl; [done|].
  rewrite IH. destruct Hhd as [|y l' Hxy]; simpl; [done|].
  unfold by_key in Hxy. destruct (key y <? key x) eqn:Hlt; [lia | done].
Qed.

(** [slice(-k)] keeps the last [k] elements, when [k] is positive. *)
Lemma slice_last_k (k : Z) l :
  0 < k → JS.slice (- k) l = drop (length l - Z.to_nat k) l.
Proof.
  intros Hk. unfold JS.slice.
  destruct (- k <? 0) eqn:Hneg; [|lia]. f_equal. lia.
Qed.

(** [slice(-0)] keeps everything. *)
Lemma slice_zero l : JS.slice (- 0) l = l.
Proof. unfold JS.slice. simpl. by rewrite Z.min_l by lia. Qed.

Lemma length_slice_last_k (k : Z) l :
  0 < k → length (JS.slice (- k) l) = (Z.to_nat k `min` length l)%nat.
Proof. intros. rewrite slice_last_k, length_drop by done. lia. Qed.

(** What [slice(-k)] of the sorted array drops is no newer than what it
    keeps. *)
Lemma sorted_drop_newest (n : nat) l x y :
  x ∈ take n (JS.sort key l) → y ∈ drop n (JS.sort key l) → key x ≤ key y.
Proof.
  intros Hx Hy. pose proof (sort_StronglySorted l) as Hs.
  rewrite <-(take_drop n (JS.sort key l)) in Hs.
  apply StronglySorted_app in Hs as (H & _ & _). by apply H.
Qed.

End ArrayFacts.

(** ** The cache *)

Section CacheFacts.
Context {Analysis : Type} `{!JSONValue Analysis}.
Import Cache.
Implicit Types (w : World Analysis) (m : CacheManager Analysis).
Implicit Types (f : AudioFile.t Analysis) (e : CacheEntry.t Analysis).

(** The entries of a manager, and the manager after [pruneCache]. *)
Definition entries m : JS.obj (CacheEntry.t Analysis) := data (cache m).

Definition pruned m : CacheManager Analysis :=
  mkManager (storageKey m)
    (mkStore (version (cache m))
       (JS.fromEntries
          (JS.slice (- keepCount (maxCacheSize m))
             (JS.sort (λ kv, CacheEntry.lastAccessed kv.2) (entries m)))))
    (maxCacheSize m) (cacheVersion m).

(** The representation invariant of a dictionary: no key twice. *)
Definition wf m : Prop := NoDup (JS.keys (entries m)).

Lemma pruneCache_this w : this (pruneCache w) = pruned (this w).
Proof. done. Qed.

Lemma pruneCache_storage w : localStorage (pruneCache w) = localStorage w.
Proof. done. Qed.

Lemma pruned_maxCacheSize m : maxCacheSize (pruned m) = maxCacheSize m.
Proof. done. Qed.

(** What [saveCache] may do to the manager: nothing, one eviction (size
    over the limit, or quota exceeded), or two (both). *)
Lemma saveCache_this w :
  this (saveCache w) = this w ∨
  this (saveCache w) = pruned (this w) ∨
  this (saveCache w) = pruned (pruned (this w)).
Proof.
  unfold saveCache.
  destruct (JS.Blob_size _ >? SIZE_LIMIT);
    (destruct (setItem _ _) as [[]|ls]; simpl;
     [destruct (setItem _ _) as [[]|ls']; simpl | |]); auto.
Qed.

(** [saveCache] evicts only after saying so on the console. *)
Lemma saveCache_quiet w :
  WarnSizeLimit ∉ console (saveCache w) →
  ErrQuotaExceeded ∉ console (saveCache w) →
  this (saveCache w) = this w.
Proof.
  unfold saveCache.
  destruct (JS.Blob_size _ >? SIZE_LIMIT);
    (destruct (setItem _ _) as [[]|ls]; simpl;
     [destruct (setItem _ _) as [[]|ls']; simpl | |]);
    rewrite ?elem_of_app, ?list_elem_of_singleton; intros H1 H2; try done;
    exfalso; first [apply H1; by auto 10 | apply H2; by auto 10].
Qed.

Lemma saveCache_console w : console w `prefix_of` console (saveCache w).
Proof.
  unfold saveCache.
  destruct (JS.Blob_size _ >? SIZE_LIMIT);
    (destruct (setItem _ _) as [[]|ls]; simpl;
     [destruct (setItem _ _) as [[]|ls']; simpl | |]);
    rewrite <-?app_assoc; by apply prefix_app_r.
Qed.


(** *** Eviction keeps the newest entries *)

Lemma entries_pruned m :
  wf m →
  entries (pruned m) =
    JS.slice (- keepCount (maxCacheSize m))
      (JS.sort (λ kv, CacheEntry.lastAccessed kv.2) (entries m)).
Proof.
  intros Hwf. unfold pruned, entries at 1. simpl.
  apply fromEntries_NoDup. unfold JS.slice.
  set (s := JS.sort _ _). set (n := Z.to_nat _).
  assert (NoDup (JS.keys s)) as Hs.
  { unfold JS.keys, s. by rewrite sort_Permutation. }
  unfold JS.keys in *. rewrite <-(take_drop n s), fmap_app in Hs.
  by apply NoDup_app in Hs as (_ & _ & ?).
Qed.

Lemma elem_of_pruned m x : wf m → x ∈ entries (pruned m) → x ∈ entries m.
Proof.
  intros Hwf. rewrite entries_pruned by done. unfold JS.slice.
  intros H%subseteq_drop. by rewrite sort_Permutation in H.
Qed.

Lemma wf_pruned m : wf m → wf (pruned m).
Proof.
  intros Hwf. unfold wf. rewrite entries_pruned by done. unfold JS.slice.
  set (s := JS.sort _ _). set (n := Z.to_nat _).
  assert (NoDup (JS.keys s)) as Hs.
  { unfold JS.keys, s. by rewrite sort_Permutation. }
  unfold JS.keys in *. rewrite <-(take_drop n s), fmap_app in Hs.
  by apply NoDup_app in Hs as (_ & _ & ?).
Qed.

(** [k] holds [e], and every other entry was accessed strictly earlier. *)
Definition newest (k : string) e m : Prop :=
  JS.get k (entries m) = Some e ∧
  ∀ k' e', (k', e') ∈ entries m → k' ≠ k →
           CacheEntry.lastAccessed e' < CacheEntry.lastAccessed e.

Lemma pruned_newest k e m :
  wf m → 0 < keepCount (maxCacheSize m) → newest k e m → newest k e (pruned m).
Proof.
  intros Hwf HK [Hget Hold]. split.
  2:{ intros k' e' Hin. apply Hold. by apply elem_of_pruned. }
  apply elem_get_NoDup; [by apply wf_pruned|].
  rewrite entries_pruned, slice_last_k by done.
  set (key := λ kv : string * CacheEntry.t Analysis, CacheEntry.lastAccessed kv.2).
  set (s := JS.sort key (entries m)). set (n := (length s - Z.to_nat _)%nat).
  assert ((k, e) ∈ s) as Hin.
  { unfold s. rewrite sort_Permutation. by apply get_Some_elem. }
  rewrite <-(take_drop n s) in Hin. apply elem_of_app in Hin as [Htake|]; [|done].
  destruct (drop n s) as [|[k' e'] rest] eqn:Hdrop.
  { apply (f_equal length) in Hdrop. rewrite length_drop in Hdrop. simpl in Hdrop.
    apply list_elem_of_In, In_nth_error in Htake as [i Hi].
    assert (i < length (take n s))%nat as Hlt
      by (apply nth_error_Some; congruence).
    rewrite length_take in Hlt. lia. }
  assert ((k', e') ∈ drop n s) as Hy by (rewrite Hdrop; apply list_elem_of_here).
  pose proof (sorted_drop_newest key n (entries m) _ _ Htake Hy) as Hle.
  assert ((k', e') ∈ entries m) as Hy'.
  { apply subseteq_drop in Hy. unfold s in Hy. by rewrite sort_Permutation in Hy. }
  destruct (decide (k' = k)) as [->|Hne].
  - apply (elem_get_NoDup _ _ _ Hwf) in Hy'. rewrite Hget in Hy'.
    injection Hy' as ->. apply list_elem_of_here.
  - specialize (Hold k' e' Hy' Hne). unfold key in Hle. simpl in Hle. lia.
Qed.

(** The manager once [data[key]] has been assigned. *)
Definition inserted f (a : option Analysis) (t1 t2 : Z) m : CacheManager Analysis :=
  mkManager (storageKey m)
    (mkStore (version (cache m))
       (JS.set (generateFileKey f) (newEntry f a t1 t2) (entries m)))
    (maxCacheSize m) (cacheVersion m).

Lemma wf_inserted f a t1 t2 m : wf m → wf (inserted f a t1 t2 m).
Proof. apply NoDup_keys_set. Qed.

Lemma elem_of_set_ne {V} (k k' : string) (v v' : V) (o : JS.obj V) :
  k' ≠ k → (k', v') ∈ JS.set k v o → (k', v') ∈ o.
Proof.
  intros Hne. induction o as [|[k0 v0] o IH]; simpl.
  - intros H. apply list_elem_of_singleton in H. congruence.
  - destruct (String.eqb_spec k0 k) as [->|Hk].
    + intros [[= ? ?]|H]%elem_of_cons; [done | by right].
    + intros [->|H]%elem_of_cons; [by left | right; auto].
Qed.

Lemma inserted_newest f a t1 t2 m :
  (∀ k e, (k, e) ∈ entries m → k ≠ generateFileKey f → CacheEntry.lastAccessed e < t2) →
  newest (generateFileKey f) (newEntry f a t1 t2) (inserted f a t1 t2 m).
Proof.
  intros Hold. split; [apply get_set_eq|].
  intros k' e' Hin Hne. simpl. apply (Hold k'); [|done].
  by apply elem_of_set_ne in Hin.
Qed.

(** The manager after [setCachedAnalysis]: the entry is written, the count
    is checked, the store is saved. *)
Definition counted m : CacheManager Analysis :=
  if Z.of_nat (length (JS.keys (entries m))) >? maxCacheSize m then pruned m else m.

Lemma this_log (x : Log) w : this (log x w) = this w.
Proof. done. Qed.

Lemma console_log (x : Log) w : console (log x w) = console w ++ [x].
Proof. done. Qed.

Lemma this_assign f a t1 t2 w :
  this (assign (generateFileKey f) (newEntry f a t1 t2) w) = inserted f a t1 t2 (this w).
Proof. done. Qed.

Lemma this_checkCount w : this (checkCount w) = counted (this w).
Proof. unfold checkCount, counted, entries. by destruct (_ >? _). Qed.

Lemma localStorage_checkCount w : localStorage (checkCount w) = localStorage w.
Proof. unfold checkCount. by destruct (_ >? _). Qed.

Lemma console_checkCount w : console w `prefix_of` console (checkCount w).
Proof.
  unfold checkCount. destruct (_ >? _); [|done].
  unfold pruneCache. rewrite console_log. by apply prefix_app_r.
Qed.

Lemma setCachedAnalysis_this f a t1 t2 w :
  ∃ w1, this w1 = counted (inserted f a t1 t2 (this w)) ∧
        localStorage w1 = localStorage w ∧
        console w `prefix_of` console w1 ∧
        this (setCachedAnalysis f a t1 t2 w) = this (saveCache w1) ∧
        console (setCachedAnalysis f a t1 t2 w)
          = console (saveCache w1) ++ [LogCached (AudioFile.name f)].
Proof.
  exists (checkCount (assign (generateFileKey f) (newEntry f a t1 t2) w)).
  split_and!.
  - by rewrite this_checkCount, this_assign.
  - by rewrite localStorage_checkCount.
  - etrans; [|apply console_checkCount]. done.
  - unfold setCachedAnalysis. by rewrite this_log.
  - unfold setCachedAnalysis. by rewrite console_log.
Qed.

Lemma wf_saveCache w : wf (this w) → wf (this (saveCache w)).
Proof.
  intros. destruct (saveCache_this w) as [-> | [-> | ->]]; auto using wf_pruned.
Qed.

Lemma wf_counted m : wf m → wf (counted m).
Proof. unfold counted. destruct (_ >? _); auto using wf_pruned. Qed.

Lemma wf_setCachedAnalysis f a t1 t2 w :
  wf (this w) → wf (this (setCachedAnalysis f a t1 t2 w)).
Proof.
  intros Hwf. destruct (setCachedAnalysis_this f a t1 t2 w) as (w1 & H1 & _ & _ & -> & _).
  apply wf_saveCache. rewrite H1. by apply wf_counted, wf_inserted.
Qed.

Lemma newest_saveCache k e w :
  wf (this w) → 0 < keepCount (maxCacheSize (this w)) →
  newest k e (this w) → newest k e (this (saveCache w)).
Proof.
  intros Hwf HK Hn. destruct (saveCache_this w) as [-> | [-> | ->]];
    auto using pruned_newest, wf_pruned.
Qed.

Lemma newest_setCachedAnalysis f a t1 t2 w :
  wf (this w) → 0 < keepCount (maxCacheSize (this w)) →
  (∀ k e, (k, e) ∈ entries (this w) → k ≠ generateFileKey f → CacheEntry.lastAccessed e < t2) →
  newest (generateFileKey f) (newEntry f a t1 t2) (this (setCachedAnalysis f a t1 t2 w)).
Proof.
  intros Hwf HK Hold.
  destruct (setCachedAnalysis_this f a t1 t2 w) as (w1 & H1 & _ & _ & -> & _).
  pose proof (wf_inserted f a t1 t2 _ Hwf) as Hwfi.
  pose proof (inserted_newest f a t1 t2 _ Hold) as Hn.
  apply newest_saveCache; rewrite H1; unfold counted; destruct (_ >? _);
    auto using pruned_newest, wf_pruned.
Qed.

(** No eviction is due: the store with the new entry holds at most
    [maxCacheSize] entries, serialises within the size limit, and the
    write is not refused for quota. *)
Definition fits m (ls : LocalStorage Analysis) : Prop :=
  Z.of_nat (length (entries m)) ≤ maxCacheSize m ∧
  JS.Blob_size (JSON_text (cache m)) ≤ SIZE_LIMIT ∧
  (denied ls = true ∨ JS.Blob_size (JSON_text (cache m)) ≤ quota ls).

Lemma saveCache_fits w :
  JS.Blob_size (JSON_text (cache (this w))) ≤ SIZE_LIMIT →
  (denied (localStorage w) = true ∨
   JS.Blob_size (JSON_text (cache (this w))) ≤ quota (localStorage w)) →
  this (saveCache w) = this w.
Proof.
  intros Hsize Hquota. unfold saveCache, setItem.
  change (text (JSON_stringify (cache (this w)))) with (JSON_text (cache (this w))).
  destruct (_ >? SIZE_LIMIT) eqn:Hgt; [lia|].
  destruct (denied (localStorage w)); [done|].
  destruct Hquota as [|Hq]; [done|].
  destruct (_ >? quota _) eqn:Hgt'; [lia | done].
Qed.

Lemma setCachedAnalysis_fits f a t1 t2 w :
  fits (inserted f a t1 t2 (this w)) (localStorage w) →
  this (setCachedAnalysis f a t1 t2 w) = inserted f a t1 t2 (this w).
Proof.
  intros (Hcount & Hsize & Hquota).
  destruct (setCachedAnalysis_this f a t1 t2 w) as (w1 & H1 & Hls & _ & -> & _).
  assert (this w1 = inserted f a t1 t2 (this w)) as Hw1.
  { rewrite H1. unfold counted, JS.keys. rewrite length_fmap.
    destruct (_ >? _) eqn:Hgt; [lia | done]. }
  rewrite saveCache_fits; rewrite ?Hw1, ?Hls; done.
Qed.

Lemma getCachedAnalysis_hit f now w e :
  JS.get (generateFileKey f) (entries (this w)) = Some e →
  (getCachedAnalysis f now w).1 = CacheEntry.analysis e.
Proof. intros H. unfold getCachedAnalysis. unfold entries in H. by rewrite H. Qed.

Lemma generateFileKey_ext f f' :
  AudioFile.path f' = AudioFile.path f → AudioFile.size f' = AudioFile.size f →
  generateFileKey f' = generateFileKey f.
Proof. unfold generateFileKey. by intros -> ->. Qed.

Lemma wf_getCachedAnalysis f now w :
  wf (this w) → wf (this (getCachedAnalysis f now w).2).
Proof.
  intros Hwf. unfold getCachedAnalysis.
  destruct (JS.get _ _) eqn:Hget; simpl; [|done].
  unfold wf, entries. simpl. by apply NoDup_keys_set.
Qed.

(** One round of [set] then [get]. *)
Lemma set_get_round w f f' a t1 t2 t3 :
  wf (this w) →
  AudioFile.path f' = AudioFile.path f →
  AudioFile.size f' = AudioFile.size f →
  fits (inserted f (Some a) t1 t2 (this w)) (localStorage w) ∨
  (0 < keepCount (maxCacheSize (this w)) ∧
   ∀ k e, (k, e) ∈ entries (this w) → k ≠ generateFileKey f →
          CacheEntry.lastAccessed e < t2) →
  (getCachedAnalysis f' t3 (setCachedAnalysis f (Some a) t1 t2 w)).1 = Some a.
Proof.
  intros Hwf Hp Hs Hcond.
  rewrite (getCachedAnalysis_hit _ _ _ (newEntry f (Some a) t1 t2)); [done|].
  rewrite (generateFileKey_ext _ _ Hp Hs).
  destruct Hcond as [Hfits|[HK Hold]].
  - rewrite setCachedAnalysis_fits by done. apply get_set_eq.
  - by apply newest_setCachedAnalysis.
Qed.

End CacheFacts.

(** *** A run of [set] calls *)

Section EvictionFacts.
Context {Analysis : Type} `{!JSONValue Analysis}.
Import Cache.
Implicit Types (w : World Analysis) (m : CacheManager Analysis).
Implicit Types (c : Call Analysis) (calls : list (Call Analysis)).

(** Neither of the two evictions of [saveCache] was announced. *)
Definition quiet w : Prop :=
  (WarnSizeLimit ∉ console w) ∧ (ErrQuotaExceeded ∉ console w).

(** The same, as a test on the console. *)
Definition announces_eviction (x : Log) : bool :=
  match x with
  | WarnSizeLimit | ErrQuotaExceeded => true
  | _ => false
  end.

Lemma quiet_check w :
  forallb (λ x, negb (announces_eviction x)) (console w) = true → quiet w.
Proof.
  intros H. split; intros Hin; apply list_elem_of_In in Hin;
    by apply (proj1 (forallb_forall _ _) H) in Hin.
Qed.

Lemma quiet_prefix w w' : console w `prefix_of` console w' → quiet w' → quiet w.
Proof.
  intros [k Hk] [H1 H2]. rewrite Hk in H1, H2.
  split; intros ?; [apply H1 | apply H2]; apply elem_of_app; by left.
Qed.

Lemma setCachedAnalysis_console f a t1 t2 w :
  console w `prefix_of` console (setCachedAnalysis f a t1 t2 w).
Proof.
  destruct (setCachedAnalysis_this f a t1 t2 w) as (w1 & _ & _ & Hpre & _ & ->).
  etrans; [done|]. etrans; [apply saveCache_console|]. by apply prefix_app_r.
Qed.

Lemma setAll_snoc calls c w :
  setAll (calls ++ [c]) w =
  setCachedAnalysis (file c) (value c) (at1 c) (at2 c) (setAll calls w).
Proof. unfold setAll. by rewrite fold_left_app. Qed.

Lemma setCachedAnalysis_quiet f a t1 t2 w :
  quiet (setCachedAnalysis f a t1 t2 w) →
  this (setCachedAnalysis f a t1 t2 w) = counted (inserted f a t1 t2 (this w)).
Proof.
  destruct (setCachedAnalysis_this f a t1 t2 w) as (w1 & H1 & _ & _ & Ht & Hc).
  unfold quiet. rewrite Hc, Ht, <-H1. intros [Hw Hq].
  apply saveCache_quiet; intros ?; [apply Hw | apply Hq]; apply elem_of_app; by left.
Qed.

(** While the count stays within [maxCacheSize] and [saveCache] stays
    quiet, each call with a new key appends its entry. *)
Lemma setAll_below calls w :
  NoDup (JS.keys (entries (this w)) ++ JS.keys (written <$> calls)) →
  Z.of_nat (length (entries (this w)) + length calls) ≤ maxCacheSize (this w) →
  quiet (setAll calls w) →
  entries (this (setAll calls w)) = entries (this w) ++ (written <$> calls) ∧
  maxCacheSize (this (setAll calls w)) = maxCacheSize (this w).
Proof.
  induction calls as [|c calls IH] using rev_ind; intros Hnd Hlen Hq.
  { simpl. by rewrite app_nil_r. }
  rewrite setAll_snoc in *. rewrite length_app in Hlen. simpl in Hlen.
  unfold JS.keys in Hnd. rewrite !fmap_app, app_assoc in Hnd. simpl in Hnd.
  apply NoDup_app in Hnd as (Hnd & Hfresh & _).
  destruct IH as [IHe IHm]; [done | lia | |].
  { eapply quiet_prefix; [apply setCachedAnalysis_console | done]. }
  rewrite setCachedAnalysis_quiet by done.
  set (m1 := this (setAll calls w)) in *.
  assert (entries (inserted (file c) (value c) (at1 c) (at2 c) m1)
          = entries m1 ++ [written c]) as Hins.
  { unfold inserted, entries at 1. simpl. apply set_None, get_None_keys.
    unfold JS.keys. rewrite IHe, fmap_app. intros Hin.
    apply (Hfresh _ Hin). simpl. apply list_elem_of_here. }
  unfold counted. rewrite Hins. unfold JS.keys.
  rewrite length_fmap, length_app, IHe, length_app, length_fmap. simpl.
  change (maxCacheSize (inserted _ _ _ _ m1)) with (maxCacheSize m1). rewrite IHm.
  destruct (_ >? _) eqn:Hgt.
  { apply Z.gtb_lt in Hgt. clear -Hlen Hgt. lia. }
  rewrite Hins, IHe, fmap_app, <-app_assoc. done.
Qed.


(** C2 (as amended).  Starting from an empty store, [maxCacheSize + 1]
    calls of [setCachedAnalysis] with pairwise distinct keys, during which
    [saveCache] never announces an eviction of its own (no size warning,
    no quota error), leave exactly [Math.floor(maxCacheSize * 0.7)]
    entries (this number being positive): the last ones of all written
    entries sorted by [lastAccessed], so that no dropped entry is newer
    than a retained one.  The product is one of doubles: the count is
    [floor(7 * maxCacheSize / 10)] or one less (for [maxCacheSize] up to
    [2^51]), hence never above the bound of the specification; it is 350
    for the constructor's 500 and 62 for 90. *)
Theorem eviction_keeps_newest w calls :
  entries (this w) = [] →
  0 < keepCount (maxCacheSize (this w)) →
  Z.of_nat (length calls) = maxCacheSize (this w) + 1 →
  NoDup (JS.keys (written <$> calls)) →
  quiet (setAll calls w) →
  let sorted := JS.sort (λ kv, CacheEntry.lastAccessed kv.2) (written <$> calls) in
  let dropped := Z.to_nat (maxCacheSize (this w) + 1 - keepCount (maxCacheSize (this w))) in
  let retained := entries (this (setAll calls w)) in
  retained = drop dropped sorted ∧
  Z.of_nat (length retained) = keepCount (maxCacheSize (this w)) ∧
  written <$> calls ≡ₚ take dropped sorted ++ retained ∧
  (∀ x y, x ∈ take dropped sorted → y ∈ retained →
          CacheEntry.lastAccessed x.2 ≤ CacheEntry.lastAccessed y.2) ∧
  (maxCacheSize (this w) ≤ 2 ^ 51 →
     maxCacheSize (this w) * 7 / 10 - 1 ≤ Z.of_nat (length retained)
     ≤ maxCacheSize (this w) * 7 / 10) ∧
  (maxCacheSize (this w) = 500 → length retained = 350%nat) ∧
  (maxCacheSize (this w) = 90 → length retained = 62%nat).
Proof.
  intros Hempty HK Hlen Hnd Hq sorted dropped retained.
  assert (0 ≤ maxCacheSize (this w)) as HM.
  { apply Math_floor_times_0_7_pos in HK. lia. }
  pose proof (Math_floor_times_0_7_le _ HM) as HKM. fold (keepCount (maxCacheSize (this w))) in HKM.
  assert (Z.to_nat (keepCount (maxCacheSize (this w))) + dropped = length calls)%nat
    as Hsplit.
  { unfold dropped. clear -Hlen HK HM HKM. lia. }
  assert (retained = drop dropped sorted) as Hret.
  { subst retained sorted.
    destruct calls as [|c calls _] using rev_ind.
    { simpl in Hlen. lia. }
    rewrite length_app in Hlen, Hsplit. simpl in Hlen, Hsplit.
    rewrite setAll_snoc in *.
    unfold JS.keys in Hnd. rewrite !fmap_app in Hnd.
    apply NoDup_app in Hnd as (Hnd & Hfresh & _).
    destruct (setAll_below calls w) as [He Hm].
    { rewrite Hempty. done. }
    { rewrite Hempty. simpl. lia. }
    { eapply quiet_prefix; [apply setCachedAnalysis_console | done]. }
    rewrite Hempty in He. simpl in He.
    rewrite setCachedAnalysis_quiet by done.
    set (m1 := this (setAll calls w)) in *.
    set (mi := inserted (file c) (value c) (at1 c) (at2 c) m1).
    assert (entries mi = (written <$> calls) ++ [written c]) as Hins.
    { unfold mi, inserted, entries at 1. simpl.
      fold (entries m1). rewrite He. apply set_None, get_None_keys.
      intros Hin. apply (Hfresh _ Hin). simpl. apply list_elem_of_here. }
    assert (wf mi) as Hwf.
    { unfold wf, JS.keys. rewrite Hins, fmap_app. apply NoDup_app.
      split_and!; [done | done | apply NoDup_singleton]. }
    assert (counted mi = pruned mi) as ->.
    { unfold counted, JS.keys. rewrite length_fmap, Hins, length_app, length_fmap.
      change (maxCacheSize mi) with (maxCacheSize m1). rewrite Hm. simpl.
      destruct (_ >? _) eqn:Hgt; [done|].
      rewrite Z.gtb_ltb in Hgt. apply Z.ltb_ge in Hgt. clear -Hlen Hgt. lia. }
    rewrite entries_pruned by done.
    change (maxCacheSize mi) with (maxCacheSize m1).
    rewrite Hm, slice_last_k, Hins, fmap_app by done. f_equal.
    rewrite length_sort, length_app, length_fmap. simpl.
    clear -Hsplit. lia. }
  assert (length sorted = length calls) as Hls.
  { unfold sorted. by rewrite length_sort, length_fmap. }
  assert (Z.of_nat (length retained) = keepCount (maxCacheSize (this w))) as Hcount.
  { rewrite Hret, length_drop, Hls. clear -Hsplit HK. lia. }
  split_and!.
  - done.
  - done.
  - rewrite Hret, take_drop. unfold sorted. by rewrite sort_Permutation.
  - intros x y Hx Hy. rewrite Hret in Hy.
    apply (sorted_drop_newest (λ kv : string * CacheEntry.t Analysis,
             CacheEntry.lastAccessed kv.2) dropped _ x y Hx Hy).
  - intros Hmax. rewrite Hcount. apply Math_floor_times_0_7_exact. lia.
  - intros H500. apply Nat2Z.inj. rewrite Hcount, H500. reflexivity.
  - intros H90. apply Nat2Z.inj. rewrite Hcount, H90. reflexivity.
Qed.

End EvictionFacts.

(** *** The cache key *)

Lemma Number_toString_inj a b : JS.Number_toString a = JS.Number_toString b → a = b.
Proof.
  assert (∀ z, Z.to_int z ≠ Decimal.Pos Decimal.Nil ∧ Z.to_int z ≠ Decimal.Neg Decimal.Nil)
    as Hnn.
  { intros [|p|p]; simpl; split; try discriminate;
      intros [= H]; by apply Unsigned.to_uint_nonnil in H. }
  unfold JS.Number_toString. intros H.
  apply (f_equal NilZero.int_of_string) in H.
  rewrite !NilZero.isi in H by apply Hnn.
  injection H as H. apply (f_equal Z.of_int) in H. by rewrite !DecimalZ.of_to in H.
Qed.

Lemma Number_toString_not_Unknown a : JS.Number_toString a ≠ "Unknown".
Proof.
  assert (∀ z, Z.to_int z ≠ Decimal.Pos Decimal.Nil ∧ Z.to_int z ≠ Decimal.Neg Decimal.Nil)
    as Hnn.
  { intros [|p|p]; simpl; split; try discriminate;
      intros [= H]; by apply Unsigned.to_uint_nonnil in H. }
  unfold JS.Number_toString. intros H.
  apply (f_equal NilZero.int_of_string) in H.
  rewrite NilZero.isi in H by apply Hnn. discriminate H.
Qed.

Lemma size_to_string_inj s1 s2 : size_to_string s1 = size_to_string s2 → s1 = s2.
Proof.
  destruct s1 as [a|], s2 as [b|]; simpl; intros H.
  - f_equal. by apply Number_toString_inj.
  - by apply Number_toString_not_Unknown in H.
  - symmetry in H. by apply Number_toString_not_Unknown in H.
  - done.
Qed.

Section KeyFacts.
Context {Analysis : Type}.
Implicit Types (f g : AudioFile.t Analysis).

(** C9.  [generateFileKey] is the function
    [file ↦ "<path>_<size>"]: the key is that text, it depends on nothing
    but the path and the size, two files that share a path and differ in
    size get different keys, and the keys of [{path:"x/y.mp3", size:1000}]
    and [{path:"x/y.mp3", size:2000}] are ["x/y.mp3_1000"] and
    ["x/y.mp3_2000"]. *)
Theorem generateFileKey_path_size :
  (∀ f, Cache.generateFileKey f
        = AudioFile.path f +:+ "_" +:+ size_to_string (AudioFile.size f)) ∧
  (∀ f g, AudioFile.path f = AudioFile.path g →
          AudioFile.size f = AudioFile.size g →
          Cache.generateFileKey f = Cache.generateFileKey g) ∧
  (∀ f g, AudioFile.path f = AudioFile.path g →
          AudioFile.size f ≠ AudioFile.size g →
          Cache.generateFileKey f ≠ Cache.generateFileKey g) ∧
  (∀ name url (a : option Analysis),
     Cache.generateFileKey (AudioFile.mk name url "x/y.mp3" (Bytes 1000) a)
     = "x/y.mp3_1000") ∧
  (∀ name url (a : option Analysis),
     Cache.generateFileKey (AudioFile.mk name url "x/y.mp3" (Bytes 2000) a)
     = "x/y.mp3_2000").
Proof.
  split_and!; try done.
  - intros f g Hp Hs. unfold Cache.generateFileKey. by rewrite Hp, Hs.
  - intros f g Hp Hs Hk. unfold Cache.generateFileKey in Hk. rewrite Hp in Hk.
    apply String.app_inj, String.app_inj in Hk. by apply size_to_string_inj in Hk.
Qed.

End KeyFacts.

(** *** Lookup, loading and saving *)

Section CacheClaims.
Context {Analysis : Type} `{!JSONValue Analysis}.
Import Cache.
Implicit Types (w : World Analysis) (m : CacheManager Analysis).
Implicit Types (f : AudioFile.t Analysis) (e : CacheEntry.t Analysis).

(** C10.  [getCachedAnalysis] leaves [localStorage] and every field of the
    manager but [cache.data] alone, and in [cache.data] it leaves the keys,
    their order and every entry under another key alone.  On a hit it
    returns the entry's analysis and replaces the entry by one that
    differs in [lastAccessed] only; on a miss it returns [null] and the
    manager is unchanged. *)
Theorem getCachedAnalysis_frame f now w :
  let key := generateFileKey f in
  let result := (getCachedAnalysis f now w).1 in
  let w' := (getCachedAnalysis f now w).2 in
  localStorage w' = localStorage w ∧
  storageKey (this w') = storageKey (this w) ∧
  maxCacheSize (this w') = maxCacheSize (this w) ∧
  cacheVersion (this w') = cacheVersion (this w) ∧
  version (cache (this w')) = version (cache (this w)) ∧
  JS.keys (entries (this w')) = JS.keys (entries (this w)) ∧
  (∀ k, k ≠ key → JS.get k (entries (this w')) = JS.get k (entries (this w))) ∧
  match JS.get key (entries (this w)) with
  | Some e =>
      result = CacheEntry.analysis e ∧
      JS.get key (entries (this w')) = Some (CacheEntry.touch now e) ∧
      CacheEntry.touch now e
      = CacheEntry.mk (CacheEntry.fileName e) (CacheEntry.path e) (CacheEntry.size e)
                      (CacheEntry.analysis e) (CacheEntry.cachedAt e) now
  | None => result = None ∧ this w' = this w
  end.
Proof.
  intros key result w'. subst result w'. unfold getCachedAnalysis, entries.
  fold key. destruct (JS.get key (data (cache (this w)))) as [e|] eqn:Hget.
  - cbn [fst snd]. rewrite this_log. cbn.
    split_and!; try done.
    + by apply keys_set_Some with e.
    + intros k Hk. by apply get_set_ne.
    + apply get_set_eq.
  - cbn [fst snd]. rewrite this_log. by destruct (this w) as [? [] ? ?].
Qed.

(** C5 (what the code does).  When the constructor loads a persisted
    store, [cacheVersion] has not been assigned yet, so the stored version
    is compared with [undefined]: a store without a version member is
    loaded whole, a store with any version member ("1.0" included) is
    discarded, and the store in memory never carries the version "1.0". *)
Theorem constructor_compares_with_undefined (c : CacheStore Analysis) (q : Z)
    (out : list Log) :
  let w := constructor (mkStorage (Some (JSON_stringify c)) q false) out in
  cacheVersion (this w) = Some "1.0" ∧
  cache (this w) = match version c with
                   | None => c
                   | Some _ => mkStore None []
                   end.
Proof.
  destruct c as [[v|] d]; unfold constructor, loadCache, getItem; cbn.
  - rewrite bool_decide_eq_true_2 by done. by cbn.
  - rewrite bool_decide_eq_false_2 by (intros H; by apply H). by cbn.
Qed.

(** C7 (what the code does).  When the serialised store is over the size
    limit and the write succeeds, the text written is the one computed
    before the eviction: storage holds the store as it was, memory holds
    the pruned one. *)
Theorem saveCache_writes_stale_text w :
  denied (localStorage w) = false →
  SIZE_LIMIT < JS.Blob_size (JSON_text (cache (this w))) →
  JS.Blob_size (JSON_text (cache (this w))) ≤ quota (localStorage w) →
  item (localStorage (saveCache w)) = Some (JSON_stringify (cache (this w))) ∧
  this (saveCache w) = pruned (this w).
Proof.
  intros Hd Hlimit Hquota. unfold saveCache, setItem.
  change (text (JSON_stringify (cache (this w)))) with (JSON_text (cache (this w))).
  destruct (_ >? SIZE_LIMIT) eqn:Hgt.
  2:{ rewrite Z.gtb_ltb in Hgt. apply Z.ltb_ge in Hgt. lia. }
  rewrite pruneCache_storage. cbn [localStorage log]. rewrite Hd.
  destruct (_ >? quota _) eqn:Hgt'.
  { apply Z.gtb_lt in Hgt'. lia. }
  done.
Qed.

(** A write after which the entry is still there: no eviction is due, or
    the clock reading is later than the [lastAccessed] of every other
    entry (and evictions keep at least one entry). *)
Definition safe_write f (a : option Analysis) (t1 t2 : Z) w : Prop :=
  fits (inserted f a t1 t2 (this w)) (localStorage w) ∨
  (0 < keepCount (maxCacheSize (this w)) ∧
   ∀ k e, (k, e) ∈ entries (this w) → k ≠ generateFileKey f →
          CacheEntry.lastAccessed e < t2).

(** C8 (as amended).  [set] then [get] under the same path and size gives
    back the analysis, and doing both again gives it back again, provided
    each of the two writes is a [safe_write]. *)
Theorem set_then_get_roundtrip w f f' (a : Analysis) t1 t2 t3 t4 t5 t6 :
  wf (this w) →
  AudioFile.path f' = AudioFile.path f →
  AudioFile.size f' = AudioFile.size f →
  let w1 := setCachedAnalysis f (Some a) t1 t2 w in
  let w2 := (getCachedAnalysis f' t3 w1).2 in
  let w3 := setCachedAnalysis f (Some a) t4 t5 w2 in
  safe_write f (Some a) t1 t2 w →
  safe_write f (Some a) t4 t5 w2 →
  (getCachedAnalysis f' t3 w1).1 = Some a ∧
  (getCachedAnalysis f' t6 w3).1 = Some a.
Proof.
  intros Hwf Hp Hs w1 w2 w3 H1 H2. split.
  - by apply set_get_round.
  - apply set_get_round; [|done..].
    by apply wf_getCachedAnalysis, wf_setCachedAnalysis.
Qed.

End CacheClaims.

(** ** The worker channel *)

Section ChannelFacts.
Context {Analysis Signal : Type}.
Import Channel.
Implicit Types (w : World Analysis Signal) (a : Action Analysis Signal).
Implicit Types (m : Message Analysis) (i j d : Z) (s : PromiseState (Analysis:=Analysis)).

(** The error of the timeout callback. *)
Definition timeout_error : JSError := Error "Worker message timeout".

(** Every timeout that is registered belongs to a request already sent. *)
Definition fresh_ids w : Prop :=
  ∀ t, t ∈ timers w → request t < messageId (this w).

(** Request [i] is outstanding, its promise unsettled, its timeout
    registered for [d] and for no other time. *)
Definition waiting i d w : Prop :=
  i < messageId (this w) ∧
  pendingMessages (this w) !! i = Some ResolveReject ∧
  promises w !! i = Some Pending ∧
  mkTimer d i ∈ timers w ∧
  ∀ t, t ∈ timers w → request t = i → due t = d.

(** Request [i] has timed out: its promise is rejected with the timeout
    error and its entry is gone. *)
Definition expired i w : Prop :=
  i < messageId (this w) ∧
  pendingMessages (this w) !! i = None ∧
  promises w !! i = Some (Rejected timeout_error).

Lemma this_settle i s w : this (settle i s w) = this w.
Proof. unfold settle. by destruct (promises w !! i) as [[]|]. Qed.

Lemma timers_settle i s w : timers (settle i s w) = timers w.
Proof. unfold settle. by destruct (promises w !! i) as [[]|]. Qed.

Lemma time_settle i s w : time (settle i s w) = time w.
Proof. unfold settle. by destruct (promises w !! i) as [[]|]. Qed.

Lemma posted_settle i s w : posted (settle i s w) = posted w.
Proof. unfold settle. by destruct (promises w !! i) as [[]|]. Qed.

Lemma promises_settle_ne i j s w :
  i ≠ j → promises (settle i s w) !! j = promises w !! j.
Proof.
  intros Hne. unfold settle. destruct (promises w !! i) as [[]|]; try done;
    simpl; by rewrite lookup_insert_ne.
Qed.

Lemma promises_settle_Pending i s w :
  promises w !! i = Some Pending → promises (settle i s w) !! i = Some s.
Proof. intros H. unfold settle. rewrite H. simpl. by rewrite lookup_insert_eq. Qed.

Lemma promises_settle_Rejected i j s e w :
  promises w !! j = Some (Rejected e) → promises (settle i s w) !! j = Some (Rejected e).
Proof.
  intros H. destruct (decide (i = j)) as [->|Hne].
  - unfold settle. by rewrite H.
  - by rewrite promises_settle_ne.
Qed.

(** [handleMessage] on an id that is not pending: a warning, nothing
    else. *)
Lemma handleMessage_unknown m w :
  pendingMessages (this w) !! id m = None →
  handleMessage m w = log (WarnUnknownId (id m)) w.
Proof. intros H. unfold handleMessage. by rewrite H. Qed.

(** [handleMessage] on a pending id: the entry goes, the promise is
    settled. *)
Lemma handleMessage_known m w :
  pendingMessages (this w) !! id m = Some ResolveReject →
  ∃ s, handleMessage m w
       = settle (id m) s (with_pending (delete (id m) (pendingMessages (this w))) w).
Proof.
  intros H. unfold handleMessage, reject, resolve. rewrite H.
  destruct (String.eqb _ _); eauto.
Qed.

Lemma sendMessage_id type payload w :
  (sendMessage type payload w).1 = messageId (this w).
Proof. unfold sendMessage. simpl. by destruct (worker (this w)). Qed.

Lemma sendMessage_posts type payload w wk :
  worker (this w) = Some wk →
  let i := messageId (this w) in
  let w' := (sendMessage type payload w).2 in
  this w' = mkManager (Some wk) (isInitialized (this w)) (i + 1)
                      (<[i := ResolveReject]> (pendingMessages (this w))) ∧
  promises w' = <[i := Pending]> (promises w) ∧
  timers w' = timers w ++ [mkTimer (time w + TIMEOUT) i] ∧
  posted w' = posted w ++ [(wk, mkRequest type payload i)] ∧
  time w' = time w ∧ mocks w' = mocks w ∧ console w' = console w ∧
  created w' = created w ∧ terminated w' = terminated w.
Proof. intros H. unfold sendMessage. simpl. by rewrite H. Qed.

Lemma sendMessage_no_worker type payload w :
  worker (this w) = None →
  let i := messageId (this w) in
  let w' := (sendMessage type payload w).2 in
  this w' = mkManager None (isInitialized (this w)) (i + 1)
                      (<[i := ResolveReject]> (pendingMessages (this w))) ∧
  promises w' = <[i := Rejected TypeError]> (promises w) ∧
  timers w' = timers w ∧ posted w' = posted w ∧
  time w' = time w ∧ mocks w' = mocks w ∧ console w' = console w ∧
  created w' = created w ∧ terminated w' = terminated w.
Proof.
  intros H. unfold sendMessage, reject, settle. simpl. rewrite H. simpl.
  rewrite lookup_insert_eq. simpl. by rewrite insert_insert_eq.
Qed.


Lemma time_step a w : time w ≤ time (step a w).
Proof.
  destruct a as [m|ms|i|type payload|]; simpl.
  - unfold handleMessage. destruct (pendingMessages (this w) !! id m) as [[]|]; [|done].
    unfold reject, resolve. destruct (String.eqb _ _); by rewrite time_settle.
  - lia.
  - unfold fire. destruct (existsb _ _); [|done]. unfold onTimeout.
    destruct (pendingMessages _ !! i); [|done]. unfold reject. by rewrite time_settle.
  - unfold sendMessage. destruct (worker _); simpl; [done|].
    unfold reject. by rewrite time_settle.
  - unfold terminate. by destruct (worker _).
Qed.

Lemma time_run actions w : time w ≤ time (run actions w).
Proof.
  revert w. induction actions as [|a actions IH]; intros w; simpl; [done|].
  etrans; [apply (time_step a)|apply IH].
Qed.

(** Once a request has timed out, nothing that happens to the channel
    changes that. *)
Lemma step_expired a i w : expired i w → expired i (step a w).
Proof.
  intros (Hlt & Hp & Hr). destruct a as [m|ms|j|type payload|]; simpl.
  - destruct (pendingMessages (this w) !! id m) as [[]|] eqn:Hm.
    + destruct (handleMessage_known m w Hm) as [s ->].
      assert (id m ≠ i) as Hne by congruence.
      unfold expired. rewrite this_settle, promises_settle_ne by done. simpl.
      by rewrite lookup_delete_ne.
    + by rewrite handleMessage_unknown.
  - done.
  - unfold fire. destruct (existsb _ _); [|done]. unfold onTimeout. simpl.
    destruct (pendingMessages (this w) !! j) eqn:Hj; [|done].
    assert (j ≠ i) as Hne by congruence.
    unfold expired, reject. rewrite this_settle, promises_settle_ne by done. simpl.
    by rewrite lookup_delete_ne.
  - destruct (worker (this w)) as [wk|] eqn:Hw.
    + destruct (sendMessage_posts type payload w wk Hw) as (Ht & Hq & _).
      unfold expired. rewrite Ht, Hq. simpl.
      rewrite !lookup_insert_ne by lia. split_and!; [lia|done..].
    + destruct (sendMessage_no_worker type payload w Hw) as (Ht & Hq & _).
      unfold expired. rewrite Ht, Hq. simpl.
      rewrite !lookup_insert_ne by lia. split_and!; [lia|done..].
  - unfold terminate. by destruct (worker (this w)).
Qed.

Lemma run_expired actions i w : expired i w → expired i (run actions w).
Proof.
  revert w. induction actions as [|a actions IH]; intros w H; simpl; [done|].
  by apply IH, step_expired.
Qed.

(** The timeout callback, run when due, rejects an outstanding request. *)
Lemma fire_waiting i d w : waiting i d w → d ≤ time w → expired i (fire i w).
Proof.
  intros (Hlt & Hp & Hpr & Hin & Hdue) Hd. unfold fire.
  assert (existsb (is_due i (time w)) (timers w) = true) as ->.
  { apply existsb_exists. exists (mkTimer d i). split; [by apply list_elem_of_In|].
    unfold is_due. simpl. by rewrite !bool_decide_eq_true_2. }
  unfold onTimeout. simpl. rewrite Hp. unfold expired, reject.
  rewrite this_settle. simpl. rewrite lookup_delete_eq.
  split_and!; [done | done |]. by apply promises_settle_Pending.
Qed.

(** Without a matching response, an outstanding request stays outstanding
    until its timeout callback runs, which cannot be before it is due. *)
Lemma step_waiting a i d w :
  waiting i d w →
  (∀ m, a = Deliver m → id m ≠ i) →
  waiting i d (step a w) ∨ (expired i (step a w) ∧ d ≤ time (step a w)).
Proof.
  intros Hw Hno. pose proof Hw as (Hlt & Hp & Hpr & Hin & Hdue).
  destruct a as [m|ms|j|type payload|]; simpl.
  - left. specialize (Hno m eq_refl).
    destruct (pendingMessages (this w) !! id m) as [[]|] eqn:Hm.
    + destruct (handleMessage_known m w Hm) as [s ->].
      unfold waiting. rewrite this_settle, timers_settle, promises_settle_ne by done.
      simpl. by rewrite lookup_delete_ne.
    + by rewrite handleMessage_unknown.
  - by left.
  - destruct (decide (j = i)) as [->|Hne].
    + destruct (decide (d ≤ time w)) as [Hd|Hd].
      * right. split; [by apply (fire_waiting i d)|]. etrans; [done|apply (time_step (Fire i))].
      * left. unfold fire.
        assert (existsb (is_due i (time w)) (timers w) = false) as ->; [|done].
        apply not_true_is_false. intros (t & Ht & Hdue')%existsb_exists.
        unfold is_due in Hdue'. apply andb_true_iff in Hdue' as [H1 H2].
        apply bool_decide_eq_true in H1, H2. apply list_elem_of_In in Ht.
        rewrite (Hdue t Ht H1) in H2. done.
    + left. unfold fire. destruct (existsb _ _); [|done]. unfold onTimeout. simpl.
      assert (mkTimer d i ∈ filter (λ t, request t ≠ j) (timers w) ∧
              ∀ t, t ∈ filter (λ t, request t ≠ j) (timers w) →
                   request t = i → due t = d) as [Hin' Hdue'].
      { split.
        - apply list_elem_of_filter. split; [simpl; congruence | done].
        - intros t [_ Ht]%list_elem_of_filter. by apply Hdue. }
      destruct (pendingMessages (this w) !! j) eqn:Hj.
      * unfold waiting, reject.
        rewrite this_settle, timers_settle, promises_settle_ne by done. simpl.
        by rewrite lookup_delete_ne.
      * done.
  - left. destruct (worker (this w)) as [wk|] eqn:Hwk.
    + destruct (sendMessage_posts type payload w wk Hwk) as (Ht & Hq & Hti & _).
      unfold waiting. rewrite Ht, Hq, Hti. simpl. rewrite !lookup_insert_ne by lia.
      split_and!; [lia | done | done | |].
      * apply elem_of_app. by left.
      * intros t [Hold|Hnew]%elem_of_app; [by apply Hdue|].
        apply list_elem_of_singleton in Hnew as ->. simpl. lia.
    + destruct (sendMessage_no_worker type payload w Hwk) as (Ht & Hq & Hti & _).
      unfold waiting. rewrite Ht, Hq, Hti. simpl. rewrite !lookup_insert_ne by lia.
      split_and!; [lia | done..].
  - left. unfold terminate. by destruct (worker (this w)).
Qed.

Lemma run_waiting actions i d w :
  waiting i d w →
  (∀ m, Deliver m ∈ actions → id m ≠ i) →
  waiting i d (run actions w) ∨ (expired i (run actions w) ∧ d ≤ time (run actions w)).
Proof.
  revert w. induction actions as [|a actions IH]; intros w Hw Hno; simpl; [by left|].
  destruct (step_waiting a i d w Hw) as [Hw'|[He Hd]].
  - intros m ->. apply Hno. apply list_elem_of_here.
  - apply IH; [done|]. intros m Hm. apply Hno. by apply list_elem_of_further.
  - right. split; [by apply run_expired|]. etrans; [done|apply time_run].
Qed.

(** A request that was posted is [waiting] for [time + TIMEOUT]. *)
Lemma sendMessage_waiting type payload w wk :
  fresh_ids w → worker (this w) = Some wk →
  waiting (messageId (this w)) (time w + TIMEOUT) (sendMessage type payload w).2.
Proof.
  intros Hfresh Hwk.
  destruct (sendMessage_posts type payload w wk Hwk) as (Ht & Hq & Hti & _).
  unfold waiting. rewrite Ht, Hq, Hti. simpl. rewrite !lookup_insert_eq. split_and!; [lia | done | done | |].
  - apply elem_of_app. right. apply list_elem_of_here.
  - intros t [Hold|Hnew]%elem_of_app.
    + intros Hreq. apply Hfresh in Hold. lia.
    + by apply list_elem_of_singleton in Hnew as ->.
Qed.

Lemma run_app (actions1 actions2 : list (Action Analysis Signal)) w :
  run (actions1 ++ actions2) w = run actions2 (run actions1 w).
Proof. unfold run. by rewrite fold_left_app. Qed.

Lemma time_fire i w : time (fire i w) = time w.
Proof.
  unfold fire. destruct (existsb _ _); [|done]. unfold onTimeout.
  cbn [this with_timers pendingMessages].
  destruct (pendingMessages (this w) !! i); [|done]. unfold reject. by rewrite time_settle.
Qed.

End ChannelFacts.

Section ChannelClaims.
Context {Analysis Signal : Type}.
Import Channel.
Implicit Types w : World Analysis Signal.

(** C4.  A request that was posted and gets no response with its id has
    its timeout registered for 60000 ms after the send.  It is still
    outstanding as long as fewer than 60000 ms have passed, whatever else
    the channel does, even if the platform is asked to run its timeout;
    when the timeout callback runs once 60000 ms have passed, its promise
    is rejected with the timeout error and its entry is gone from
    [pendingMessages], and nothing that happens later changes that.  A
    response with that id arriving afterwards, and any message whose id
    is not in [pendingMessages], only adds a warning to the console. *)
Theorem request_times_out type payload wk (before after : list (Action Analysis Signal)) w :
  fresh_ids w →
  worker (this w) = Some wk →
  (∀ m, Deliver m ∈ before → id m ≠ messageId (this w)) →
  let i := messageId (this w) in
  let w1 := (sendMessage type payload w).2 in
  let w2 := run before w1 in
  let w3 := run after (fire i w2) in
  (sendMessage type payload w).1 = i ∧
  timers w1 = timers w ++ [mkTimer (time w + 60000) i] ∧
  (time w2 < time w + 60000 →
     pendingMessages (this w2) !! i = Some ResolveReject ∧
     promises w2 !! i = Some Pending ∧
     pendingMessages (this (fire i w2)) !! i = Some ResolveReject ∧
     promises (fire i w2) !! i = Some Pending) ∧
  (time w + 60000 ≤ time w2 →
     pendingMessages (this w3) !! i = None ∧
     promises w3 !! i = Some (Rejected (Error "Worker message timeout")) ∧
     ∀ m, id m = i → handleMessage m w3 = log (WarnUnknownId i) w3) ∧
  (∀ m w', pendingMessages (this w') !! id m = None →
     handleMessage m w' = log (WarnUnknownId (id m)) w').
Proof.
  intros Hfresh Hwk Hno i w1 w2 w3.
  pose proof (sendMessage_waiting type payload w wk Hfresh Hwk) as Hw1.
  change (time w + TIMEOUT) with (time w + 60000) in Hw1.
  fold i w1 in Hw1.
  pose proof (run_waiting before i _ w1 Hw1 Hno) as Hw2. fold w2 in Hw2.
  split_and!.
  - apply sendMessage_id.
  - by destruct (sendMessage_posts type payload w wk Hwk) as (_ & _ & ? & _).
  - intros Hearly. destruct Hw2 as [Hw2|[_ Hlate]]; [|lia].
    destruct (step_waiting (Fire i) i _ w2 Hw2) as [Hw3|[_ Hlate]].
    + intros m Hm. discriminate Hm.
    + destruct Hw2 as (_ & ? & ? & _). destruct Hw3 as (_ & ? & ? & _). done.
    + exfalso. cbn [step] in Hlate. rewrite time_fire in Hlate. lia.
  - intros Hlate.
    assert (expired i w3) as (_ & Hp & Hr).
    { apply run_expired. destruct Hw2 as [Hw2|[He _]].
      - by apply (fire_waiting i (time w + 60000)).
      - by apply (step_expired (Fire i)). }
    split_and!; [done..|]. intros m Hm. rewrite <- Hm in *.
    by apply handleMessage_unknown.
  - intros m w'. apply handleMessage_unknown.
Qed.

(** C6, as the code has it.  [terminate()] on a channel with a worker
    terminates it, drops it and clears [isInitialized]; on a channel
    without one it does nothing.  Either way it touches no entry of
    [pendingMessages], no promise and no timer, so a request that was
    outstanding is still outstanding, and an [analyzeAudio] call after it
    posts nothing and completes with a mock.  A request posted before
    [terminate()] and never answered stays pending, whatever else happens,
    until 60000 ms have passed since it was sent; the timeout callback
    that runs then rejects it with the timeout error. *)
Theorem terminate_keeps_pending (mock : nat → Analysis) thread audioBuffer fileName w
    type payload wk0 (before later : list (Action Analysis Signal)) w0 :
  let w' := terminate w in
  (∀ wk, worker (this w) = Some wk →
     this w' = mkManager None false (messageId (this w)) (pendingMessages (this w)) ∧
     terminated w' = terminated w ++ [wk] ∧
     console w' = console w ++ [LogTerminated]) ∧
  (worker (this w) = None → w' = w) ∧
  worker (this w') = None ∧
  pendingMessages (this w') = pendingMessages (this w) ∧
  promises w' = promises w ∧
  timers w' = timers w ∧
  posted w' = posted w ∧
  time w' = time w ∧
  (∀ i d, waiting i d w → waiting i d w') ∧
  (∃ w'', analyzeAudio mock thread audioBuffer fileName w'
          = (Completed (Some (mock (mocks w))), w'') ∧
          posted w'' = posted w) ∧
  (fresh_ids w0 →
   worker (this w0) = Some wk0 →
   (∀ m, Deliver m ∈ before ++ later → id m ≠ messageId (this w0)) →
   let i := messageId (this w0) in
   let w1 := run before (sendMessage type payload w0).2 in
   let w2 := run later (terminate w1) in
   (time w1 < time w0 + 60000 →
      pendingMessages (this (terminate w1)) !! i = Some ResolveReject ∧
      promises (terminate w1) !! i = Some Pending) ∧
   (time w2 < time w0 + 60000 →
      pendingMessages (this (fire i w2)) !! i = Some ResolveReject ∧
      promises (fire i w2) !! i = Some Pending) ∧
   (time w0 + 60000 ≤ time w2 →
      pendingMessages (this (fire i w2)) !! i = None ∧
      promises (fire i w2) !! i = Some (Rejected (Error "Worker message timeout")))).
Proof.
  intros w'. split_and!.
  - intros wk Hwk. unfold w', terminate. rewrite Hwk. done.
  - intros Hwk. unfold w', terminate. by rewrite Hwk.
  - unfold w', terminate. by destruct (worker (this w)) as [wk|] eqn:Hwk.
  - unfold w', terminate. by destruct (worker (this w)).
  - unfold w', terminate. by destruct (worker (this w)).
  - unfold w', terminate. by destruct (worker (this w)).
  - unfold w', terminate. by destruct (worker (this w)).
  - unfold w', terminate. by destruct (worker (this w)).
  - intros i d Hw. unfold w', terminate. by destruct (worker (this w)).
  - unfold w', terminate. destruct (worker (this w)) as [wk|] eqn:Hwk; simpl.
    + unfold analyzeAudio. simpl. eauto.
    + unfold analyzeAudio.
      destruct (isInitialized (this w)) eqn:Hi; simpl; [|eauto].
      unfold await_sendMessage.
      pose proof (sendMessage_no_worker "analyze" (AnalyzePayload audioBuffer fileName)
                    (log (LogSending fileName) w) Hwk) as (Ht & Hq & _ & Hposted & _ & Hm & _).
      pose proof (sendMessage_id "analyze" (AnalyzePayload audioBuffer fileName)
                    (log (LogSending fileName) w)) as Hid.
      destruct (sendMessage _ _ _) as [i w1]. simpl in *. subst i.
      rewrite Hwk, Hq, lookup_insert_eq. simpl. rewrite Hm. eauto.
  - intros Hfresh Hwk Hno i w1 w2.
    pose proof (sendMessage_waiting type payload w0 wk0 Hfresh Hwk) as Hsent.
    change (time w0 + TIMEOUT) with (time w0 + 60000) in Hsent. fold i in Hsent.
    assert (w2 = run (before ++ Terminate :: later) (sendMessage type payload w0).2) as Hw2.
    { by rewrite run_app. }
    assert (waiting i (time w0 + 60000) w2 ∨
            (expired i w2 ∧ time w0 + 60000 ≤ time w2)) as Hlate.
    { rewrite Hw2. apply run_waiting; [done|].
      intros m Hm. apply Hno. apply elem_of_app in Hm as [Hm|Hm].
      - apply elem_of_app. by left.
      - apply elem_of_cons in Hm as [Hm|Hm]; [discriminate Hm|].
        apply elem_of_app. by right. }
    split_and!.
    + intros Hearly.
      destruct (run_waiting before i _ _ Hsent) as [Hw1|[_ Hd]].
      { intros m Hm. apply Hno. apply elem_of_app. by left. }
      * fold w1 in Hw1.
        destruct (step_waiting Terminate i _ w1 Hw1) as [(_ & ? & ? & _)|[_ Hd]]; [done|done|].
        exfalso. pose proof (time_step Terminate w1) as Hle. cbn [step] in Hd, Hle.
        assert (time (terminate w1) = time w1) as Heq.
        { unfold terminate. by destruct (worker (this w1)). }
        rewrite Heq in Hd. fold w1 in Hearly. lia.
      * fold w1 in Hd. lia.
    + intros Hearly. destruct Hlate as [Hwait|[_ Hd]]; [|lia].
      destruct (step_waiting (Fire i) i _ w2 Hwait) as [(_ & ? & ? & _)|[_ Hd]].
      * intros m Hm. discriminate Hm.
      * done.
      * exfalso. cbn [step] in Hd. rewrite time_fire in Hd. lia.
    + intros Hdue.
      assert (expired i (fire i w2)) as (_ & Hp & Hr).
      { destruct Hlate as [Hwait|[He _]].
        - by apply (fire_waiting i (time w0 + 60000)).
        - by apply (step_expired (Fire i)). }
      done.
Qed.

End ChannelClaims.

Section PostedFacts.
Context {Analysis Signal : Type}.
Import Channel.
Implicit Types w : World Analysis Signal.

(** Requests that were posted stay posted. *)
Lemma posted_step a w : posted w `prefix_of` posted (step a w).
Proof.
  destruct a as [m|ms|i|type payload|]; simpl.
  - unfold handleMessage. destruct (pendingMessages (this w) !! id m) as [[]|]; [|done].
    unfold reject, resolve. destruct (String.eqb _ _); by rewrite posted_settle.
  - done.
  - unfold fire. destruct (existsb _ _); [|done]. unfold onTimeout.
    destruct (pendingMessages _ !! i); [|done]. unfold reject. by rewrite posted_settle.
  - destruct (worker (this w)) as [wk|] eqn:Hwk.
    + destruct (sendMessage_posts type payload w wk Hwk) as (_ & _ & _ & -> & _).
      by apply prefix_app_r.
    + by destruct (sendMessage_no_worker type payload w Hwk) as (_ & _ & _ & -> & _).
  - unfold terminate. by destruct (worker (this w)).
Qed.

Lemma posted_run actions w : posted w `prefix_of` posted (run actions w).
Proof.
  revert w. induction actions as [|a actions IH]; intros w; simpl; [done|].
  etrans; [apply (posted_step a)|apply IH].
Qed.

(** [await this.sendMessage(...)] with a worker posts exactly this request,
    with the id that was next. *)
Lemma await_sendMessage_posts thread type payload w wk :
  worker (this w) = Some wk →
  (wk, mkRequest type payload (messageId (this w)))
    ∈ posted (await_sendMessage thread type payload w).2.
Proof.
  intros Hwk. unfold await_sendMessage.
  pose proof (sendMessage_posts type payload w wk Hwk) as (_ & _ & _ & Hposted & _).
  pose proof (sendMessage_id type payload w) as Hid.
  destruct (sendMessage type payload w) as [i w1]. simpl in *. subst i.
  rewrite Hwk.
  assert ((wk, mkRequest type payload (messageId (this w)))
            ∈ posted (run (thread (mkRequest type payload (messageId (this w)))) w1)) as Hin.
  { eapply elem_of_prefix; [|apply posted_run]. rewrite Hposted.
    apply elem_of_app. right. apply list_elem_of_here. }
  by destruct (promises _ !! _) as [[]|].
Qed.

End PostedFacts.

(** ** More of [EssentiaWorkerManager]: ids, responses, the round trip *)

Section ChannelProperties.
Context {Analysis Signal : Type}.
Import Channel.
Implicit Types (w : World Analysis Signal) (a : Action Analysis Signal).
Implicit Types (m : Message Analysis) (i j : Z).

(** The ids of the requests posted so far, oldest first. *)
Definition posted_ids w : list Z := (λ p, rid p.2) <$> posted w.

(** Every posted request has an id below [messageId], and no two share
    one. *)
Definition tidy w : Prop :=
  (∀ i, i ∈ posted_ids w → i < messageId (this w)) ∧ NoDup (posted_ids w).

Lemma this_handleMessage m w :
  messageId (this (handleMessage m w)) = messageId (this w).
Proof.
  unfold handleMessage. destruct (pendingMessages (this w) !! id m) as [[]|]; [|done].
  unfold reject, resolve. destruct (String.eqb _ _); by rewrite this_settle.
Qed.

Lemma this_fire i w : messageId (this (fire i w)) = messageId (this w).
Proof.
  unfold fire. destruct (existsb _ _); [|done]. unfold onTimeout.
  destruct (pendingMessages _ !! i); [|done]. unfold reject. by rewrite this_settle.
Qed.

Lemma posted_fire i w : posted (fire i w) = posted w.
Proof.
  unfold fire. destruct (existsb _ _); [|done]. unfold onTimeout.
  destruct (pendingMessages _ !! i); [|done]. unfold reject. by rewrite posted_settle.
Qed.

Lemma posted_handleMessage m w : posted (handleMessage m w) = posted w.
Proof.
  unfold handleMessage. destruct (pendingMessages (this w) !! id m) as [[]|]; [|done].
  unfold reject, resolve. destruct (String.eqb _ _); by rewrite posted_settle.
Qed.

(** What one step does to the requests posted and to the counter: only
    [sendMessage] touches them, and it uses the counter's value once. *)
Lemma step_posted a w :
  (posted_ids (step a w) = posted_ids w ∧ messageId (this w) ≤ messageId (this (step a w))) ∨
  (posted_ids (step a w) = posted_ids w ++ [messageId (this w)] ∧
   messageId (this (step a w)) = messageId (this w) + 1).
Proof.
  unfold posted_ids. destruct a as [m|ms|i|type payload|]; simpl.
  - left. by rewrite posted_handleMessage, this_handleMessage.
  - by left.
  - left. by rewrite posted_fire, this_fire.
  - destruct (worker (this w)) as [wk|] eqn:Hwk.
    + right. destruct (sendMessage_posts type payload w wk Hwk) as (Ht & _ & _ & Hp & _).
      rewrite Ht, Hp, fmap_app. done.
    + left. destruct (sendMessage_no_worker type payload w Hwk) as (Ht & _ & _ & Hp & _).
      rewrite Ht, Hp. simpl. split; [done | lia].
  - left. unfold terminate. by destruct (worker (this w)).
Qed.

Lemma tidy_step a w :
  tidy w → tidy (step a w) ∧ messageId (this w) ≤ messageId (this (step a w)).
Proof.
  intros [Hlt Hnd]. unfold tidy. destruct (step_posted a w) as [[-> Hle] | [-> ->]].
  - split_and!; [|done..]. intros i Hi. specialize (Hlt i Hi). lia.
  - split_and!; [| |lia].
    + intros i [Hi | ->%list_elem_of_singleton]%elem_of_app; [|lia].
      specialize (Hlt i Hi). lia.
    + apply NoDup_app. split_and!; [done | | apply NoDup_singleton].
      intros i Hi ->%list_elem_of_singleton. specialize (Hlt _ Hi). lia.
Qed.

Lemma tidy_run actions w :
  tidy w → tidy (run actions w) ∧ messageId (this w) ≤ messageId (this (run actions w)).
Proof.
  revert w. induction actions as [|a actions IH]; intros w Hw; simpl; [done|].
  destruct (tidy_step a w Hw) as [Hw' Hle].
  destruct (IH _ Hw') as [? ?]. split; [done | lia].
Qed.

(** [await this.sendMessage(...)] is a send followed by what the worker
    thread and the timers do (nothing, if there is no worker to post
    to). *)
Lemma await_sendMessage_run thread type payload w :
  (await_sendMessage thread type payload w).2
  = run (Send type payload ::
         match worker (this w) with
         | Some _ => thread (mkRequest type payload (messageId (this w)))
         | None => []
         end) w.
Proof.
  unfold await_sendMessage. simpl run.
  pose proof (sendMessage_id type payload w) as Hid.
  destruct (sendMessage type payload w) as [i w1]. simpl in *. subst i.
  destruct (worker (this w)); by destruct (promises _ !! _) as [[]|].
Qed.

Lemma tidy_ext w w' :
  posted w' = posted w → messageId (this w') = messageId (this w) → tidy w → tidy w'.
Proof. unfold tidy, posted_ids. by intros -> ->. Qed.

(** X8.  Request ids are never reused: whatever the channel goes through
    (responses, timeouts, sends with or without a worker, [terminate],
    an [analyzeAudio] call), the requests posted to workers carry
    pairwise distinct ids, all below the counter, and the counter never
    goes down. *)
Theorem request_ids_are_distinct (mock : nat → Analysis) thread audioBuffer fileName
    (actions : list (Action Analysis Signal)) w :
  tidy w →
  let w1 := run actions w in
  let w2 := (analyzeAudio mock thread audioBuffer fileName w1).2 in
  tidy w1 ∧ tidy w2 ∧
  messageId (this w) ≤ messageId (this w1) ≤ messageId (this w2).
Proof.
  intros Hw w1 w2. destruct (tidy_run actions w Hw) as [H1 Hle1]. fold w1 in H1, Hle1.
  assert (tidy w2 ∧ messageId (this w1) ≤ messageId (this w2)) as [H2 Hle2]; [|done].
  subst w2. unfold analyzeAudio.
  destruct (negb (isInitialized (this w1))); [by split|].
  pose proof (await_sendMessage_run thread "analyze" (AnalyzePayload audioBuffer fileName)
                (log (LogSending fileName) w1)) as Hrun.
  set (actions' := Send _ _ :: _) in Hrun.
  destruct (tidy_run actions' (log (LogSending fileName) w1)) as [H2 Hle2]; [done|].
  rewrite <-Hrun in H2, Hle2.
  destruct (await_sendMessage _ _ _ _) as [[[|v|e]|] ww]; simpl in *; by split.
Qed.

(** X9.  A response is consumed once.  For a request that is pending,
    [handleMessage] removes the entry and settles the promise (rejected
    with the payload's error text for type ["error"], fulfilled with the
    payload otherwise), touches no other entry or promise, and a
    second message with the same id only adds a warning. *)
Theorem handleMessage_settles_once m w :
  pendingMessages (this w) !! id m = Some ResolveReject →
  promises w !! id m = Some Pending →
  let w' := handleMessage m w in
  promises w' !! id m
  = Some (if String.eqb (type m) "error"
          then Rejected (Error (default EmptyString (error (payload m))))
          else Fulfilled (payload m)) ∧
  pendingMessages (this w') = delete (id m) (pendingMessages (this w)) ∧
  (∀ j, j ≠ id m → promises w' !! j = promises w !! j) ∧
  posted w' = posted w ∧ timers w' = timers w ∧ console w' = console w ∧
  ∀ m', id m' = id m → handleMessage m' w' = log (WarnUnknownId (id m)) w'.
Proof.
  intros Hp Hpr w'. subst w'.
  assert (handleMessage m w
          = settle (id m)
              (if String.eqb (type m) "error"
               then Rejected (Error (default EmptyString (error (payload m))))
               else Fulfilled (payload m))
              (with_pending (delete (id m) (pendingMessages (this w))) w)) as ->.
  { unfold handleMessage, reject, resolve. rewrite Hp. by destruct (String.eqb _ _). }
  rewrite this_settle, posted_settle, timers_settle.
  split_and!.
  - by apply promises_settle_Pending.
  - done.
  - intros j Hj. by rewrite promises_settle_ne.
  - done.
  - done.
  - unfold settle. cbn [promises with_pending with_this]. by rewrite Hpr.
  - intros m' Hm'. rewrite <-Hm'. apply handleMessage_unknown.
    rewrite this_settle, Hm'. cbn [this with_pending with_this pendingMessages].
    apply lookup_delete_eq.
Qed.

End ChannelProperties.

Section RoundTrip.
Context {Analysis Signal : Type}.
Context (essentia_loads : bool) (extract : Signal → nat → option Analysis).
Context (worker_mock host_mock : nat → Analysis).
Import Channel.
Implicit Types (w : World Analysis Signal) (st : Worker.State).

(** The worker of [essentia.worker.js], answering at once from [st]. *)
Definition answering st : Thread Analysis Signal :=
  Worker.prompt_thread essentia_loads extract worker_mock st.

(** How [handleMessage] settles the promise of the request it answers. *)
Definition outcome (m : Message Analysis) : PromiseState :=
  if String.eqb (type m) "error"
  then Rejected (Error (default EmptyString (error (payload m))))
  else Fulfilled (payload m).

Lemma handleMessage_pending (m : Message Analysis) w :
  pendingMessages (this w) !! id m = Some ResolveReject →
  handleMessage m w
  = settle (id m) (outcome m) (with_pending (delete (id m) (pendingMessages (this w))) w).
Proof.
  intros Hp. unfold handleMessage, reject, resolve, outcome. rewrite Hp.
  by destruct (String.eqb _ _).
Qed.

Lemma console_settle i s w : console (settle i s w) = console w.
Proof. unfold settle. by destruct (promises w !! i) as [[]|]. Qed.

Lemma mocks_settle i s w : mocks (settle i s w) = mocks w.
Proof. unfold settle. by destruct (promises w !! i) as [[]|]. Qed.

Lemma created_settle i s w : created (settle i s w) = created w.
Proof. unfold settle. by destruct (promises w !! i) as [[]|]. Qed.

Lemma terminated_settle i s w : terminated (settle i s w) = terminated w.
Proof. unfold settle. by destruct (promises w !! i) as [[]|]. Qed.

(** A request sent to a worker and answered at once with [m]: the world
    when the host resumes. *)
Lemma answered_at_once type payload (m : Message Analysis) w wk :
  worker (this w) = Some wk →
  id m = messageId (this w) →
  let i := messageId (this w) in
  let w' := run [Deliver m] (sendMessage type payload w).2 in
  this w' = mkManager (Some wk) (isInitialized (this w)) (i + 1)
                      (delete i (pendingMessages (this w))) ∧
  promises w' = <[i := outcome m]> (promises w) ∧
  timers w' = timers w ++ [mkTimer (time w + TIMEOUT) i] ∧
  posted w' = posted w ++ [(wk, mkRequest type payload i)] ∧
  time w' = time w ∧ mocks w' = mocks w ∧ console w' = console w ∧
  created w' = created w ∧ terminated w' = terminated w.
Proof.
  intros Hwk Hid i w'. subst w'. simpl run.
  destruct (sendMessage_posts type payload w wk Hwk)
    as (Ht & Hpr & Hti & Hpo & Htime & Hm & Hc & Hcr & Hte).
  set (w1 := (sendMessage type payload w).2) in *.
  rewrite handleMessage_pending by (rewrite Ht, Hid; apply lookup_insert_eq).
  rewrite this_settle, timers_settle, posted_settle, time_settle, mocks_settle,
    console_settle, created_settle, terminated_settle.
  cbn [this timers posted time mocks console created terminated with_pending with_this].
  rewrite Ht, Hti, Hpo, Htime, Hm, Hc, Hcr, Hte, Hid.
  cbn [worker isInitialized messageId pendingMessages]. fold i.
  rewrite delete_insert_eq. split_and!; try done.
  unfold settle. cbn [promises with_pending with_this]. rewrite Hpr, lookup_insert_eq.
  cbn [with_promises promises]. by rewrite insert_insert_eq.
Qed.

(** The same seen from the [await]. *)
Lemma await_sendMessage_answered thread type payload (m : Message Analysis) w wk :
  worker (this w) = Some wk →
  thread (mkRequest type payload (messageId (this w))) = [Deliver m] →
  id m = messageId (this w) →
  await_sendMessage thread type payload w
  = (Completed (outcome m), run [Deliver m] (sendMessage type payload w).2).
Proof.
  intros Hwk Hthread Hid.
  destruct (answered_at_once type payload m w wk Hwk Hid) as (_ & Hpr & _).
  unfold await_sendMessage.
  pose proof (sendMessage_id type payload w) as Hi.
  destruct (sendMessage type payload w) as [i w1]. cbn [fst snd] in Hi, Hpr. subst i.
  cbv beta iota zeta. rewrite Hwk, Hthread. cbn [snd].
  rewrite Hpr, lookup_insert_eq. unfold outcome. by destruct (String.eqb _ _).
Qed.

(** X10.  [initialize()].  If the worker cannot be created the call
    returns [false] with [isInitialized] cleared and nothing posted.
    With the worker script answering, it returns whether Essentia
    loaded; the manager keeps the new worker either way, [isInitialized]
    is set on success and left as it was on failure, the init request is
    no longer pending, and its timeout stays registered. *)
Theorem initialize_outcomes thread st w :
  initialize false thread w
  = (Completed false, with_isInitialized false (log ErrInitializing (log LogInitializing w))) ∧
  let w' := (initialize true (answering st) w).2 in
  let i := messageId (this w) in
  (initialize true (answering st) w).1 = Completed essentia_loads ∧
  this w' = mkManager (Some (created w)) (essentia_loads || isInitialized (this w)) (i + 1)
                      (delete i (pendingMessages (this w))) ∧
  created w' = S (created w) ∧
  posted w' = posted w ++ [(created w, mkRequest "init" EmptyPayload i)] ∧
  timers w' = timers w ++ [mkTimer (time w + TIMEOUT) i] ∧
  terminated w' = terminated w.
Proof.
  split; [done|]. intros w' i. subst w' i. unfold initialize. simpl negb. cbv iota.
  set (w0 := mkWorld _ _ _ _ _ _ _ _ _).
  assert (worker (this w0) = Some (created w)) as Hwk by done.
  set (m := @mkMessage Analysis "init-complete"
              (Worker.initializeEssentia (Analysis:=Analysis) essentia_loads st).1
              (messageId (this w0))).
  assert (answering st (mkRequest "init" EmptyPayload (messageId (this w0))) = [Deliver m])
    as Hthread.
  { unfold answering, Worker.prompt_thread, Worker.onmessage, m. simpl.
    unfold Worker.initializeEssentia. by destruct essentia_loads. }
  destruct (answered_at_once "init" EmptyPayload m w0 (created w) Hwk eq_refl)
    as (Ht & Hpr & Hti & Hpo & Htime & Hm & Hc & Hcr & Hte).
  rewrite (await_sendMessage_answered _ _ _ m w0 (created w) Hwk Hthread eq_refl).
  set (w2 := run [Deliver m] (sendMessage "init" EmptyPayload w0).2) in *. clearbody w2.
  unfold outcome, m. simpl type. simpl payload.
  change (String.eqb "init-complete" "error") with false. cbv iota.
  unfold Worker.initializeEssentia.
  destruct essentia_loads; simpl fst; simpl success; simpl default; cbv iota;
    cbn [fst snd this created posted timers terminated log with_isInitialized with_this];
    rewrite Ht, Hcr, Hpo, Hti, Hte; done.
Qed.

(** X11.  An [analyzeAudio] call on an initialised channel whose worker
    answers: the call completes with the analysis the worker computed
    (not with the host's mock), exactly one request is posted, the entry
    of the request is gone and its promise fulfilled.  The timeout of the
    request stays registered: when it later runs it finds nothing to
    reject and only goes away. *)
Theorem analyzeAudio_round_trip audioBuffer fileName st wk w :
  isInitialized (this w) = true →
  worker (this w) = Some wk →
  let i := messageId (this w) in
  let answer := (Worker.analyzeAudio extract worker_mock audioBuffer st).1 in
  let w' := (analyzeAudio host_mock (answering st) audioBuffer fileName w).2 in
  (analyzeAudio host_mock (answering st) audioBuffer fileName w).1 = Completed (Some answer) ∧
  this w' = mkManager (Some wk) true (i + 1) (delete i (pendingMessages (this w))) ∧
  promises w' !! i
  = Some (Fulfilled (mkPayload None None (Some answer) (Some fileName))) ∧
  posted w' = posted w ++ [(wk, mkRequest "analyze" (AnalyzePayload audioBuffer fileName) i)] ∧
  mocks w' = mocks w ∧
  console w' = console w ++ [LogSending fileName; LogComplete fileName] ∧
  timers w' = timers w ++ [mkTimer (time w + TIMEOUT) i] ∧
  ∀ ms, let late := fire i (elapse ms w') in
        this late = this w' ∧ promises late = promises w' ∧
        console late = console w' ∧ posted late = posted w'.
Proof.
  intros Hinit Hwk i answer w'. subst w' i. unfold analyzeAudio. rewrite Hinit.
  simpl negb. cbv iota.
  set (w0 := log (LogSending fileName) w).
  set (payload := AnalyzePayload audioBuffer fileName).
  set (m := @mkMessage Analysis "analysis-complete"
              (mkPayload None None (Some answer) (Some fileName)) (messageId (this w0))).
  assert (answering st (mkRequest "analyze" payload (messageId (this w0))) = [Deliver m])
    as Hthread.
  { unfold answering, Worker.prompt_thread, Worker.onmessage, m, answer. simpl.
    by destruct (Worker.analyzeAudio extract worker_mock audioBuffer st). }
  destruct (answered_at_once "analyze" payload m w0 wk Hwk eq_refl)
    as (Ht & Hpr & Hti & Hpo & Htime & Hm & Hc & Hcr & Hte).
  rewrite (await_sendMessage_answered _ _ _ m w0 wk Hwk Hthread eq_refl).
  set (w2 := run [Deliver m] (sendMessage "analyze" payload w0).2) in *. clearbody w2.
  unfold outcome, m. simpl type. simpl payload.
  change (String.eqb "analysis-complete" "error") with false. cbv iota.
  change (isInitialized (this w0)) with (isInitialized (this w)) in *. rewrite Hinit in Ht.
  change (pendingMessages (this w0)) with (pendingMessages (this w)) in *.
  change (messageId (this w0)) with (messageId (this w)) in *.
  change (console w0) with (console w ++ [LogSending fileName]) in *.
  change (posted w0) with (posted w) in *. change (mocks w0) with (mocks w) in *.
  change (timers w0) with (timers w) in *. change (time w0) with (time w) in *.
  cbn [fst snd analysis this promises posted mocks console timers log].
  rewrite Ht, Hpr, Hpo, Hm, Hc, Hti, lookup_insert_eq, <-app_assoc.
  split_and!; try done.
  intros ms. unfold fire.
  destruct (existsb _ _).
  - unfold onTimeout. cbn [this with_timers elapse log pendingMessages].
    rewrite Ht. cbn [pendingMessages]. rewrite lookup_delete_eq.
    cbn [this promises console posted with_timers elapse log].
    by rewrite Ht, Hpr, Hc, Hpo, <-app_assoc.
  - cbn [this promises console posted with_timers elapse log].
    by rewrite Ht, Hpr, Hc, Hpo, <-app_assoc.
Qed.

Lemma mocks_fire i w : mocks (fire i w) = mocks w.
Proof.
  unfold fire. destruct (existsb _ _); [|done]. unfold onTimeout.
  cbn [this with_timers pendingMessages].
  destruct (pendingMessages (this w) !! i); [|done]. unfold reject. by rewrite mocks_settle.
Qed.

Lemma console_fire i w : console (fire i w) = console w.
Proof.
  unfold fire. destruct (existsb _ _); [|done]. unfold onTimeout.
  cbn [this with_timers pendingMessages].
  destruct (pendingMessages (this w) !! i); [|done]. unfold reject. by rewrite console_settle.
Qed.

Lemma mocks_step (a : Action Analysis Signal) w : mocks (step a w) = mocks w.
Proof.
  destruct a as [m|ms|i|type payload|]; cbn [step].
  - unfold handleMessage. destruct (pendingMessages (this w) !! id m) as [[]|]; [|done].
    unfold reject, resolve. destruct (String.eqb _ _); by rewrite mocks_settle.
  - done.
  - apply mocks_fire.
  - destruct (worker (this w)) as [wk|] eqn:Hwk.
    + by destruct (sendMessage_posts type payload w wk Hwk) as (_ & _ & _ & _ & _ & ? & _).
    + by destruct (sendMessage_no_worker type payload w Hwk) as (_ & _ & _ & _ & _ & ? & _).
  - unfold terminate. by destruct (worker (this w)).
Qed.

Lemma mocks_run (actions : list (Action Analysis Signal)) w :
  mocks (run actions w) = mocks w.
Proof.
  revert w. induction actions as [|a actions IH]; intros w; [done|].
  cbn [run fold_left]. change (fold_left _ actions ?x) with (run actions x).
  by rewrite IH, mocks_step.
Qed.

(** A request sent to a worker that stays silent until [ms] milliseconds
    have passed, at least the delay of the timeout, and the timeout has
    run. *)
Lemma await_sendMessage_silent thread type payload ms w wk :
  worker (this w) = Some wk →
  fresh_ids w →
  60000 ≤ ms →
  thread (mkRequest type payload (messageId (this w)))
  = [Elapse ms; Fire (messageId (this w))] →
  let w' := run [Elapse ms; Fire (messageId (this w))] (sendMessage type payload w).2 in
  await_sendMessage thread type payload w = (Completed (Rejected timeout_error), w') ∧
  expired (messageId (this w)) w' ∧
  time w' = time w + ms ∧ mocks w' = mocks w ∧ console w' = console w.
Proof.
  intros Hwk Hfresh Hms Hthread w'.
  pose proof (sendMessage_waiting type payload w wk Hfresh Hwk) as Hwait.
  change (time w + TIMEOUT) with (time w + 60000) in Hwait.
  destruct (sendMessage_posts type payload w wk Hwk)
    as (_ & _ & _ & _ & Htime & Hm & Hc & _).
  assert (Z.max 0 ms = ms) as Hmax by lia.
  assert (expired (messageId (this w)) w') as Hexp.
  { subst w'. simpl run. apply (fire_waiting _ (time w + 60000)).
    - destruct Hwait as (? & ? & ? & ? & ?). by split_and!.
    - cbn [time elapse]. rewrite Htime, Hmax. lia. }
  split_and!; [|done|..].
  - unfold await_sendMessage.
    pose proof (sendMessage_id type payload w) as Hi.
    destruct (sendMessage type payload w) as [i w1]. cbn [fst snd] in *. subst i.
    cbv beta iota zeta. rewrite Hwk, Hthread. fold w'.
    destruct Hexp as (_ & _ & ->). done.
  - subst w'. simpl run. rewrite time_fire. cbn [time elapse]. by rewrite Htime, Hmax.
  - subst w'. simpl run. rewrite mocks_fire. cbn [mocks elapse]. by rewrite Hm.
  - subst w'. simpl run. rewrite console_fire. cbn [console elapse]. by rewrite Hc.
Qed.

(** A request to which no response comes: as long as fewer than 60000 ms
    have passed since it was sent, the caller is suspended. *)
Lemma await_sendMessage_early thread type payload w wk :
  worker (this w) = Some wk →
  fresh_ids w →
  let i := messageId (this w) in
  (∀ m, Deliver m ∈ thread (mkRequest type payload i) → id m ≠ i) →
  let r := await_sendMessage thread type payload w in
  (r.1 = Suspended ∧
   pendingMessages (this r.2) !! i = Some ResolveReject ∧
   promises r.2 !! i = Some Pending ∧ mocks r.2 = mocks w)
  ∨ time w + 60000 ≤ time r.2.
Proof.
  intros Hwk Hfresh i Hno r.
  pose proof (sendMessage_waiting type payload w wk Hfresh Hwk) as Hwait.
  change (time w + TIMEOUT) with (time w + 60000) in Hwait. fold i in Hwait.
  destruct (sendMessage_posts type payload w wk Hwk) as (_ & _ & _ & _ & _ & Hm & _).
  pose proof (sendMessage_id type payload w) as Hi.
  subst r. unfold await_sendMessage.
  destruct (sendMessage type payload w) as [j w1]. cbn [fst snd] in *. subst j.
  cbv beta iota zeta. rewrite Hwk. fold i.
  destruct (run_waiting (thread (mkRequest type payload i)) i _ w1 Hwait Hno)
    as [(_ & Hp & Hpr & _)|[(_ & _ & Hr) Hd]].
  - left. rewrite Hpr. cbn [fst snd]. rewrite mocks_run. done.
  - right. rewrite Hr. cbn [snd]. done.
Qed.

(** X12.  An [analyzeAudio] call whose request is never answered.  As
    long as fewer than 60000 ms have passed since the request was sent
    the call is suspended, whatever else happens to the channel (the
    request stays pending, no mock is made).  When 60000 ms or more have
    passed and the timeout has run, the call completes with the host's
    mock and the failure is logged. *)
Theorem analyzeAudio_falls_back_on_timeout audioBuffer fileName wk w :
  isInitialized (this w) = true →
  worker (this w) = Some wk →
  fresh_ids w →
  let i := messageId (this w) in
  let request := mkRequest "analyze" (AnalyzePayload audioBuffer fileName) i in
  let silent (ms : Z) : Thread Analysis Signal := λ req, [Elapse ms; Fire (rid req)] in
  (∀ thread,
     (∀ m, Deliver m ∈ thread request → id m ≠ i) →
     let w' := (analyzeAudio host_mock thread audioBuffer fileName w).2 in
     time w' < time w + 60000 →
     (analyzeAudio host_mock thread audioBuffer fileName w).1 = Suspended ∧
     pendingMessages (this w') !! i = Some ResolveReject ∧
     promises w' !! i = Some Pending ∧
     mocks w' = mocks w) ∧
  (∀ ms, 60000 ≤ ms →
     let w' := (analyzeAudio host_mock (silent ms) audioBuffer fileName w).2 in
     (analyzeAudio host_mock (silent ms) audioBuffer fileName w).1
     = Completed (Some (host_mock (mocks w))) ∧
     mocks w' = S (mocks w) ∧
     time w' = time w + ms ∧
     pendingMessages (this w') !! i = None ∧
     promises w' !! i = Some (Rejected (Error "Worker message timeout")) ∧
     console w' = console w ++ [LogSending fileName;
                                ErrAnalyzing fileName (Error "Worker message timeout")]).
Proof.
  intros Hinit Hwk Hfresh i request silent.
  set (w0 := log (LogSending fileName) w).
  set (payload := AnalyzePayload audioBuffer fileName).
  split.
  - intros thread Hno w'. subst w'. unfold analyzeAudio. rewrite Hinit.
    simpl negb. cbv iota. fold w0 payload.
    destruct (await_sendMessage_early thread "analyze" payload w0 wk Hwk Hfresh Hno)
      as [(Hs & Hp & Hpr & Hm)|Hlate].
    + destruct (await_sendMessage thread "analyze" payload w0) as [c w1].
      cbn [fst snd] in *. subst c. cbn [fst snd]. done.
    + intros Hearly. exfalso.
      destruct (await_sendMessage thread "analyze" payload w0) as [[[|v|e]|] w1];
        cbn [fst snd time log generateMockAnalysis] in *;
        change (time w0) with (time w) in Hlate; lia.
  - intros ms Hms w'. subst w'. unfold analyzeAudio. rewrite Hinit.
    simpl negb. cbv iota. fold w0 payload.
    destruct (await_sendMessage_silent (silent ms) "analyze" payload ms w0 wk Hwk Hfresh Hms
                eq_refl) as (-> & (_ & Hgone & Hrej) & Htime & Hm & Hc).
    set (w2 := run _ _) in *. clearbody w2.
    unfold generateMockAnalysis.
    cbn [fst snd mocks time this promises console log].
    rewrite Hm, Htime, Hc.
    change (messageId (this w0)) with (messageId (this w)) in *.
    split_and!; try done.
    change (console w0) with (console w ++ [LogSending fileName]). by rewrite <-app_assoc.
Qed.

End RoundTrip.

(** ** The batch processor *)

Section SketchClaims.
Context {Analysis Signal : Type} `{!JSONValue Analysis}.
Import Channel Sketch.
Context (env : Env Analysis Signal).
Implicit Types app : App Analysis Signal.

(** C1, as the code has it.  With the worker not initialised,
    [analyzeAudio] returns a mock instead of throwing, so the [try] block
    goes on to [setCachedAnalysis]: the mock is written to the cache under
    the file's key, nothing is posted, and (the write being one that
    evicts nothing of its own) the cache then answers for the file with
    the mock. *)
Theorem mock_analysis_is_cached i f app :
  isInitialized (this (essentiaWorker app)) = false →
  wf (Cache.this (cacheManager app)) →
  let a := mock env (mocks (essentiaWorker app)) in
  let f' := AudioFile.set_analysis (Some a) f in
  let t1 := Date_now env (clock app) in
  let t2 := Date_now env (S (clock app)) in
  safe_write f' (Some a) t1 t2 (cacheManager app) →
  let app' := (analyzeAndCache env i f app).2 in
  (analyzeAndCache env i f app).1 = Completed () ∧
  audioFiles app' = <[i := f']> (audioFiles app) ∧
  posted (essentiaWorker app') = posted (essentiaWorker app) ∧
  cacheManager app' = Cache.setCachedAnalysis f' (Some a) t1 t2 (cacheManager app) ∧
  ∀ now, (Cache.getCachedAnalysis f now (cacheManager app')).1 = Some a.
Proof.
  intros Hinit Hwf a f' t1 t2 Hsafe app'.
  assert (analyzeAndCache env i f app
          = (Completed (),
             mkApp (Cache.setCachedAnalysis f' (Some a) t1 t2 (cacheManager app))
                   (generateMockAnalysis (mock env)
                      (log WarnNotInitialized (essentiaWorker app))).2
                   (<[i := f']> (audioFiles app)) (audioPlayerUIs app)
                   (processingStatus app) (isLoading app) (S (S (clock app))))) as Heq.
  { unfold analyzeAndCache, analyzeAudio. by rewrite Hinit. }
  subst app'. rewrite Heq. cbn [fst snd audioFiles cacheManager essentiaWorker].
  split_and!; [reflexivity..|].
  intros now. by apply set_get_round.
Qed.

(** C3, as the code has it.  [loadAudioBuffer] answers a failed decode
    with [null], and the batch passes that [null] on: with the worker
    initialised, an analyze request carrying the null buffer is posted for
    the file, and whatever analysis the answer holds is written to the
    cache under the file's key. *)
Theorem undecoded_file_is_posted i f app wk :
  decodeAudio env f = None →
  isInitialized (this (essentiaWorker app)) = true →
  worker (this (essentiaWorker app)) = Some wk →
  let req := mkRequest "analyze" (AnalyzePayload None (AudioFile.name f))
                       (messageId (this (essentiaWorker app))) in
  let t1 := Date_now env (clock app) in
  let t2 := Date_now env (S (clock app)) in
  let app' := (analyzeAndCache env i f app).2 in
  (wk, req) ∈ posted (essentiaWorker app') ∧
  ((analyzeAndCache env i f app).1 = Completed () →
   ∃ a, audioFiles app' = <[i := AudioFile.set_analysis a f]> (audioFiles app) ∧
        cacheManager app'
        = Cache.setCachedAnalysis (AudioFile.set_analysis a f) a t1 t2 (cacheManager app)).
Proof.
  intros Hnull Hinit Hwk req t1 t2 app'.
  pose proof (await_sendMessage_posts (thread env) "analyze"
                (AnalyzePayload None (AudioFile.name f))
                (log (LogSending (AudioFile.name f)) (essentiaWorker app)) wk Hwk) as Hposted.
  subst app'. unfold analyzeAndCache, analyzeAudio, loadAudioBuffer.
  rewrite Hnull, Hinit. simpl negb. cbv iota.
  destruct (await_sendMessage _ _ _ _) as [[[|v|e]|] ww]; simpl in *.
  - split; [done|]. intros [=].
  - split; [done|]. intros _. by eexists.
  - split; [done|]. intros _. by eexists.
  - split; [done|]. intros [=].
Qed.

End SketchClaims.

(** *** The size of the serialised store *)

Section SizeFacts.
Context {Analysis : Type} `{!JSONValue Analysis}.
Import Cache.
Implicit Types (c : CacheStore Analysis) (e : CacheEntry.t Analysis).
Implicit Types (d : JS.obj (CacheEntry.t Analysis)) (l : list string).

Lemma Blob_size_app (s1 s2 : string) :
  JS.Blob_size (s1 +:+ s2) = JS.Blob_size s1 + JS.Blob_size s2.
Proof.
  unfold JS.Blob_size. induction s1 as [|a s1 IH]; simpl String.length; [done|].
  rewrite !Nat2Z.inj_succ, IH. lia.
Qed.

Lemma Blob_size_nonneg (s : string) : 0 ≤ JS.Blob_size s.
Proof. unfold JS.Blob_size. lia. Qed.

(** The bytes of [l.join(",")]: those of the elements and one comma
    between any two. *)
Definition total_size l : Z := foldr (λ s n, JS.Blob_size s + n) 0 l.

Definition commas (n : nat) : Z := Z.max 0 (Z.of_nat n - 1).

Lemma Blob_size_join l :
  JS.Blob_size (JS.join "," l) = total_size l + commas (length l).
Proof.
  unfold commas. induction l as [|x [|y l] IH]; [done | simpl; lia |].
  change (JS.join "," (x :: y :: l)) with (x +:+ "," +:+ JS.join "," (y :: l)).
  rewrite !Blob_size_app, IH. simpl total_size. simpl length.
  change (JS.Blob_size ",") with 1. lia.
Qed.

Lemma Blob_size_object l :
  JS.Blob_size (JS.object l) = 2 + total_size l + commas (length l).
Proof.
  unfold JS.object. rewrite !Blob_size_app, Blob_size_join.
  change (JS.Blob_size "{") with 1. change (JS.Blob_size "}") with 1. lia.
Qed.

Lemma total_size_app l1 l2 : total_size (l1 ++ l2) = total_size l1 + total_size l2.
Proof. induction l1 as [|x l1 IH]; simpl; lia. Qed.

Lemma total_size_nonneg l : 0 ≤ total_size l.
Proof. induction l as [|x l IH]; simpl; [done|]. pose proof (Blob_size_nonneg x). lia. Qed.

(** One member of [data]: the quoted key, a colon, the entry. *)
Definition member_text (kv : string * CacheEntry.t Analysis) : string :=
  JS.QuoteJSONString kv.1 +:+ ":" +:+ stringify_entry kv.2.

Definition members_size d : Z := total_size (member_text <$> d).

Definition data_size d : Z := 2 + members_size d + commas (length d).

Definition version_size (v : option string) : Z :=
  match v with
  | Some v => JS.Blob_size (JS.QuoteJSONString "version" +:+ ":" +:+ JS.QuoteJSONString v) + 1
  | None => 0
  end.

Definition store_size c : Z := 9 + version_size (version c) + data_size (data c).

Lemma Blob_size_stringify_data d : JS.Blob_size (stringify_data d) = data_size d.
Proof.
  assert (stringify_data d = JS.object (member_text <$> d)) as ->.
  { unfold stringify_data. f_equal;
      (induction d as [|kv d IH]; [done|]; simpl; by rewrite IH). }
  unfold data_size, members_size. by rewrite Blob_size_object, length_fmap.
Qed.

(** The bytes [saveCache] measures. *)
Lemma Blob_size_JSON_text c : JS.Blob_size (JSON_text c) = store_size c.
Proof.
  unfold JSON_text, store_size. rewrite Blob_size_object.
  destruct (version c) as [v|]; simpl JS.member; simpl fmap.
  - cbn [app total_size foldr length commas].
    rewrite !Blob_size_app, Blob_size_stringify_data.
    unfold version_size. rewrite !Blob_size_app.
    change (JS.Blob_size (JS.QuoteJSONString "data")) with 6.
    change (JS.Blob_size ":") with 1. unfold commas. simpl length. lia.
  - cbn [app total_size foldr length commas].
    rewrite !Blob_size_app, Blob_size_stringify_data.
    change (JS.Blob_size (JS.QuoteJSONString "data")) with 6.
    change (JS.Blob_size ":") with 1. unfold commas, version_size. simpl length. lia.
Qed.

Lemma members_size_app d1 d2 :
  members_size (d1 ++ d2) = members_size d1 + members_size d2.
Proof. unfold members_size. by rewrite fmap_app, total_size_app. Qed.

Lemma members_size_nonneg d : 0 ≤ members_size d.
Proof. apply total_size_nonneg. Qed.

(** A store with more entries is a longer text. *)
Lemma data_size_app_le d1 d2 : data_size d1 ≤ data_size (d1 ++ d2).
Proof.
  unfold data_size, commas. rewrite members_size_app, length_app.
  pose proof (members_size_nonneg d2). lia.
Qed.

Lemma store_size_app_le v d1 d2 :
  store_size (mkStore v d1) ≤ store_size (mkStore v (d1 ++ d2)).
Proof. unfold store_size. simpl. pose proof (data_size_app_le d1 d2). lia. Qed.

End SizeFacts.

Section EntrySizeFacts.
Context {Analysis : Type} `{!JSONValue Analysis}.
Import Cache.
Implicit Types (e : CacheEntry.t Analysis).

(** The bytes of a quoted string without its two quotes. *)
Definition quote_size (s : string) : Z := JS.Blob_size (JS.quote_body s).

Lemma quote_body_app (s1 s2 : string) :
  JS.quote_body (s1 +:+ s2) = JS.quote_body s1 +:+ JS.quote_body s2.
Proof.
  induction s1 as [|a s1 IH]; [done|].
  change (JS.quote_body (String a s1 +:+ s2))
    with (JS.quote_char a +:+ JS.quote_body (s1 +:+ s2)).
  change (JS.quote_body (String a s1)) with (JS.quote_char a +:+ JS.quote_body s1).
  rewrite IH. generalize (JS.quote_char a). intros q.
  induction q as [|b q IHq]; [done|].
  change (String b q +:+ JS.quote_body s1 +:+ JS.quote_body s2)
    with (String b (q +:+ JS.quote_body s1 +:+ JS.quote_body s2)).
  by rewrite IHq.
Qed.

Lemma quote_size_app (s1 s2 : string) :
  quote_size (s1 +:+ s2) = quote_size s1 + quote_size s2.
Proof. unfold quote_size. by rewrite quote_body_app, Blob_size_app. Qed.

Lemma Blob_size_QuoteJSONString (s : string) :
  JS.Blob_size (JS.QuoteJSONString s) = 2 + quote_size s.
Proof.
  unfold JS.QuoteJSONString, quote_size. rewrite !Blob_size_app.
  change (JS.Blob_size JS.dquote) with 1. lia.
Qed.

(** One member of an entry: the quoted name, a colon, the value. *)
Definition field_size (name : string) (value : Z) : Z :=
  JS.Blob_size (JS.QuoteJSONString name) + 1 + value.

Definition entry_size e : Z :=
  2 + field_size "fileName" (2 + quote_size (CacheEntry.fileName e)) + 1
    + field_size "path" (2 + quote_size (CacheEntry.path e)) + 1
    + field_size "size" (JS.Blob_size (stringify_size (CacheEntry.size e))) + 1
    + match CacheEntry.analysis e with
      | Some a => field_size "analysis" (JS.Blob_size (stringify a)) + 1
      | None => 0
      end
    + field_size "cachedAt" (JS.Blob_size (JS.Number_toString (CacheEntry.cachedAt e))) + 1
    + field_size "lastAccessed"
        (JS.Blob_size (JS.Number_toString (CacheEntry.lastAccessed e))).

Lemma Blob_size_member (name value : string) :
  total_size (JS.member name (Some value)) = field_size name (JS.Blob_size value).
Proof.
  unfold JS.member, field_size. cbn [total_size foldr]. rewrite !Blob_size_app.
  change (JS.Blob_size ":") with 1. lia.
Qed.

Lemma Blob_size_stringify_entry e : JS.Blob_size (stringify_entry e) = entry_size e.
Proof.
  unfold stringify_entry, entry_size.
  rewrite Blob_size_object, !total_size_app, !length_app, !Blob_size_member.
  rewrite !Blob_size_QuoteJSONString.
  destruct (CacheEntry.analysis e) as [a|]; cbn [fmap option_fmap option_map].
  - rewrite Blob_size_member. unfold commas. simpl length. lia.
  - unfold commas. simpl. lia.
Qed.

(** The bytes of one member of [data]. *)
Lemma Blob_size_member_text (kv : string * CacheEntry.t Analysis) :
  JS.Blob_size (member_text kv) = 3 + quote_size kv.1 + entry_size kv.2.
Proof.
  unfold member_text.
  rewrite !Blob_size_app, Blob_size_QuoteJSONString, Blob_size_stringify_entry.
  change (JS.Blob_size ":") with 1. lia.
Qed.

Lemma members_size_cons kv (d : JS.obj (CacheEntry.t Analysis)) :
  members_size (kv :: d) = 3 + quote_size kv.1 + entry_size kv.2 + members_size d.
Proof.
  unfold members_size. rewrite fmap_cons. cbn [total_size foldr].
  by rewrite Blob_size_member_text.
Qed.

End EntrySizeFacts.

(** *** Saving within and beyond the budget *)

Section BudgetFacts.
Context {Analysis : Type} `{!JSONValue Analysis}.
Import Cache.
Implicit Types (w : World Analysis) (m : CacheManager Analysis).
Implicit Types (c : Call Analysis) (calls : list (Call Analysis)).

(** What [localStorage] holds after a successful [setItem]. *)
Definition stored m (ls : LocalStorage Analysis) : LocalStorage Analysis :=
  mkStorage (Some (JSON_stringify (cache m))) (quota ls) false.

(** The store serialises within the size limit and the origin's quota,
    and storage is not refused. *)
Definition affordable m (ls : LocalStorage Analysis) : Prop :=
  denied ls = false ∧
  store_size (cache m) ≤ SIZE_LIMIT ∧
  store_size (cache m) ≤ quota ls.

(** An affordable save writes the store as it is and evicts nothing. *)
Lemma saveCache_affordable w :
  affordable (this w) (localStorage w) →
  saveCache w = log (LogSaved (length (JS.keys (entries (this w)))))
                    (with_storage (stored (this w) (localStorage w)) w).
Proof.
  intros (Hd & Hlimit & Hquota). unfold saveCache, setItem.
  change (text (JSON_stringify (cache (this w)))) with (JSON_text (cache (this w))).
  rewrite Blob_size_JSON_text.
  destruct (_ >? SIZE_LIMIT) eqn:Hgt; [apply Z.gtb_lt in Hgt; exfalso; clear -Hgt Hlimit; lia|].
  rewrite Hd.
  destruct (_ >? quota _) eqn:Hgt'; [apply Z.gtb_lt in Hgt'; exfalso; clear -Hgt' Hquota; lia|].
  done.
Qed.

(** A save that is within the size limit but refused for quota evicts,
    serialises again and retries; when the retry is affordable, storage
    holds the store that is in memory. *)
Lemma saveCache_over_quota w :
  denied (localStorage w) = false →
  store_size (cache (this w)) ≤ SIZE_LIMIT →
  quota (localStorage w) < store_size (cache (this w)) →
  store_size (cache (pruned (this w))) ≤ quota (localStorage w) →
  this (saveCache w) = pruned (this w) ∧
  localStorage (saveCache w) = stored (pruned (this w)) (localStorage w).
Proof.
  intros Hd Hlimit Hover Hfits. unfold saveCache, setItem.
  change (text (JSON_stringify (cache (this w)))) with (JSON_text (cache (this w))).
  rewrite Blob_size_JSON_text.
  destruct (_ >? SIZE_LIMIT) eqn:Hgt; [apply Z.gtb_lt in Hgt; exfalso; clear -Hgt Hlimit; lia|].
  rewrite Hd.
  destruct (_ >? quota _) eqn:Hgt'.
  2:{ rewrite Z.gtb_ltb in Hgt'. apply Z.ltb_ge in Hgt'. exfalso. clear -Hover Hgt'. lia. }
  rewrite pruneCache_storage, pruneCache_this.
  cbn [localStorage log this]. rewrite Hd.
  change (text (JSON_stringify (cache (pruned (this w)))))
    with (JSON_text (cache (pruned (this w)))).
  rewrite Blob_size_JSON_text.
  destruct (store_size (cache (pruned (this w))) >? quota (localStorage w)) eqn:Hgt''; [apply Z.gtb_lt in Hgt''; exfalso; clear -Hgt'' Hfits; lia|].
  done.
Qed.

(** One write whose save is affordable. *)
Lemma setCachedAnalysis_affordable f a t1 t2 w :
  affordable (counted (inserted f a t1 t2 (this w))) (localStorage w) →
  let w' := setCachedAnalysis f a t1 t2 w in
  this w' = counted (inserted f a t1 t2 (this w)) ∧
  localStorage w' = stored (counted (inserted f a t1 t2 (this w))) (localStorage w) ∧
  (quiet w → quiet w').
Proof.
  intros Hfits w'. subst w'. unfold setCachedAnalysis.
  set (w1 := checkCount (assign (generateFileKey f) (newEntry f a t1 t2) w)).
  assert (this w1 = counted (inserted f a t1 t2 (this w))) as Hthis.
  { unfold w1. by rewrite this_checkCount, this_assign. }
  assert (localStorage w1 = localStorage w) as Hls.
  { unfold w1. by rewrite localStorage_checkCount. }
  rewrite saveCache_affordable by (by rewrite Hthis, Hls).
  rewrite !this_log. cbn [this localStorage with_storage log].
  rewrite Hthis, Hls. split_and!; [done..|].
  intros [H1 H2].
  assert (console w1 = console w ∨ ∃ a b, console w1 = console w ++ [LogPruned a b]) as Hc.
  { unfold w1, checkCount. destruct (_ >? _); [right | by left].
    unfold pruneCache. rewrite console_log. eauto. }
  unfold quiet. rewrite !console_log. cbn [console with_storage].
  destruct Hc as [-> | (a' & b' & ->)];
    split; rewrite !elem_of_app, !list_elem_of_singleton; intuition congruence.
Qed.

Lemma setAll_app calls1 calls2 w :
  setAll (calls1 ++ calls2) w = setAll calls2 (setAll calls1 w).
Proof. unfold setAll. by rewrite fold_left_app. Qed.

(** A run of writes with new keys that stays within [maxCacheSize] and
    whose last save is affordable: each write appends its entry and is
    saved, and none evicts. *)
Lemma setAll_affordable calls w :
  NoDup (JS.keys (entries (this w)) ++ JS.keys (written <$> calls)) →
  Z.of_nat (length (entries (this w)) + length calls) ≤ maxCacheSize (this w) →
  let m' := mkManager (storageKey (this w))
              (mkStore (version (cache (this w))) (entries (this w) ++ (written <$> calls)))
              (maxCacheSize (this w)) (cacheVersion (this w)) in
  affordable m' (localStorage w) →
  let w' := setAll calls w in
  this w' = m' ∧
  quota (localStorage w') = quota (localStorage w) ∧
  denied (localStorage w') = false ∧
  (quiet w → quiet w').
Proof.
  induction calls as [|c calls IH] using rev_ind; intros Hnd Hlen m' Hfits w'.
  { subst w' m'. simpl. rewrite app_nil_r. destruct Hfits as (Hd & _).
    split_and!; try done. by destruct (this w) as [? [] ? ?]. }
  subst w' m'. rewrite setAll_snoc. rewrite length_app in Hlen. simpl in Hlen.
  unfold JS.keys in Hnd. rewrite !fmap_app, app_assoc in Hnd. simpl in Hnd.
  apply NoDup_app in Hnd as (Hnd & Hfresh & _).
  destruct Hfits as (Hd & Hlimit & Hquota). cbn [cache] in Hlimit, Hquota.
  rewrite fmap_app, app_assoc in Hlimit, Hquota.
  pose proof (store_size_app_le (version (cache (this w)))
                (entries (this w) ++ (written <$> calls)) (written <$> [c])) as Hle.
  destruct IH as (IHthis & IHq & IHd & IHquiet); [done | lia | |].
  { split_and!; [done | cbn [cache]; lia..]. }
  set (w1 := setAll calls w) in *.
  assert (counted (inserted (file c) (value c) (at1 c) (at2 c) (this w1))
          = mkManager (storageKey (this w))
              (mkStore (version (cache (this w)))
                 ((entries (this w) ++ (written <$> calls)) ++ [written c]))
              (maxCacheSize (this w)) (cacheVersion (this w))) as Hm.
  { assert (inserted (file c) (value c) (at1 c) (at2 c) (this w1)
            = mkManager (storageKey (this w))
                (mkStore (version (cache (this w)))
                   ((entries (this w) ++ (written <$> calls)) ++ [written c]))
                (maxCacheSize (this w)) (cacheVersion (this w))) as Hins.
    { unfold inserted. rewrite IHthis. cbn [storageKey cache version maxCacheSize cacheVersion].
      f_equal. f_equal. unfold entries at 1. cbn [cache data].
      apply set_None, get_None_keys. unfold JS.keys. rewrite fmap_app. intros Hin.
      apply (Hfresh _ Hin). simpl. apply list_elem_of_here. }
    unfold counted. rewrite Hins. unfold entries at 1. cbn [cache data maxCacheSize].
    unfold JS.keys. rewrite length_fmap, !length_app, length_fmap. simpl length.
    destruct (_ >? _) eqn:Hgt; [|done].
    apply Z.gtb_lt in Hgt. unfold entries in *. clear -Hlen Hgt. lia. }
  destruct (setCachedAnalysis_affordable (file c) (value c) (at1 c) (at2 c) w1)
    as (Hthis & Hls & Hquiet).
  { rewrite Hm. split_and!; [done | done | cbn [cache]; by rewrite IHq]. }
  rewrite Hthis, Hls, Hm. rewrite fmap_app, app_assoc.
  split_and!; [done | done | done | auto].
Qed.

(** What a lookup answers depends on the manager only. *)
Lemma getCachedAnalysis_result f now w :
  (getCachedAnalysis f now w).1
  = JS.get (generateFileKey f) (entries (this w)) ≫= CacheEntry.analysis.
Proof. unfold getCachedAnalysis, entries. by destruct (JS.get _ _). Qed.

End BudgetFacts.

Section QuotaFacts.
Context {Analysis : Type} `{!JSONValue Analysis}.
Import Cache.
Implicit Types (w : World Analysis) (m : CacheManager Analysis).

Lemma localStorage_log (x : Log) w : localStorage (log x w) = localStorage w.
Proof. done. Qed.

(** One write whose save is refused for quota and whose retry is
    affordable. *)
Lemma setCachedAnalysis_over_quota f a t1 t2 w :
  let m := counted (inserted f a t1 t2 (this w)) in
  denied (localStorage w) = false →
  store_size (cache m) ≤ SIZE_LIMIT →
  quota (localStorage w) < store_size (cache m) →
  store_size (cache (pruned m)) ≤ quota (localStorage w) →
  this (setCachedAnalysis f a t1 t2 w) = pruned m ∧
  localStorage (setCachedAnalysis f a t1 t2 w) = stored (pruned m) (localStorage w).
Proof.
  intros m Hd Hlimit Hover Hfits. unfold setCachedAnalysis.
  set (w1 := checkCount (assign (generateFileKey f) (newEntry f a t1 t2) w)).
  assert (this w1 = m) as Hthis.
  { unfold w1. by rewrite this_checkCount, this_assign. }
  assert (localStorage w1 = localStorage w) as Hls.
  { unfold w1. by rewrite localStorage_checkCount. }
  destruct (saveCache_over_quota w1) as [H1 H2].
  { by rewrite Hls. }
  { by rewrite Hthis. }
  { by rewrite Hthis, Hls. }
  { by rewrite Hthis, Hls. }
  rewrite this_log, localStorage_log, H1, H2, Hthis, Hls. done.
Qed.

End QuotaFacts.

(** ** More of [CacheManager]: what the methods guarantee *)

Section CacheProperties.
Context {Analysis : Type} `{!JSONValue Analysis}.
Import Cache.
Implicit Types (w : World Analysis) (m : CacheManager Analysis).
Implicit Types (f g : AudioFile.t Analysis).

Lemma JSON_text_not_empty (c : CacheStore Analysis) :
  String.eqb (text (JSON_stringify c)) EmptyString = false.
Proof. done. Qed.

(** X1.  An affordable [saveCache] leaves memory as it is and puts into
    storage the text [JSON.stringify] gives for the store in memory.  On
    storage that holds this text, whatever [JSON.parse] makes of it,
    [new CacheManager()] starts with the parsed value if that carries no
    version member and with an empty store otherwise (also when the parse
    throws).  So when [JSON.parse] gives back the store that was written,
    and that store carries no version member (as every store made by the
    constructor does), the next page load starts with the very same
    store. *)
Theorem saved_store_is_reloaded w (s : StoredText Analysis) q out :
  affordable (this w) (localStorage w) →
  let reloaded := cache (this (constructor (mkStorage (Some s) q false) out)) in
  this (saveCache w) = this w ∧
  item (localStorage (saveCache w)) = Some (JSON_stringify (cache (this w))) ∧
  (text <$> item (localStorage (saveCache w))) = Some (JSON_text (cache (this w))) ∧
  (text s = JSON_text (cache (this w)) →
     reloaded = match JSON_parse s with
                | Some c => match version c with
                            | None => c
                            | Some _ => mkStore None []
                            end
                | None => mkStore None []
                end) ∧
  (text s = JSON_text (cache (this w)) →
   JSON_parse s = Some (cache (this w)) →
   version (cache (this w)) = None →
   reloaded = cache (this w)).
Proof.
  intros Hfits reloaded. rewrite saveCache_affordable by done.
  rewrite this_log. cbn [this localStorage with_storage log stored item].
  assert (text s = JSON_text (cache (this w)) →
          reloaded = match JSON_parse s with
                     | Some c => match version c with
                                 | None => c
                                 | Some _ => mkStore None []
                                 end
                     | None => mkStore None []
                     end) as Hload.
  { intros Htext. unfold reloaded, constructor, loadCache, getItem.
    cbn [localStorage this denied item]. rewrite Htext.
    assert (String.eqb (JSON_text (cache (this w))) EmptyString = false) as ->
      by apply (JSON_text_not_empty (cache (this w))).
    destruct (JSON_parse s) as [[[v|] d]|]; cbn [version cacheVersion this].
    - rewrite bool_decide_eq_true_2 by done. by cbn.
    - rewrite bool_decide_eq_false_2 by (intros H; by apply H). done.
    - done. }
  split_and!; [done..|].
  intros Htext Hparse Hv. rewrite Hload by done. by rewrite Hparse, Hv.
Qed.

(** X2.  A save within the size limit that is refused for quota evicts,
    serialises the store again and retries once.  If the retry is
    accepted, storage holds the store that is in memory; if not, storage
    is left as it was, the second failure is logged, and the eviction
    stays. *)
Theorem saveCache_retries_after_quota_error w :
  denied (localStorage w) = false →
  store_size (cache (this w)) ≤ SIZE_LIMIT →
  quota (localStorage w) < store_size (cache (this w)) →
  let w' := saveCache w in
  this w' = pruned (this w) ∧
  if store_size (cache (pruned (this w))) <=? quota (localStorage w)
  then item (localStorage w') = Some (JSON_stringify (cache (this w')))
  else localStorage w' = localStorage w ∧
       console w' = console w ++ [ErrQuotaExceeded;
                                  LogPruned (length (entries (this w)))
                                            (length (JS.slice (- keepCount (maxCacheSize (this w)))
                                               (JS.sort (λ kv, CacheEntry.lastAccessed kv.2)
                                                        (entries (this w)))));
                                  ErrStillCannotSave].
Proof.
  intros Hd Hlimit Hover w'. subst w'.
  destruct (store_size (cache (pruned (this w))) <=? quota (localStorage w)) eqn:Hretry.
  - apply Z.leb_le in Hretry.
    destruct (saveCache_over_quota w) as [-> ->]; done.
  - apply Z.leb_gt in Hretry. unfold saveCache, setItem.
    change (text (JSON_stringify (cache (this w)))) with (JSON_text (cache (this w))).
    rewrite Blob_size_JSON_text.
    destruct (store_size (cache (this w)) >? SIZE_LIMIT) eqn:Hgt;
      [apply Z.gtb_lt in Hgt; exfalso; clear -Hgt Hlimit; lia|].
    rewrite Hd.
    destruct (store_size (cache (this w)) >? quota (localStorage w)) eqn:Hgt'.
    2:{ rewrite Z.gtb_ltb in Hgt'. apply Z.ltb_ge in Hgt'. exfalso. clear -Hover Hgt'. lia. }
    rewrite pruneCache_storage, pruneCache_this. cbn [localStorage log this]. rewrite Hd.
    change (text (JSON_stringify (cache (pruned (this w)))))
      with (JSON_text (cache (pruned (this w)))).
    rewrite Blob_size_JSON_text.
    destruct (store_size (cache (pruned (this w))) >? quota (localStorage w)) eqn:Hgt''.
    2:{ rewrite Z.gtb_ltb in Hgt''. apply Z.ltb_ge in Hgt''. exfalso. clear -Hretry Hgt''. lia. }
    rewrite this_log, pruneCache_this, this_log. split_and!; [done | done |].
    rewrite console_log. unfold pruneCache. rewrite console_log.
    cbn [console with_data with_cache log]. unfold entries. by rewrite <-!app_assoc.
Qed.

(** X3.  After any write the store holds at most [maxCacheSize] entries,
    whatever it held before (a store loaded from storage may be larger),
    as long as [floor(0.7 * maxCacheSize)] is positive. *)
Theorem setCachedAnalysis_bounds_count f a t1 t2 w :
  wf (this w) →
  0 < keepCount (maxCacheSize (this w)) →
  Z.of_nat (length (entries (this (setCachedAnalysis f a t1 t2 w)))) ≤ maxCacheSize (this w).
Proof.
  intros Hwf HK.
  assert (∀ m, wf m → (length (entries (pruned m)) ≤ length (entries m))%nat) as Hshrink.
  { intros m Hm. rewrite entries_pruned by done. unfold JS.slice.
    rewrite length_drop, length_sort. lia. }
  assert (∀ m, wf m → 0 < keepCount (maxCacheSize m) →
               Z.of_nat (length (entries (pruned m))) ≤ keepCount (maxCacheSize m)) as Hkeep.
  { intros m Hm Hk. rewrite entries_pruned by done. unfold JS.slice.
    rewrite length_drop, length_sort.
    destruct (- keepCount (maxCacheSize m) <? 0) eqn:Hneg; [lia|].
    apply Z.ltb_ge in Hneg. lia. }
  assert (keepCount (maxCacheSize (this w)) ≤ maxCacheSize (this w)) as HKM.
  { apply Math_floor_times_0_7_le. apply Math_floor_times_0_7_pos in HK. lia. }
  destruct (setCachedAnalysis_this f a t1 t2 w) as (w1 & H1 & _ & _ & -> & _).
  pose proof (wf_inserted f a t1 t2 _ Hwf) as Hwfi.
  assert (wf (this w1) ∧ maxCacheSize (this w1) = maxCacheSize (this w) ∧
          Z.of_nat (length (entries (this w1))) ≤ maxCacheSize (this w)) as (Hwf1 & HM1 & Hc1).
  { rewrite H1. unfold counted.
    destruct (_ >? _) eqn:Hgt.
    - split_and!; [by apply wf_pruned | done |].
      etrans; [apply Hkeep; done|]. done.
    - rewrite Z.gtb_ltb in Hgt. apply Z.ltb_ge in Hgt. unfold JS.keys in Hgt.
      rewrite length_fmap in Hgt. done. }
  destruct (saveCache_this w1) as [-> | [-> | ->]].
  - done.
  - pose proof (Hshrink _ Hwf1). lia.
  - pose proof (Hshrink _ Hwf1). pose proof (Hshrink _ (wf_pruned _ Hwf1)). lia.
Qed.

(** X4.  With [maxCacheSize] 0 or 1 the number of entries to keep is 0,
    and [entries.slice(-0)] is the whole array: [pruneCache] then evicts
    nothing (it only puts the entries in the order of [lastAccessed]). *)
Theorem pruneCache_keeps_all_when_keepCount_is_zero m :
  wf m →
  0 ≤ maxCacheSize m ≤ 1 →
  keepCount (maxCacheSize m) = 0 ∧
  entries (pruned m) = JS.sort (λ kv, CacheEntry.lastAccessed kv.2) (entries m) ∧
  entries (pruned m) ≡ₚ entries m.
Proof.
  intros Hwf HM.
  assert (keepCount (maxCacheSize m) = 0) as HK.
  { assert (maxCacheSize m = 0 ∨ maxCacheSize m = 1) as [->| ->] by lia; reflexivity. }
  rewrite entries_pruned, HK by done. change (- 0) with 0. rewrite slice_zero.
  split_and!; [done | done | apply sort_Permutation].
Qed.

(** X5.  [pruneCache] keeps the [Math.floor(maxCacheSize * 0.7)] most
    recently accessed entries (all of them if there are fewer), each under
    its own key, and nothing it drops was accessed later than anything it
    keeps.  The product being one of doubles, that number is
    [floor(7 * maxCacheSize / 10)] or one less: 350 for 500, 62 for 90. *)
Theorem pruneCache_keeps_most_recent m :
  wf m →
  0 < keepCount (maxCacheSize m) →
  let sorted := JS.sort (λ kv, CacheEntry.lastAccessed kv.2) (entries m) in
  let dropped := (length (entries m) - Z.to_nat (keepCount (maxCacheSize m)))%nat in
  entries (pruned m) = drop dropped sorted ∧
  length (entries (pruned m))
  = Nat.min (length (entries m)) (Z.to_nat (keepCount (maxCacheSize m))) ∧
  wf (pruned m) ∧
  entries m ≡ₚ take dropped sorted ++ entries (pruned m) ∧
  (∀ x y, x ∈ take dropped sorted → y ∈ entries (pruned m) →
          CacheEntry.lastAccessed x.2 ≤ CacheEntry.lastAccessed y.2) ∧
  (maxCacheSize m ≤ 2 ^ 51 →
     maxCacheSize m * 7 / 10 - 1 ≤ keepCount (maxCacheSize m) ≤ maxCacheSize m * 7 / 10) ∧
  (maxCacheSize m = 500 → keepCount (maxCacheSize m) = 350) ∧
  (maxCacheSize m = 90 → keepCount (maxCacheSize m) = 62).
Proof.
  intros Hwf HK sorted dropped.
  assert (entries (pruned m) = drop dropped sorted) as Heq.
  { rewrite entries_pruned by done. unfold JS.slice. fold sorted.
    assert ((- keepCount (maxCacheSize m) <? 0) = true) as -> by (apply Z.ltb_lt; lia).
    f_equal. unfold sorted, dropped. rewrite length_sort. lia. }
  rewrite Heq. split_and!.
  - done.
  - rewrite length_drop. unfold sorted, dropped. rewrite length_sort. lia.
  - by apply wf_pruned.
  - rewrite take_drop. unfold sorted. by rewrite sort_Permutation.
  - intros x y Hx Hy.
    pose proof (sort_StronglySorted (λ kv : string * CacheEntry.t Analysis,
                                       CacheEntry.lastAccessed kv.2) (entries m)) as Hs.
    fold sorted in Hs. rewrite <-(take_drop dropped sorted) in Hs.
    apply StronglySorted_app in Hs as (Hle & _ & _). by apply Hle.
  - intros Hmax. apply Math_floor_times_0_7_exact.
    apply Math_floor_times_0_7_pos in HK. lia.
  - intros ->. reflexivity.
  - intros ->. reflexivity.
Qed.

(** X6.  A lookup changes no answer: after [getCachedAnalysis(f)] every
    file is cached exactly if it was before, and a lookup of any file
    returns what it would have returned. *)
Theorem getCachedAnalysis_keeps_answers f g now now' w :
  let w' := (getCachedAnalysis f now w).2 in
  hasCachedAnalysis g w' = hasCachedAnalysis g w ∧
  (getCachedAnalysis g now' w').1 = (getCachedAnalysis g now' w).1.
Proof.
  intros w'. subst w'.
  assert (JS.get (generateFileKey g) (entries (this (getCachedAnalysis f now w).2))
            ≫= CacheEntry.analysis
          = JS.get (generateFileKey g) (entries (this w)) ≫= CacheEntry.analysis ∧
          JS.has (generateFileKey g) (entries (this (getCachedAnalysis f now w).2))
          = JS.has (generateFileKey g) (entries (this w))) as [Hget Hhas].
  { unfold getCachedAnalysis, JS.has.
    destruct (JS.get (generateFileKey f) (data (cache (this w)))) as [e|] eqn:Hf;
      cbn [snd]; rewrite this_log; [|done].
    unfold entries. cbn [this with_data with_cache cache data].
    destruct (decide (generateFileKey g = generateFileKey f)) as [->|Hne].
    - rewrite get_set_eq, Hf. done.
    - by rewrite get_set_ne. }
  split; [done|]. by rewrite !getCachedAnalysis_result.
Qed.

(** X7.  [clearCache()] empties the store in memory whether or not
    storage can be reached: afterwards no file is cached and every lookup
    misses.  If storage is reachable the item is removed and the clearing
    is logged; if not, [removeItem] throws out of [clearCache] and nothing
    is logged. *)
Theorem clearCache_forgets_everything w :
  let err := (clearCache w).1 in
  let w' := (clearCache w).2 in
  cache (this w') = mkStore (cacheVersion (this w)) [] ∧
  (∀ f, hasCachedAnalysis f w' = false) ∧
  (∀ f now, (getCachedAnalysis f now w').1 = None) ∧
  (if denied (localStorage w)
   then err = Some SecurityError ∧ localStorage w' = localStorage w ∧ console w' = console w
   else err = None ∧ item (localStorage w') = None ∧ console w' = console w ++ [LogCleared]).
Proof.
  unfold clearCache, removeItem. cbn [localStorage with_cache].
  destruct (denied (localStorage w)); cbn; done.
Qed.

End CacheProperties.

(** ** More of the batch: what a run of [initializeApp] guarantees *)

Section BatchProperties.
Context {Analysis Signal : Type} `{!JSONValue Analysis}.
Import Channel Sketch.
Context (env : Env Analysis Signal).
Implicit Types (app : App Analysis Signal) (f : AudioFile.t Analysis).
Implicit Types (cm : Cache.World Analysis) (ew : World Analysis Signal).

(** What one turn of the loop does when it completes, beside what it
    does to the managers and the files: one more player, the progress
    counter moved on. *)
Definition turned (i : nat) app app' : Prop :=
  audioPlayerUIs app' = audioPlayerUIs app ++ [i] ∧
  current (processingStatus app') = S i ∧
  total (processingStatus app') = total (processingStatus app) ∧
  cached (processingStatus app') = cached (processingStatus app) ∧
  isLoading app' = isLoading app.

(** The loop of [processRemainingAudioFiles] under an invariant that
    every turn completes and keeps. *)
Lemma processFrom_completes (I : App Analysis Signal → Prop) (l : list nat) app :
  (∀ i a, i ∈ l → I a →
          ∃ a', processOne env i a = (Completed (), a') ∧ I a' ∧ turned i a a') →
  I app →
  ∃ app', processFrom env l app = (Completed (), app') ∧ I app' ∧
          audioPlayerUIs app' = audioPlayerUIs app ++ l ∧
          current (processingStatus app')
          = default (current (processingStatus app)) (S <$> last l) ∧
          total (processingStatus app') = total (processingStatus app) ∧
          cached (processingStatus app') = cached (processingStatus app) ∧
          isLoading app' = isLoading app.
Proof.
  revert app. induction l as [|i l IH]; intros app Hstep HI.
  { exists app. simpl. by rewrite app_nil_r. }
  destruct (Hstep i app) as (a' & Hone & HI' & Hp & Hc & Ht & Hk & Hl);
    [apply list_elem_of_here | done |].
  destruct (IH a') as (app' & Hrest & HI'' & Hp' & Hc' & Ht' & Hk' & Hl'); [|done|].
  { intros j a Hj. apply Hstep. by apply list_elem_of_further. }
  exists app'. simpl. rewrite Hone, Hrest.
  split_and!; [done | done | | | congruence | congruence | congruence].
  - rewrite Hp', Hp, <-app_assoc. done.
  - rewrite Hc', Hc. destruct l as [|j l]; [done|].
    change (last (i :: j :: l)) with (last (j :: l)).
    destruct (last (j :: l)) eqn:E; [done|]. by apply last_None in E.
Qed.

(** With the worker not initialised the [try] block goes straight
    through. *)
Lemma analyzeAndCache_uninitialised i f app :
  isInitialized (this (essentiaWorker app)) = false →
  ∃ cm' a,
    analyzeAndCache env i f app
    = (Completed (),
       mkApp cm'
         (generateMockAnalysis (mock env) (log WarnNotInitialized (essentiaWorker app))).2
         (<[i := AudioFile.set_analysis (Some a) f]> (audioFiles app)) (audioPlayerUIs app)
         (processingStatus app) (isLoading app) (S (S (clock app)))).
Proof.
  intros Hinit. eexists _, _. unfold analyzeAndCache, analyzeAudio. rewrite Hinit.
  reflexivity.
Qed.

(** The managers never see an initialised worker, and nothing is
    posted. *)
Definition idle_worker ew (n : nat) app : Prop :=
  this (essentiaWorker app) = this ew ∧
  posted (essentiaWorker app) = posted ew ∧
  length (audioFiles app) = n.

Lemma idle_worker_useCached ew n i f app :
  idle_worker ew n app → idle_worker ew n (useCached env i f app).
Proof.
  intros (Ht & Hp & Hn). unfold useCached.
  destruct (Cache.getCachedAnalysis _ _ _) as [a cm']. unfold idle_worker. simpl.
  by rewrite length_insert.
Qed.

Lemma idle_worker_analyzeAndCache ew n i f app :
  isInitialized (this ew) = false →
  idle_worker ew n app →
  ∃ app', analyzeAndCache env i f app = (Completed (), app') ∧ idle_worker ew n app' ∧
          audioPlayerUIs app' = audioPlayerUIs app ∧
          processingStatus app' = processingStatus app ∧ isLoading app' = isLoading app.
Proof.
  intros Hinit (Ht & Hp & Hn).
  destruct (analyzeAndCache_uninitialised i f app) as (cm' & a & ->); [by rewrite Ht|].
  eexists. split; [done|]. unfold idle_worker. simpl. by rewrite length_insert.
Qed.

Lemma idle_worker_processOne ew n i app :
  isInitialized (this ew) = false →
  (i < n)%nat →
  idle_worker ew n app →
  ∃ app', processOne env i app = (Completed (), app') ∧ idle_worker ew n app' ∧
          turned i app app'.
Proof.
  intros Hinit Hi HI. unfold processOne.
  destruct (lookup_lt_is_Some_2 (audioFiles app) i) as [f ->].
  { destruct HI as (_ & _ & ->). done. }
  destruct (Cache.hasCachedAnalysis f (cacheManager app)).
  - eexists. split; [done|]. split; [|done]. by destruct HI as (? & ? & ?).
  - destruct (idle_worker_analyzeAndCache ew n i f app Hinit HI)
      as (app' & -> & (Ht & Hp & Hn) & Hpl & Hst & Hl).
    eexists. split; [done|]. split; [done|].
    unfold turned. simpl. by rewrite Hpl, Hst, Hl.
Qed.

Lemma checkCached_plain i app :
  audioPlayerUIs (checkCached env app i) = audioPlayerUIs app ∧
  current (processingStatus (checkCached env app i)) = current (processingStatus app) ∧
  isLoading (checkCached env app i) = isLoading app.
Proof.
  unfold checkCached. destruct (audioFiles app !! i) as [f|]; [|done].
  destruct (Cache.hasCachedAnalysis f (cacheManager app)); [|done].
  unfold useCached. by destruct (Cache.getCachedAnalysis _ _ _) as [a cm'].
Qed.

Lemma idle_worker_checkCached ew n i app :
  idle_worker ew n app → idle_worker ew n (checkCached env app i).
Proof.
  intros HI. unfold checkCached. destruct (audioFiles app !! i) as [f|]; [|done].
  destruct (Cache.hasCachedAnalysis f (cacheManager app)); [|done].
  apply (idle_worker_useCached ew n i f) in HI. by destruct HI as (? & ? & ?).
Qed.

Lemma fold_checkCached_plain (I : App Analysis Signal → Prop) (l : list nat) app :
  (∀ i a, I a → I (checkCached env a i)) →
  I app →
  let app' := fold_left (checkCached env) l app in
  I app' ∧ audioPlayerUIs app' = audioPlayerUIs app ∧
  current (processingStatus app') = current (processingStatus app) ∧
  isLoading app' = isLoading app.
Proof.
  intros Hstep. revert app. induction l as [|i l IH]; intros app HI; simpl; [done|].
  destruct (checkCached_plain i app) as (H2 & H3 & H4).
  destruct (IH _ (Hstep i app HI)) as (? & ? & ? & ?).
  split_and!; [done | congruence..].
Qed.

(** X13.  With the worker never initialised the batch runs to its end
    whatever the dataset and the cache: it is never left waiting, posts
    nothing to a worker, ends with one player per file in the order of
    the dataset, the progress counter at the number of files and the
    loading screen off. *)
Theorem batch_without_worker_completes cm ew files :
  isInitialized (this ew) = false →
  ∃ app,
    initializeApp env cm ew files = (Completed (), app) ∧
    this (essentiaWorker app) = this ew ∧
    posted (essentiaWorker app) = posted ew ∧
    audioPlayerUIs app = seq 0 (length files) ∧
    length (audioFiles app) = length files ∧
    current (processingStatus app) = length files ∧
    isLoading app = false.
Proof.
  intros Hinit. unfold initializeApp.
  set (n := length files).
  set (app0 := mkApp cm ew files [] (mkStatus 0 n 0) true 0).
  assert (idle_worker ew n app0) as H0 by done.
  destruct (fold_checkCached_plain (idle_worker ew n) (seq 0 n) app0) as (H1 & Hp1 & Hc1 & Hl1);
    [intros; by apply idle_worker_checkCached | done |].
  set (app1 := fold_left (checkCached env) (seq 0 n) app0) in *. clearbody app1.
  destruct files as [|f0 files].
  { simpl in n. subst n. destruct H1 as (Ht & Hp & Hn).
    unfold processRemainingAudioFiles. cbn [audioFiles]. rewrite Hn. simpl.
    eexists. split; [done|]. simpl. by rewrite Hp1, Hc1, Hn. }
  assert (∃ app2, processFirstAudioFile env app1 = (Completed (), app2) ∧
                  idle_worker ew n app2 ∧ audioPlayerUIs app2 = [0%nat] ∧
                  isLoading app2 = true) as (app2 & -> & H2 & Hp2 & Hl2).
  { unfold processFirstAudioFile. cbn [audioFiles].
    destruct (lookup_lt_is_Some_2 (audioFiles app1) 0) as [f ->].
    { destruct H1 as (_ & _ & ->). unfold n. simpl. lia. }
    cbn [cacheManager].
    destruct (Cache.hasCachedAnalysis f (cacheManager app1)).
    - eexists. split; [done|].
      pose proof (idle_worker_useCached ew n 0 f _ H1) as Hu.
      unfold useCached in *. cbn [cacheManager clock audioFiles essentiaWorker] in *.
      destruct (Cache.getCachedAnalysis _ _ _) as [a cm']. simpl. done.
    - set (app1' := mkApp _ _ _ [] _ _ _).
      destruct (idle_worker_analyzeAndCache ew n 0 f app1' Hinit)
        as (app' & -> & HI & Hpl & Hst & Hl); [by destruct H1 as (? & ? & ?)|].
      eexists. split; [done|]. split; [by destruct HI as (? & ? & ?)|].
      simpl. rewrite Hpl, Hl. done. }
  cbv beta iota.
  set (app3 := mkApp _ _ _ _ _ false _).
  assert (idle_worker ew n app3) as H3 by (by destruct H2 as (? & ? & ?)).
  unfold processRemainingAudioFiles.
  assert (length (audioFiles app3) = n) as -> by (by destruct H3 as (_ & _ & ?)).
  destruct (processFrom_completes (idle_worker ew n) (seq 1 (n - 1)) app3)
    as (app4 & -> & (Ht & Hp & Hn) & Hp4 & Hc4 & _ & _ & Hl4); [|done|].
  { intros i a Hi. apply idle_worker_processOne; [done|].
    apply elem_of_seq in Hi. unfold n in *. simpl in *. lia. }
  exists app4. split_and!; try done.
  - rewrite Hp4. unfold app3. simpl. rewrite Hp2. unfold n. simpl. by rewrite Nat.sub_0_r.
  - rewrite Hc4. unfold app3. simpl. unfold n. simpl. rewrite Nat.sub_0_r.
    destruct files as [|f1 files]; [done|].
    change (seq 1 (length (f1 :: files))) with (seq 1 (S (length files))).
    rewrite seq_S, last_snoc. simpl. done.
Qed.

End BatchProperties.

Section CachedBatch.
Context {Analysis Signal : Type} `{!JSONValue Analysis}.
Import Channel Sketch.
Context (env : Env Analysis Signal).
Implicit Types (app : App Analysis Signal) (f : AudioFile.t Analysis).
Implicit Types (cm : Cache.World Analysis) (ew : World Analysis Signal).

(** What the cache of [cm] answers for a file, and the file with that
    answer as its analysis. *)
Definition cachedOf cm f : option Analysis :=
  JS.get (Cache.generateFileKey f) (entries (Cache.this cm)) ≫= CacheEntry.analysis.

Definition restored cm f : AudioFile.t Analysis :=
  AudioFile.set_analysis (cachedOf cm f) f.

(** Two managers on the same storage that hold the same keys in the same
    order and answer every lookup alike. *)
Definition same_answers cm cm' : Prop :=
  Cache.localStorage cm' = Cache.localStorage cm ∧
  JS.keys (entries (Cache.this cm')) = JS.keys (entries (Cache.this cm)) ∧
  ∀ k, JS.get k (entries (Cache.this cm')) ≫= CacheEntry.analysis
       = JS.get k (entries (Cache.this cm)) ≫= CacheEntry.analysis.

Lemma has_keys {V} k (o : JS.obj V) : JS.has k o = true ↔ k ∈ JS.keys o.
Proof.
  unfold JS.has. destruct (JS.get k o) as [v|] eqn:Hget.
  - split; [intros _; by apply get_Some_keys in Hget | done].
  - apply get_None_keys in Hget. split; [done | intros H; by apply Hget in H].
Qed.

Lemma same_answers_has cm cm' f :
  same_answers cm cm' → Cache.hasCachedAnalysis f cm' = Cache.hasCachedAnalysis f cm.
Proof.
  intros (_ & Hkeys & _). unfold Cache.hasCachedAnalysis.
  pose proof (has_keys (Cache.generateFileKey f) (Cache.data (Cache.cache (Cache.this cm')))) as H1.
  pose proof (has_keys (Cache.generateFileKey f) (Cache.data (Cache.cache (Cache.this cm)))) as H2.
  unfold entries in Hkeys. rewrite Hkeys in H1.
  destruct (JS.has _ (Cache.data (Cache.cache (Cache.this cm')))),
           (JS.has _ (Cache.data (Cache.cache (Cache.this cm)))); try done.
  - symmetry. apply H2, H1. done.
  - apply H1, H2. done.
Qed.

Lemma same_answers_get cm cm' f now :
  same_answers cm cm' →
  (Cache.getCachedAnalysis f now cm').1 = cachedOf cm f ∧
  same_answers cm (Cache.getCachedAnalysis f now cm').2.
Proof.
  intros (Hls & Hkeys & Hget). split.
  { rewrite getCachedAnalysis_result. apply Hget. }
  unfold Cache.getCachedAnalysis.
  destruct (JS.get (Cache.generateFileKey f) (Cache.data (Cache.cache (Cache.this cm'))))
    as [e|] eqn:Hf; cbn [snd]; [|done].
  unfold same_answers, entries in *.
  cbn [Cache.localStorage Cache.this Cache.log Cache.with_data Cache.with_cache
       Cache.cache Cache.data].
  split_and!; [done | |].
  - rewrite <-Hkeys. by apply keys_set_Some with e.
  - intros k. rewrite <-Hget. destruct (decide (k = Cache.generateFileKey f)) as [->|Hne].
    + by rewrite get_set_eq, Hf.
    + by rewrite get_set_ne.
Qed.

Lemma cachedOf_restored cm a f : cachedOf cm (AudioFile.set_analysis a f) = cachedOf cm f.
Proof. done. Qed.

Lemma restored_restored cm f :
  AudioFile.set_analysis (cachedOf cm f) (restored cm f) = restored cm f.
Proof. done. Qed.

(** The state of the [forEach] of [initializeApp] after [k] files, all
    of them cached. *)
Definition checked cm ew (files : list (AudioFile.t Analysis)) (k : nat) app : Prop :=
  essentiaWorker app = ew ∧
  same_answers cm (cacheManager app) ∧
  audioFiles app = (restored cm <$> take k files) ++ drop k files ∧
  audioPlayerUIs app = [] ∧
  processingStatus app = mkStatus 0 (length files) k ∧
  isLoading app = true.

Lemma checked_step cm ew files k app :
  (∀ f, f ∈ files → Cache.hasCachedAnalysis f cm = true) →
  (k < length files)%nat →
  checked cm ew files k app → checked cm ew files (S k) (checkCached env app k).
Proof.
  intros Hall Hk (Hew & Hsame & Hfiles & Hpl & Hst & Hl).
  destruct (lookup_lt_is_Some_2 files k Hk) as [f Hf].
  assert (audioFiles app !! k = Some f) as Hlook.
  { rewrite Hfiles, lookup_app_r; rewrite length_fmap, length_take_le by lia; [|done].
    by rewrite Nat.sub_diag, lookup_drop, Nat.add_0_r. }
  unfold checkCached. rewrite Hlook.
  rewrite (same_answers_has cm) by done.
  rewrite Hall by (by eapply list_elem_of_lookup_2).
  unfold useCached.
  destruct (same_answers_get cm (cacheManager app) f (Date_now env (clock app)) Hsame)
    as [Ha Hsame'].
  destruct (Cache.getCachedAnalysis _ _ _) as [a cm']. cbn [fst snd] in *. subst a.
  unfold checked. cbn [essentiaWorker cacheManager audioFiles audioPlayerUIs
                       processingStatus isLoading current total cached].
  rewrite Hst. cbn [current total cached].
  split_and!; try done.
  rewrite Hfiles, (take_S_r _ _ f), (drop_S _ f k), fmap_app by done.
  rewrite <-app_assoc. simpl.
  assert (k = (length (restored cm <$> take k files) + 0)%nat) as Hlen.
  { rewrite length_fmap, length_take_le by lia. lia. }
  rewrite Hlen at 1. by rewrite insert_app_r.
Qed.

Lemma checked_fold cm ew files k app :
  (∀ f, f ∈ files → Cache.hasCachedAnalysis f cm = true) →
  (k ≤ length files)%nat →
  checked cm ew files 0 app →
  checked cm ew files k (fold_left (checkCached env) (seq 0 k) app).
Proof.
  intros Hall. induction k as [|k IH]; intros Hk H0; [done|].
  rewrite seq_S, fold_left_app. simpl. apply checked_step; [done | lia |].
  apply IH; [lia | done].
Qed.

(** The state of the batch once every file has its analysis from the
    cache. *)
Definition served cm ew (files : list (AudioFile.t Analysis)) app : Prop :=
  essentiaWorker app = ew ∧
  same_answers cm (cacheManager app) ∧
  audioFiles app = restored cm <$> files.

Lemma served_processOne cm ew files i app :
  (∀ f, f ∈ files → Cache.hasCachedAnalysis f cm = true) →
  (i < length files)%nat →
  served cm ew files app →
  ∃ app', processOne env i app = (Completed (), app') ∧ served cm ew files app' ∧
          turned i app app'.
Proof.
  intros Hall Hi (Hew & Hsame & Hfiles).
  destruct (lookup_lt_is_Some_2 files i Hi) as [f Hf].
  unfold processOne. rewrite Hfiles, list_lookup_fmap, Hf. simpl.
  rewrite (same_answers_has cm) by done.
  change (Cache.hasCachedAnalysis (restored cm f) cm) with (Cache.hasCachedAnalysis f cm).
  rewrite Hall by (by eapply list_elem_of_lookup_2).
  eexists. split; [done|]. split; [|done]. done.
Qed.

(** X14.  When every file of the dataset is in the cache the batch
    analyses nothing: the worker manager is left exactly as it was (no
    request, no mock), storage is not written, each file gets the
    analysis the cache held for it, and the cache keeps its keys.  The
    batch ends with one player per file in order, all files counted as
    cached. *)
Theorem batch_served_from_cache cm ew files :
  (∀ f, f ∈ files → Cache.hasCachedAnalysis f cm = true) →
  ∃ app,
    initializeApp env cm ew files = (Completed (), app) ∧
    essentiaWorker app = ew ∧
    Cache.localStorage (cacheManager app) = Cache.localStorage cm ∧
    JS.keys (entries (Cache.this (cacheManager app))) = JS.keys (entries (Cache.this cm)) ∧
    audioFiles app = restored cm <$> files ∧
    audioPlayerUIs app = seq 0 (length files) ∧
    processingStatus app = mkStatus (length files) (length files) (length files) ∧
    isLoading app = false.
Proof.
  intros Hall. unfold initializeApp.
  set (n := length files).
  set (app0 := mkApp cm ew files [] (mkStatus 0 n 0) true 0).
  assert (checked cm ew files 0 app0) as H0.
  { unfold checked, app0. simpl. rewrite drop_0. by split_and!. }
  pose proof (checked_fold cm ew files n app0 Hall (le_n _) H0)
    as (Hew & Hsame & Hfiles & Hpl & Hst & Hl).
  set (app1 := fold_left (checkCached env) (seq 0 n) app0) in *. clearbody app1.
  unfold n in Hfiles. rewrite firstn_all, drop_all, app_nil_r in Hfiles.
  destruct files as [|f0 files].
  { simpl in n. subst n. unfold processRemainingAudioFiles. cbn [audioFiles].
    rewrite Hfiles. simpl. eexists. split; [done|]. simpl.
    destruct Hsame as (? & ? & ?). by rewrite Hpl, Hst. }
  assert (processFirstAudioFile env app1
          = (Completed (),
             mkApp (Cache.getCachedAnalysis (restored cm f0) (Date_now env (clock app1))
                      (cacheManager app1)).2
                   ew (restored cm <$> (f0 :: files)) [0%nat]
                   (processingStatus app1) true (S (clock app1)))) as ->.
  { unfold processFirstAudioFile. cbn [audioFiles cacheManager]. rewrite Hfiles.
    change ((restored cm <$> (f0 :: files)) !! 0%nat) with (Some (restored cm f0)).
    cbv beta iota. rewrite (same_answers_has cm) by done.
    change (Cache.hasCachedAnalysis (restored cm f0) cm) with (Cache.hasCachedAnalysis f0 cm).
    rewrite Hall by apply list_elem_of_here.
    unfold useCached. cbn [cacheManager clock audioFiles essentiaWorker audioPlayerUIs
                           processingStatus isLoading].
    destruct (same_answers_get cm (cacheManager app1) (restored cm f0)
                (Date_now env (clock app1)) Hsame) as [Ha _].
    destruct (Cache.getCachedAnalysis _ _ _) as [a cm']. cbn [fst snd] in *. subst a.
    unfold pushPlayer. cbn [cacheManager clock audioFiles essentiaWorker audioPlayerUIs
                            processingStatus isLoading].
    rewrite Hew, Hl. done. }
  cbv beta iota.
  set (app3 := mkApp _ _ _ _ _ false _).
  assert (served cm ew (f0 :: files) app3) as H3.
  { unfold served, app3. cbn [essentiaWorker cacheManager audioFiles setCurrent].
    split_and!; [done | | done].
    by apply (same_answers_get cm (cacheManager app1) (restored cm f0)). }
  unfold processRemainingAudioFiles.
  assert (length (audioFiles app3) = n) as ->.
  { destruct H3 as (_ & _ & ->). by rewrite length_fmap. }
  destruct (processFrom_completes env (served cm ew (f0 :: files)) (seq 1 (n - 1)) app3)
    as (app4 & -> & (Hew4 & Hsame4 & Hfiles4) & Hp4 & Hc4 & Ht4 & Hk4 & Hl4); [|done|].
  { intros i a Hi. apply served_processOne; [done|].
    apply elem_of_seq in Hi. unfold n in *. simpl in *. lia. }
  exists app4. destruct Hsame4 as (Hls4 & Hkeys4 & _).
  split_and!; try done.
  - rewrite Hp4. unfold app3. simpl. unfold n. simpl. by rewrite Nat.sub_0_r.
  - destruct (processingStatus app4) as [c t k]. cbn [current total cached] in *.
    subst c t k. unfold app3. cbn [processingStatus setCurrent current total cached].
    rewrite Hst. cbn [current total cached]. f_equal.
    unfold n. simpl. rewrite Nat.sub_0_r.
    destruct files as [|f1 files]; [done|].
    change (seq 1 (length (f1 :: files))) with (seq 1 (S (length files))).
    by rewrite seq_S, last_snoc.
Qed.

End CachedBatch.

(** ** The statistics and the debugging helpers *)

Section ToolsProperties.
Context {Analysis : Type} `{!JSONValue Analysis} `{!JSONPretty Analysis}.
Import Cache CacheTools.
Implicit Types (w : World Analysis) (c : CacheStore Analysis).

Lemma Math_min_spec (t : Z) (ts : list Z) :
  (∀ x, x ∈ t :: ts → Math_min t ts ≤ x) ∧ Math_min t ts ∈ t :: ts.
Proof.
  unfold Math_min. revert t. induction ts as [|u ts IH]; intros t; simpl.
  - split; [|apply list_elem_of_here]. by intros x ->%list_elem_of_singleton.
  - destruct (IH (Z.min t u)) as [Hle Hin]. split.
    + intros x Hx. assert (fold_left Z.min ts (Z.min t u) ≤ Z.min t u) as Hm.
      { apply Hle, list_elem_of_here. }
      apply elem_of_cons in Hx as [->|Hx]; [lia|].
      apply elem_of_cons in Hx as [->|Hx]; [lia|].
      apply Hle. by apply list_elem_of_further.
    + apply elem_of_cons in Hin as [->|Hin].
      * destruct (Z.min_spec t u) as [[_ ->]|[_ ->]];
          [apply list_elem_of_here | apply list_elem_of_further, list_elem_of_here].
      * by do 2 apply list_elem_of_further.
Qed.

Lemma Math_max_spec (t : Z) (ts : list Z) :
  (∀ x, x ∈ t :: ts → x ≤ Math_max t ts) ∧ Math_max t ts ∈ t :: ts.
Proof.
  unfold Math_max. revert t. induction ts as [|u ts IH]; intros t; simpl.
  - split; [|apply list_elem_of_here]. by intros x ->%list_elem_of_singleton.
  - destruct (IH (Z.max t u)) as [Hle Hin]. split.
    + intros x Hx. assert (Z.max t u ≤ fold_left Z.max ts (Z.max t u)) as Hm.
      { apply Hle, list_elem_of_here. }
      apply elem_of_cons in Hx as [->|Hx]; [lia|].
      apply elem_of_cons in Hx as [->|Hx]; [lia|].
      apply Hle. by apply list_elem_of_further.
    + apply elem_of_cons in Hin as [->|Hin].
      * destruct (Z.max_spec t u) as [[_ ->]|[_ ->]];
          [apply list_elem_of_further, list_elem_of_here | apply list_elem_of_here].
      * by do 2 apply list_elem_of_further.
Qed.

(** The fraction digits of [toFixed(2)] are always two. *)
Lemma padStart2_two (k : Z) :
  0 ≤ k < 100 → String.length (padStart2 (JS.Number_toString k)) = 2%nat.
Proof.
  intros Hk.
  assert (forallb (λ i, Nat.eqb (String.length (padStart2 (JS.Number_toString (Z.of_nat i)))) 2)
                  (seq 0 100) = true) as Hall by reflexivity.
  rewrite forallb_forall in Hall. specialize (Hall (Z.to_nat k)).
  rewrite Z2Nat.id in Hall by lia. apply Nat.eqb_eq, Hall, in_seq. lia.
Qed.

(** X15.  [getCacheStats()] counts the entries; for an empty store
    every other field is zero or null; otherwise [cacheSize] is the very
    number that [saveCache] compares with its limit, [oldestEntry] and
    [newestEntry] are the least and the greatest [cachedAt] in the store
    (each attained by an entry), and [cacheSizeMB] shows the size in
    MiB rounded to the nearest hundredth, with two fraction digits. *)
Theorem getCacheStats_summary w :
  let stats := getCacheStats w in
  let stamps := CacheEntry.cachedAt <$> (entries (this w)).*2 in
  totalEntries stats = length (entries (this w)) ∧
  match stamps with
  | [] => stats = mkStats 0 0 None None None
  | _ :: _ =>
      cacheSize stats = store_size (cache (this w)) ∧
      (∃ lo hi, oldestEntry stats = Some lo ∧ newestEntry stats = Some hi ∧
                lo ∈ stamps ∧ hi ∈ stamps ∧ ∀ x, x ∈ stamps → lo ≤ x ≤ hi) ∧
      ∃ n, cacheSizeMB stats
           = Some (JS.Number_toString (n / 100) +:+ "." +:+
                   padStart2 (JS.Number_toString (n mod 100))) ∧
           String.length (padStart2 (JS.Number_toString (n mod 100))) = 2%nat ∧
           Z.abs (100 * cacheSize stats - n * 1048576) ≤ 524288
  end.
Proof.
  intros stats stamps. subst stats stamps. unfold getCacheStats, entries.
  destruct (CacheEntry.cachedAt <$> (data (cache (this w))).*2) as [|t ts] eqn:Hst.
  { split; [|done]. apply fmap_nil_inv in Hst. apply fmap_nil_inv in Hst. by rewrite Hst. }
  cbn [totalEntries cacheSize cacheSizeMB oldestEntry newestEntry].
  change (text (JSON_stringify (cache (this w)))) with (JSON_text (cache (this w))).
  rewrite Blob_size_JSON_text, length_fmap.
  split_and!; [done | done | |].
  - destruct (Math_min_spec t ts) as [Hlo Hlo'], (Math_max_spec t ts) as [Hhi Hhi'].
    exists (Math_min t ts), (Math_max t ts). split_and!; try done.
    intros x Hx. split; [by apply Hlo | by apply Hhi].
  - set (size := store_size (cache (this w))).
    exists ((200 * size + 1048576) / 2097152). split_and!.
    + done.
    + apply padStart2_two. apply Z.mod_pos_bound. lia.
    + clearbody size. Z.div_mod_to_equations. lia.
Qed.

(** The operations of a manager that leave the version tags alone. *)
Inductive Op :=
| OpSet (c : Call Analysis)
| OpGet (f : AudioFile.t Analysis) (now : Z)
| OpSave
| OpPrune.

Definition perform (w : World Analysis) (op : Op) : World Analysis :=
  match op with
  | OpSet c => setCachedAnalysis (file c) (value c) (at1 c) (at2 c) w
  | OpGet f now => (getCachedAnalysis f now w).2
  | OpSave => saveCache w
  | OpPrune => pruneCache w
  end.

(** The tags of a manager: the version in the store and the running
    version. *)
Definition tags (m : CacheManager Analysis) : option string * option string :=
  (version (cache m), cacheVersion m).

Lemma tags_pruned m : tags (pruned m) = tags m.
Proof. done. Qed.

Lemma tags_saveCache w : tags (this (saveCache w)) = tags (this w).
Proof. by destruct (saveCache_this w) as [-> | [-> | ->]]. Qed.

Lemma tags_perform w op : tags (this (perform w op)) = tags (this w).
Proof.
  destruct op as [c|f now| |]; simpl perform.
  - destruct (setCachedAnalysis_this (file c) (value c) (at1 c) (at2 c) w)
      as (w1 & H1 & _ & _ & -> & _).
    rewrite tags_saveCache, H1. unfold counted. by destruct (_ >? _).
  - unfold getCachedAnalysis. by destruct (JS.get _ _).
  - apply tags_saveCache.
  - done.
Qed.

Lemma tags_constructor (ls : LocalStorage Analysis) out :
  tags (this (constructor ls out)) = (None, Some "1.0").
Proof.
  unfold constructor, loadCache, getItem. cbn [localStorage].
  destruct (denied ls); [reflexivity|]. destruct (item ls) as [stored|]; [|reflexivity].
  destruct (String.eqb _ _); [reflexivity|].
  destruct (JSON_parse stored) as [c|]; [|reflexivity].
  cbn [this cacheVersion].
  destruct (bool_decide (version c ≠ None)) eqn:Hv.
  - unfold clearCache, removeItem. cbn [localStorage with_cache log].
    destruct (denied ls); reflexivity.
  - apply bool_decide_eq_false in Hv. unfold tags. cbn.
    destruct (version c); [|done]. exfalso. by apply Hv.
Qed.

(** X16.  A manager refuses its own export.  The store of a manager made
    by the constructor never has a version member, whatever is written,
    looked up, saved or evicted afterwards, while [importCache] demands
    the running version "1.0": [importCache(exportCache())] returns
    [false] and changes nothing.  Only after [clearCache()] does the
    store carry the running version, and then its export is accepted. *)
Theorem own_export_is_refused (ls : LocalStorage Analysis) out (ops : list Op) :
  let w := fold_left perform ops (constructor ls out) in
  let w' := (clearCache w).2 in
  importCache (exportCache w) w = ((false, ErrVersionMismatch), w) ∧
  (importCache (exportCache w') w').1 = (true, LogImported).
Proof.
  intros w w'.
  assert (tags (this w) = (None, Some "1.0")) as Htags.
  { subst w. induction ops as [|op ops IH] using rev_ind; [apply tags_constructor|].
    rewrite fold_left_app. cbn [fold_left]. by rewrite tags_perform. }
  injection Htags as Hv Hcv. split.
  - unfold importCache, exportCache. cbn [JSON_parse parsed].
    rewrite Hv, Hcv. done.
  - subst w'. unfold clearCache, removeItem, importCache, exportCache.
    cbn [JSON_parse parsed localStorage with_cache].
    destruct (denied (localStorage w)); cbn; rewrite bool_decide_eq_true_2; done.
Qed.

(** X17.  [importCache(jsonString)].  A text on which [JSON.parse]
    throws, or whose version is not the running one, is refused and
    nothing changes.  An accepted store replaces the one in memory
    (nothing is merged) and is saved at once; when that save is
    affordable, memory and storage both hold exactly the imported
    store. *)
Theorem importCache_outcomes (s : StoredText Analysis) w :
  match JSON_parse s with
  | None => importCache s w = ((false, ErrImporting), w)
  | Some c =>
      if bool_decide (version c = cacheVersion (this w))
      then importCache s w = ((true, LogImported), saveCache (with_cache c w)) ∧
           (affordable (this (with_cache c w)) (localStorage w) →
            cache (this (importCache s w).2) = c ∧
            item (localStorage (importCache s w).2) = Some (JSON_stringify c))
      else importCache s w = ((false, ErrVersionMismatch), w)
  end.
Proof.
  unfold importCache. destruct (JSON_parse s) as [c|]; [|done].
  destruct (bool_decide _); [|done]. split; [done|]. intros Hfits.
  cbn [snd]. rewrite saveCache_affordable by done. done.
Qed.

End ToolsProperties.

(** ** Keys, the wheel, playback and the dataset *)

(** The character [c] does not occur in [s]. *)
Fixpoint free_of (c : ascii) (s : string) : Prop :=
  match s with
  | EmptyString => True
  | String a s' => a ≠ c ∧ free_of c s'
  end.

Lemma string_app_nil s : "" +:+ s = s.
Proof. reflexivity. Qed.

Lemma string_app_cons a p s : String a p +:+ s = String a (p +:+ s).
Proof. reflexivity. Qed.

Section KeyProperties.
Context {Analysis : Type}.
Implicit Types (f g : AudioFile.t Analysis).

Lemma free_of_string_of_uint d : free_of "_" (NilEmpty.string_of_uint d).
Proof. induction d; cbn; done. Qed.

Lemma free_of_Number_toString n : free_of "_" (JS.Number_toString n).
Proof.
  unfold JS.Number_toString, NilZero.string_of_int, NilZero.string_of_uint.
  destruct (Z.to_int n) as [d|d]; [|split; [done|]];
    (destruct d; [cbn; done|apply free_of_string_of_uint ..]).
Qed.

Lemma free_of_size_to_string s : free_of "_" (size_to_string s).
Proof.
  destruct s as [n|]; [apply free_of_Number_toString|].
  cbn. repeat split; done.
Qed.

Lemma not_free_of_app p s : ¬ free_of "_" (p +:+ "_" +:+ s).
Proof.
  induction p as [|a p IH]; rewrite ?string_app_nil, ?string_app_cons, ?string_app_nil;
    intros [H1 H2]; [done|by apply IH].
Qed.

Lemma last_underscore p1 p2 s1 s2 :
  free_of "_" s1 → free_of "_" s2 →
  p1 +:+ "_" +:+ s1 = p2 +:+ "_" +:+ s2 → p1 = p2 ∧ s1 = s2.
Proof.
  revert p2. induction p1 as [|a p1 IH]; intros [|b p2] H1 H2 H;
    rewrite ?string_app_nil, ?string_app_cons, ?string_app_nil in H.
  - by injection H as ->.
  - injection H as <- ->. by apply not_free_of_app in H1.
  - injection H as -> <-. by apply not_free_of_app in H2.
  - injection H as -> H. destruct (IH p2 H1 H2 H) as [-> ->]. done.
Qed.

(** X21.  Two files get the same cache key exactly when they have the
    same path and the same size: whatever the paths are (they may hold
    underscores and digits themselves), the text of a size holds no
    underscore, so a key is cut in one way only. *)
Theorem generateFileKey_injective f g :
  Cache.generateFileKey f = Cache.generateFileKey g
  ↔ AudioFile.path f = AudioFile.path g ∧ AudioFile.size f = AudioFile.size g.
Proof.
  unfold Cache.generateFileKey. split.
  - intros H. apply last_underscore in H as [Hp Hs];
      [|apply free_of_size_to_string ..].
    split; [done|]. by apply size_to_string_inj.
  - by intros [-> ->].
Qed.

End KeyProperties.

Section WheelProperties.
Import Wheel.

Lemma keyPositions_keys : JS.keys keyPositions = keys.
Proof. reflexivity. Qed.

Lemma get_keyPositions_None (key : string) :
  key ∉ keys → JS.get key keyPositions = None.
Proof. intros Hk. apply get_None_keys. by rewrite keyPositions_keys. Qed.

(** X18.  The table of [keyToCirclePosition] and the wheel that
    [drawCircleOfFifths] draws agree: the key written on slice [i] has
    position [i].  The wheel is the circle of fifths (slice [i] carries
    the key [7 i] semitones above C), and every key a mock analysis can
    carry is on it.  A key that is neither on the wheel nor a name
    inherited from [Object.prototype] - a flat such as ["Bb"], the empty
    string - gets position 0, the slice of C. *)
Theorem keyToCirclePosition_matches_wheel :
  (∀ (i : nat) key, keys !! i = Some key →
     keyToCirclePosition key = Position (Z.of_nat i)) ∧
  (∀ i : nat, (i < 12)%nat → keys !! i = mock_keys !! ((7 * i) mod 12)%nat) ∧
  (∀ key, key ∈ mock_keys → key ∈ keys) ∧
  (∀ key, key ∉ keys → key ∉ Object_prototype →
     keyToCirclePosition key = Position 0).
Proof.
  split_and!.
  - intros i key Hi.
    do 12 (destruct i as [|i]; [injection Hi as <-; reflexivity|]).
    discriminate.
  - intros i Hi.
    do 12 (destruct i as [|i]; [reflexivity|]). lia.
  - intros key Hk. unfold mock_keys in Hk. unfold keys.
    repeat (apply elem_of_cons in Hk as [->|Hk]; [set_solver|]).
    by apply elem_of_nil in Hk.
  - intros key Hk Hp. unfold keyToCirclePosition.
    rewrite (get_keyPositions_None _ Hk).
    by rewrite bool_decide_eq_false_2.
Qed.

End WheelProperties.

Section PlaybackProperties.
Context {Time : Type} (zero : Time).
Import Playback.
Implicit Types (m : AudioManager Time) (f : File Time) (i j : nat).

(** What [stopAll] does to one file. *)
Definition stop_file f : File Time :=
  let f' := if isPlaying f then set_isPlaying false f else f in
  match audioElement f with
  | Some _ => set_time zero f'
  | None => f'
  end.

Lemma isPlaying_stop_file f : isPlaying (stop_file f) = false.
Proof.
  unfold stop_file.
  destruct (isPlaying f) eqn:Hp, (audioElement f); cbn; done.
Qed.

Lemma isLoaded_stop_file f : isLoaded (stop_file f) = isLoaded f.
Proof.
  unfold stop_file.
  destruct (isPlaying f), (audioElement f); reflexivity.
Qed.

Lemma url_stop_file f : url (stop_file f) = url f.
Proof.
  unfold stop_file.
  destruct (isPlaying f), (audioElement f); reflexivity.
Qed.

Lemma alter_None {A} (g : A → A) (l : list A) i : l !! i = None → alter g i l = l.
Proof.
  intros Hi. apply list_eq. intros j. rewrite list_lookup_alter.
  case_decide; [subst; by rewrite Hi|done].
Qed.

Lemma stop_files m i :
  audioFiles (stop zero m i) = alter stop_file i (audioFiles m).
Proof.
  unfold stop. destruct (audioFiles m !! i) as [f|] eqn:Hf.
  - assert (Hext : ∀ g, g f = stop_file f →
              alter g i (audioFiles m) = alter stop_file i (audioFiles m)).
    { intros g Hg. apply list_alter_ext; [|done].
      intros x Hx. rewrite Hf in Hx. by injection Hx as <-. }
    destruct (isPlaying f) eqn:Hp, (audioElement f) eqn:He.
    + unfold pauseAudio. case_bool_decide; cbn; rewrite list_alter_alter_eq;
        apply Hext; unfold stop_file; cbn; by rewrite Hp, He.
    + unfold pauseAudio. case_bool_decide; cbn;
        apply Hext; unfold stop_file; by rewrite Hp, He.
    + cbn. apply Hext. unfold stop_file. by rewrite Hp, He.
    + rewrite <- (Hext id); [by rewrite list_alter_id|].
      unfold stop_file. by rewrite Hp, He.
  - by rewrite alter_None.
Qed.

Lemma stop_rest m i :
  suspended (stop zero m i) = suspended m ∧ console (stop zero m i) = console m.
Proof.
  unfold stop. destruct (audioFiles m !! i) as [f|]; [|done].
  destruct (isPlaying f), (audioElement f); unfold pauseAudio;
    try case_bool_decide; done.
Qed.

Lemma fold_stop_files l m :
  audioFiles (fold_left (stop zero) l m)
  = fold_left (λ fs i, alter stop_file i fs) l (audioFiles m).
Proof.
  revert m. induction l as [|i l IH]; intros m; [done|].
  cbn [fold_left]. by rewrite IH, stop_files.
Qed.

Lemma fold_stop_rest l m :
  suspended (fold_left (stop zero) l m) = suspended m ∧
  console (fold_left (stop zero) l m) = console m.
Proof.
  revert m. induction l as [|i l IH]; intros m; [done|].
  cbn [fold_left]. destruct (IH (stop zero m i)) as [-> ->]. apply stop_rest.
Qed.

Lemma lookup_fold_alter {A} (g : A → A) n k (fs : list A) j :
  fold_left (λ fs i, alter g i fs) (seq k n) fs !! j
  = if decide (k ≤ j < k + n)%nat then g <$> fs !! j else fs !! j.
Proof.
  revert k fs. induction n as [|n IH]; intros k fs.
  - cbn. case_decide; [lia|done].
  - cbn [seq fold_left]. rewrite IH, list_lookup_alter.
    repeat case_decide; subst; try done; lia.
Qed.

Lemma stopAll_files m : audioFiles (stopAll zero m) = stop_file <$> audioFiles m.
Proof.
  unfold stopAll. cbn. rewrite fold_stop_files.
  apply list_eq. intros j. rewrite lookup_fold_alter, list_lookup_fmap.
  case_decide as Hj; [done|].
  rewrite (proj2 (lookup_ge_None (audioFiles m) j)) by lia. done.
Qed.

Lemma stopAll_current m : currentPlayingAudio (stopAll zero m) = None.
Proof. reflexivity. Qed.

Lemma stopAll_suspended m : suspended (stopAll zero m) = suspended m.
Proof. unfold stopAll. cbn. apply fold_stop_rest. Qed.

(** ** One clip at a time *)

(** The flags agree with the pointer: a file is marked playing exactly
    when it is the current one. *)
Definition exclusive m : Prop :=
  ∀ i f, audioFiles m !! i = Some f →
    (isPlaying f = true ↔ currentPlayingAudio m = Some i).

(** No file other than [i] is the current one. *)
Definition no_other i m : Prop :=
  currentPlayingAudio m = None ∨ currentPlayingAudio m = Some i.

(** What can happen to the manager: its methods are called, the
    listeners it has attached run, suspended calls go on.  A suspended
    call goes on, and a clip comes to its end, while no other clip is
    current. *)
Inductive playback_step : AudioManager Time → AudioManager Time → Prop :=
  | step_playAudio i m : playback_step m (after (playAudio zero i m))
  | step_pauseAudio i m : playback_step m (pauseAudio i m)
  | step_stopAll m : playback_step m (stopAll zero m)
  | step_seekTo i time m : playback_step m (seekTo i time m)
  | step_timeupdate i time m : playback_step m (timeupdate i time m)
  | step_load_error i m : i ∈ suspended m → playback_step m (load_error i m)
  | step_resume i d m :
      i ∈ suspended m → no_other i m → playback_step m (resume zero i d m)
  | step_ended i m : no_other i m → playback_step m (ended i m).

Lemma exclusive_alter (g : File Time → File Time) i m c :
  (∀ f, isPlaying (g f) = isPlaying f) →
  exclusive m →
  exclusive (mkManager (alter g i (audioFiles m)) (currentPlayingAudio m)
               (suspended m) c).
Proof.
  intros Hg Hm k fk. cbn. rewrite list_lookup_alter.
  case_decide as Hk; [subst k|apply Hm].
  destruct (audioFiles m !! i) as [f|] eqn:Hf; [|done].
  cbn. intros [= <-]. rewrite Hg. by apply Hm.
Qed.

Lemma exclusive_stopAll m : exclusive (stopAll zero m).
Proof.
  intros k fk. rewrite stopAll_files, stopAll_current, list_lookup_fmap.
  destruct (audioFiles m !! k) as [f|]; [|done].
  cbn. intros [= <-]. by rewrite isPlaying_stop_file.
Qed.

Lemma exclusive_suspended s c m :
  exclusive m →
  exclusive (mkManager (audioFiles m) (currentPlayingAudio m) s c).
Proof. intros Hm k fk. apply Hm. Qed.

Lemma exclusive_start i m : exclusive m → no_other i m → exclusive (start i m).
Proof.
  intros Hm Hno. unfold start.
  destruct (audioFiles m !! i) as [f|] eqn:Hf; [|done].
  assert (Hoth : ∀ k fk, i ≠ k → audioFiles m !! k = Some fk →
            (isPlaying fk = true ↔ Some i = Some k)).
  { intros k fk Hk Hfk. split; [|intros [= ?]; done].
    intros Hp. apply (Hm _ _ Hfk) in Hp.
    destruct Hno as [Hno|Hno]; rewrite Hno in Hp; [done|by injection Hp]. }
  destruct (audioElement f) as [el|]; intros k fk; cbn; rewrite list_lookup_alter;
    (case_decide as Hk; [subst k|by apply Hoth]);
    rewrite Hf; cbn; intros [= <-]; done.
Qed.

Lemma exclusive_loadAudio i m : exclusive m → exclusive (loadAudio i m).
Proof.
  intros Hm. unfold loadAudio.
  destruct (audioFiles m !! i) as [f|]; [|done].
  destruct (truthy (url f)); [done|].
  by apply (exclusive_alter (set_isLoaded true) i m (console m)).
Qed.

Lemma exclusive_loadedmetadata i d m :
  exclusive m → exclusive (loadedmetadata zero i d m).
Proof. intros Hm. unfold loadedmetadata. by apply exclusive_alter. Qed.

Lemma exclusive_set_time i time m :
  exclusive m → exclusive (with_files (alter (set_time time) i (audioFiles m)) m).
Proof. intros Hm. by apply exclusive_alter. Qed.

Lemma exclusive_pauseAudio i m : exclusive m → exclusive (pauseAudio i m).
Proof.
  intros Hm. unfold pauseAudio. cbn. intros k fk.
  case_bool_decide as Hc; cbn; rewrite list_lookup_alter;
    (case_decide as Hk; [subst k|]).
  - destruct (audioFiles m !! i) as [f|]; [|done]. cbn. intros [= <-]. done.
  - intros Hfk. split; [|done]. intros Hp. apply (Hm _ _ Hfk) in Hp. congruence.
  - destruct (audioFiles m !! i) as [f|]; [|done]. cbn. intros [= <-]. cbn.
    split; [done|]. intros Hp. done.
  - apply Hm.
Qed.

Lemma exclusive_ended i m : exclusive m → no_other i m → exclusive (ended i m).
Proof.
  intros Hm Hno. unfold ended.
  destruct (audioFiles m !! i) as [f|] eqn:Hf; [|done].
  destruct (audioElement f) as [el|]; [|done].
  destruct (listening el); [|done].
  intros k fk. cbn. rewrite list_lookup_alter.
  case_decide as Hk; [subst k|].
  - rewrite Hf. cbn. intros [= <-]. done.
  - intros Hfk. split; [|done]. intros Hp. apply (Hm _ _ Hfk) in Hp.
    destruct Hno as [Hno|Hno]; rewrite Hno in Hp; [done|]. by injection Hp.
Qed.

Lemma no_other_suspended i s m :
  no_other i m → no_other i (with_suspended s m).
Proof. done. Qed.

Lemma exclusive_step m m' : playback_step m m' → exclusive m → exclusive m'.
Proof.
  intros Hs Hm. destruct Hs as [i m|i m|m|i time m|i time m|i m Hi|i d m Hi Hno|i m Hno].
  - unfold playAudio.
    destruct (audioFiles (stopAll zero m) !! i) as [f|]; cbn [after].
    + destruct (isLoaded f); cbn [after].
      * apply exclusive_start; [apply exclusive_stopAll|by left].
      * apply exclusive_suspended, exclusive_loadAudio, exclusive_stopAll.
    + apply exclusive_stopAll.
  - by apply exclusive_pauseAudio.
  - apply exclusive_stopAll.
  - unfold seekTo. destruct (audioFiles m !! i) as [f|]; [|done].
    destruct (audioElement f); [|done]. by apply exclusive_set_time.
  - unfold timeupdate. destruct (audioFiles m !! i) as [f|]; [|done].
    destruct (audioElement f) as [el|]; [|done].
    destruct (listening el); [|done]. by apply exclusive_set_time.
  - by apply exclusive_suspended.
  - unfold resume.
    set (m1 := with_suspended _ m).
    assert (Hm1 : exclusive m1) by by apply exclusive_suspended.
    destruct (audioFiles m1 !! i) as [f|]; [|done].
    destruct (truthy (url f)).
    + apply exclusive_start; [by apply exclusive_loadedmetadata|done].
    + by apply exclusive_start.
  - by apply exclusive_ended.
Qed.

(** X19.  One clip at a time.  Start from a manager whose flags agree
    with its pointer (a file is marked playing exactly when it is
    [currentPlayingAudio]), as after [loadAudioDataset].  Through any
    calls of [playAudio], [pauseAudio], [stopAll] and [seekTo], load
    errors and [timeupdate] events, and through resumed calls and
    [ended] events that arrive while no other file is current, the
    flags keep agreeing with the pointer: at most one file is marked
    playing, and it is the one the status line names. *)
Theorem playback_is_exclusive m m' :
  exclusive m → rtc playback_step m m' → exclusive m'.
Proof.
  intros Hm Hrun. induction Hrun as [m|m m1 m' Hs _ IH]; [done|].
  apply IH. by apply (exclusive_step m).
Qed.

(** ** Two clips at once *)

Lemma lookup_start_eq i m f0 :
  audioFiles m !! i = Some f0 →
  (∃ f, audioFiles (start i m) !! i = Some f ∧ isPlaying f = true) ∧
  currentPlayingAudio (start i m) = Some i.
Proof.
  intros Hf. unfold start. rewrite Hf.
  destruct (audioElement f0); cbn; rewrite list_lookup_alter_eq, Hf; cbn; eauto.
Qed.

Lemma lookup_start_ne i k m :
  i ≠ k → audioFiles (start i m) !! k = audioFiles m !! k.
Proof.
  intros Hk. unfold start. destruct (audioFiles m !! i) as [f|]; [|done].
  destruct (audioElement f); cbn; by rewrite list_lookup_alter_ne.
Qed.

Lemma lookup_resume_eq i d m f0 :
  audioFiles m !! i = Some f0 →
  (∃ f, audioFiles (resume zero i d m) !! i = Some f ∧ isPlaying f = true) ∧
  currentPlayingAudio (resume zero i d m) = Some i.
Proof.
  intros Hf. unfold resume. cbn [audioFiles with_suspended]. rewrite Hf.
  destruct (truthy (url f0)).
  - eapply lookup_start_eq. unfold loadedmetadata. cbn.
    rewrite list_lookup_alter_eq, Hf. reflexivity.
  - by eapply lookup_start_eq.
Qed.

Lemma lookup_resume_ne i k d m :
  i ≠ k → audioFiles (resume zero i d m) !! k = audioFiles m !! k.
Proof.
  intros Hk. unfold resume. cbn [audioFiles with_suspended].
  destruct (audioFiles m !! i) as [f|]; [|done].
  destruct (truthy (url f)); rewrite lookup_start_ne by done; [|done].
  unfold loadedmetadata. cbn. by rewrite list_lookup_alter_ne.
Qed.

Lemma lookup_loadAudio i k m f :
  audioFiles m !! k = Some f →
  ∃ f', audioFiles (loadAudio i m) !! k = Some f' ∧
        (i ≠ k → isLoaded f' = isLoaded f).
Proof.
  intros Hf. unfold loadAudio. destruct (audioFiles m !! i) as [fi|]; [|eauto].
  destruct (truthy (url fi)); [eauto|]. cbn. rewrite list_lookup_alter.
  case_decide as Hk; [subst k|eauto].
  rewrite Hf. cbn. eexists. split; [done|]. by intros [].
Qed.

Lemma playAudio_unloaded i m f :
  audioFiles m !! i = Some f → isLoaded f = false →
  playAudio zero i m
  = Awaiting (with_suspended (suspended m ++ [i]) (loadAudio i (stopAll zero m))).
Proof.
  intros Hf Hl. unfold playAudio.
  rewrite stopAll_suspended, stopAll_files, list_lookup_fmap, Hf.
  cbn [fmap option_fmap option_map]. by rewrite isLoaded_stop_file, Hl.
Qed.

Lemma suspended_loadAudio i m : suspended (loadAudio i m) = suspended m.
Proof.
  unfold loadAudio. destruct (audioFiles m !! i) as [f|]; [|done].
  by destruct (truthy (url f)).
Qed.

Lemma suspended_playAudio_unloaded i m f :
  audioFiles m !! i = Some f → isLoaded f = false →
  suspended (after (playAudio zero i m)) = suspended m ++ [i].
Proof.
  intros Hf Hl. by rewrite (playAudio_unloaded i m f).
Qed.

Lemma lookup_playAudio_unloaded i k m fi fk :
  audioFiles m !! i = Some fi → isLoaded fi = false →
  audioFiles m !! k = Some fk →
  ∃ f', audioFiles (after (playAudio zero i m)) !! k = Some f' ∧
        (i ≠ k → isLoaded f' = isLoaded fk).
Proof.
  intros Hi Hl Hk. rewrite (playAudio_unloaded i m fi) by done. cbn [after].
  destruct (lookup_loadAudio i k (stopAll zero m) (stop_file fk)) as (f' & Hf' & Hld).
  { by rewrite stopAll_files, list_lookup_fmap, Hk. }
  exists f'. split; [done|]. intros Hne. by rewrite Hld, isLoaded_stop_file.
Qed.

(** X20.  Two clips at once.  [playAudio] stops the other clips before it
    waits for its file to load, not after.  So when two files that are
    not loaded yet are played one after the other and the two calls go on
    once their files have loaded, both files end up marked playing, the
    pointer names only the second, and the flags no longer agree with
    it. *)
Theorem unloaded_clips_play_together m i j fi fj di dj :
  i ≠ j →
  audioFiles m !! i = Some fi → isLoaded fi = false →
  audioFiles m !! j = Some fj → isLoaded fj = false →
  let m1 := after (playAudio zero i m) in
  let m2 := after (playAudio zero j m1) in
  let m4 := resume zero j dj (resume zero i di m2) in
  playAudio zero i m = Awaiting m1 ∧
  playAudio zero j m1 = Awaiting m2 ∧
  suspended m2 = suspended m ++ [i; j] ∧
  (∃ f, audioFiles m4 !! i = Some f ∧ isPlaying f = true) ∧
  (∃ f, audioFiles m4 !! j = Some f ∧ isPlaying f = true) ∧
  currentPlayingAudio m4 = Some j ∧
  ¬ exclusive m4.
Proof.
  intros Hij Hi Hli Hj Hlj m1 m2 m4.
  assert (H1 : playAudio zero i m = Awaiting m1).
  { unfold m1. by rewrite (playAudio_unloaded i m fi). }
  destruct (lookup_playAudio_unloaded i j m fi fj Hi Hli Hj) as (fj1 & Hj1 & Hlj1).
  fold m1 in Hj1. specialize (Hlj1 Hij). rewrite Hlj in Hlj1.
  destruct (lookup_playAudio_unloaded i i m fi fi Hi Hli Hi) as (fi1 & Hi1 & _).
  fold m1 in Hi1.
  assert (H2 : playAudio zero j m1 = Awaiting m2).
  { unfold m2. by rewrite (playAudio_unloaded j m1 fj1). }
  destruct (lookup_playAudio_unloaded j i m1 fj1 fi1 Hj1 Hlj1 Hi1) as (fi2 & Hi2 & _).
  destruct (lookup_playAudio_unloaded j j m1 fj1 fj1 Hj1 Hlj1 Hj1) as (fj2 & Hj2 & _).
  fold m2 in Hi2, Hj2.
  destruct (lookup_resume_eq i di m2 fi2 Hi2) as [(fi3 & Hi3 & Hp3) _].
  assert (Hj3 : audioFiles (resume zero i di m2) !! j = Some fj2)
    by by rewrite lookup_resume_ne.
  destruct (lookup_resume_eq j dj _ fj2 Hj3) as [(fj4 & Hj4 & Hp4) Hc4].
  assert (Hi4 : audioFiles m4 !! i = Some fi3).
  { unfold m4. by rewrite lookup_resume_ne. }
  split_and!; try done.
  - unfold m2. rewrite (suspended_playAudio_unloaded j m1 fj1) by done.
    unfold m1. rewrite (suspended_playAudio_unloaded i m fi) by done.
    by rewrite <- app_assoc.
  - eauto.
  - eauto.
  - intros Hex. apply (Hex _ _ Hi4) in Hp3. fold m4 in Hc4.
    rewrite Hc4 in Hp3. by injection Hp3.
Qed.

End PlaybackProperties.

Section DatasetProperties.
Context {Analysis : Type}.
Import Dataset.

Lemma endsWith_suffix s suffix :
  endsWith s suffix = true ↔ ∃ stem, s = stem +:+ suffix.
Proof.
  split.
  - induction s as [|a s IH]; cbn [endsWith]; intros H;
      apply orb_true_iff in H as [H|H].
    + apply String.eqb_eq in H as <-. by exists "".
    + done.
    + apply String.eqb_eq in H as <-. by exists "".
    + destruct (IH H) as [stem ->]. by exists (String a stem).
  - intros [stem ->]. induction stem as [|a stem IH].
    + rewrite string_app_nil. destruct suffix; cbn [endsWith];
        by rewrite String.eqb_refl.
    + rewrite string_app_cons. cbn [endsWith]. rewrite IH. apply orb_true_r.
Qed.

Lemma after_last_slash_None s : after_last_slash s = None → free_of "/" s.
Proof.
  induction s as [|c s IH]; cbn; [done|].
  destruct (after_last_slash s); [done|].
  destruct (Ascii.eqb c "/") eqn:E; [done|]. intros _.
  apply Ascii.eqb_neq in E. auto.
Qed.

Lemma after_last_slash_Some s r :
  after_last_slash s = Some r →
  free_of "/" r ∧ ∃ d, s = (d +:+ "/") +:+ r.
Proof.
  revert r. induction s as [|c s IH]; cbn; intros r; [done|].
  destruct (after_last_slash s) as [r'|] eqn:Hs.
  - intros [= <-]. destruct (IH r' eq_refl) as [Hf [d ->]].
    split; [done|]. by exists (String c d).
  - destruct (Ascii.eqb c "/") eqn:E; [|done]. intros [= <-].
    apply Ascii.eqb_eq in E as ->.
    split; [by apply after_last_slash_None|]. by exists "".
Qed.

Lemma last_segment_spec s :
  free_of "/" (last_segment s) ∧
  ∃ dir, s = dir +:+ last_segment s ∧ (dir = "" ∨ ∃ d, dir = d +:+ "/").
Proof.
  unfold last_segment. destruct (after_last_slash s) as [r|] eqn:Hs; cbn.
  - destruct (after_last_slash_Some s r Hs) as [Hf [d ->]].
    split; [done|]. exists (d +:+ "/"). eauto.
  - split; [by apply after_last_slash_None|]. exists "". eauto.
Qed.

Lemma explore_isAudioFile fetch dir item :
  In item (explore fetch dir) → isAudioFile item = true.
Proof.
  unfold explore. destruct (fetch _) as [|[] dirData]; [done| |done].
  destruct (find _ dirData) as [audioSubdir|].
  - destruct (fetch _) as [|[] audioData]; [done| |done].
    intros H. by apply filter_In in H as [_ H].
  - intros H. by apply filter_In in H as [_ H].
Qed.

(** X22.  When [loadAudioDataset] answers with files of the dataset
    there is at least one, and each of them is a listed file of non-zero
    size or of size ['Unknown'] whose path ends in [.mp3], [.wav],
    [.ogg], [.m4a] or [.flac] (in this case); its url is the download
    prefix followed by the path, its name is the part of the path after
    the last slash, and it carries no analysis yet. *)
Theorem loadAudioDataset_files fetch (files : list (AudioFile.t Analysis)) :
  loadAudioDataset fetch = FromDataset files →
  files ≠ [] ∧
  ∀ f, f ∈ files →
    AudioFile.analysis f = None ∧
    AudioFile.url f = resolve_url +:+ AudioFile.path f ∧
    AudioFile.size f ≠ Bytes 0 ∧
    (∃ stem ext, ext ∈ [".mp3"; ".wav"; ".ogg"; ".m4a"; ".flac"] ∧
                 AudioFile.path f = stem +:+ ext) ∧
    free_of "/" (AudioFile.name f) ∧
    (∃ dir, AudioFile.path f = dir +:+ AudioFile.name f ∧
            (dir = "" ∨ ∃ d, dir = d +:+ "/")).
Proof.
  unfold loadAudioDataset.
  destruct (fetch tree_url) as [|[] mainData]; [done| |done].
  cbv zeta.
  destruct (flat_map _ _) as [|item0 items] eqn:Hall; [done|].
  intros [= <-]. split; [done|].
  intros f Hf. change (f ∈ toAudioFile <$> item0 :: items) in Hf.
  apply list_elem_of_fmap in Hf as (item & -> & Hitem).
  assert (Haudio : isAudioFile item = true).
  { apply list_elem_of_In in Hitem. rewrite <- Hall in Hitem.
    apply in_flat_map in Hitem as (dir & _ & Hitem).
    by apply explore_isAudioFile in Hitem. }
  unfold isAudioFile in Haudio.
  apply andb_true_iff in Haudio as [_ Haudio].
  apply andb_true_iff in Haudio as [_ Hext].
  cbn [toAudioFile AudioFile.analysis AudioFile.url AudioFile.size
       AudioFile.path AudioFile.name].
  split_and!; [done|done| | |apply last_segment_spec ..].
  - unfold size_or_Unknown. destruct (size item) as [n|]; [|done].
    destruct (Z.eqb n 0) eqn:E; [done|]. apply Z.eqb_neq in E. congruence.
  - repeat (apply orb_true_iff in Hext as [Hext|Hext]);
      apply endsWith_suffix in Hext as [stem Hstem];
      eexists stem, _; (split; [|exact Hstem]); repeat constructor.
Qed.

End DatasetProperties.

(** ** Worked examples for the cache *)

(** In the examples an analysis record is the text [JSON.stringify] gives
    for it, which is all the cache needs of it. *)
Module Examples.

#[global] Instance stringify_text : JSONValue string := λ s, s.

(** A dataset of small files with distinct sizes, hence distinct keys. *)
Definition track (i : nat) : AudioFile.t string :=
  AudioFile.mk "f" "u" "f" (Bytes (Z.of_nat i)) None.

(** [setCachedAnalysis(track i, {})] with the clock reading [i]. *)
Definition call (i : nat) : Cache.Call string :=
  Cache.mkCall (track i) (Some "{}") (Z.of_nat i) (Z.of_nat i).

(** The same with the clock reading 2000. *)
Definition late (i : nat) : Cache.Call string :=
  Cache.mkCall (track i) (Some "{}") 2000 2000.

(** An origin whose storage is empty (5 MiB to go), and one with 46000
    bytes to go. *)
Definition roomy : Cache.LocalStorage string := Cache.mkStorage None 5242880 false.
Definition tight : Cache.LocalStorage string := Cache.mkStorage None 46000 false.

(** [new CacheManager()] on either. *)
Definition fresh : Cache.World string := Cache.constructor roomy [].
Definition cramped : Cache.World string := Cache.constructor tight [].

(** A file whose name is 4.5 MiB long. *)
Fixpoint doubled (n : nat) (s : string) : string :=
  match n with
  | O => s
  | S n => doubled n (s +:+ s)
  end.

Definition long_name : string := doubled 18 "jam-session-take-1".

Definition long_track : AudioFile.t string :=
  AudioFile.mk long_name "u" "g" (Bytes 1) None.

(** The manager at the save of the 351st of 351 writes that began with
    [long_track]: 351 entries, none evicted so far. *)
Definition full : Cache.World string :=
  Cache.mkWorld
    (Cache.mkManager "essentiaSketch_audioAnalysis"
       (Cache.mkStore None
          (Cache.written <$> (Cache.mkCall long_track (Some "{}") 0 0 :: (call <$> seq 1 350))))
       500 (Some "1.0"))
    roomy [].

End Examples.

Section CacheExamples.
Import Cache Examples.

Lemma track_key_inj i j : generateFileKey (track i) = generateFileKey (track j) → i = j.
Proof.
  unfold generateFileKey, track. simpl. intros H.
  apply String.app_inj, String.app_inj in H.
  apply Number_toString_inj in H. lia.
Qed.

(** Calls for the tracks of a list without repeats have distinct keys. *)
Lemma NoDup_track_keys (g : nat → Call string) (l : list nat) :
  (∀ i, file (g i) = track i) → NoDup l → NoDup (JS.keys (written <$> (g <$> l))).
Proof.
  intros Hg Hl. unfold JS.keys. rewrite <-!list_fmap_compose.
  apply NoDup_fmap_2_strong; [|done].
  intros i j _ _. simpl. unfold written. simpl. rewrite !Hg. apply track_key_inj.
Qed.

(** The manager of the examples holding the entries of [calls]. *)
Definition holding (calls : list (Call string)) : CacheManager string :=
  mkManager "essentiaSketch_audioAnalysis" (mkStore None (written <$> calls)) 500 (Some "1.0").

(** The first 500 writes on the roomy origin are saved as they come. *)
Lemma fresh_run_500 :
  let w := setAll (call <$> seq 1 500) fresh in
  this w = holding (call <$> seq 1 500) ∧
  quota (localStorage w) = 5242880 ∧ denied (localStorage w) = false ∧ quiet w.
Proof.
  destruct (setAll_affordable (call <$> seq 1 500) fresh) as (Hthis & Hq & Hd & Hquiet).
  - apply (NoDup_track_keys call); [done | apply NoDup_seq].
  - lazy. discriminate.
  - split_and!; [reflexivity | lazy; discriminate | lazy; discriminate].
  - intros w. subst w. rewrite Hthis, Hq, Hd. split_and!; [reflexivity..|].
    apply Hquiet, quiet_check. reflexivity.
Qed.

(** The 501st makes the count exceed [maxCacheSize]; the store it evicts
    down to is saved without further ado. *)
Lemma fresh_run_501 w :
  this w = holding (call <$> seq 1 500) →
  quota (localStorage w) = 5242880 → denied (localStorage w) = false → quiet w →
  quiet (setCachedAnalysis (track 501) (Some "{}") 501 501 w).
Proof.
  intros Hthis Hq Hd Hquiet. apply setCachedAnalysis_affordable; [|done].
  rewrite Hthis. split_and!; [done | lazy; discriminate | rewrite Hq; lazy; discriminate].
Qed.

Lemma quiet_fresh_run : quiet (setAll (call <$> seq 1 501) fresh).
Proof.
  change (call <$> seq 1 501) with ((call <$> seq 1 500) ++ [call 501]).
  rewrite setAll_snoc.
  destruct fresh_run_500 as (Hthis & Hq & Hd & Hquiet).
  by apply fresh_run_501.
Qed.

Lemma eviction_keeps_newest_witness :
  Z.of_nat (length (entries (this (setAll (call <$> seq 1 501) fresh))))
  = keepCount (maxCacheSize (this fresh)) ∧
  keepCount (maxCacheSize (this fresh)) = 350.
Proof.
  destruct (eviction_keeps_newest fresh (call <$> seq 1 501)) as (_ & H & _).
  - reflexivity.
  - reflexivity.
  - reflexivity.
  - apply (NoDup_track_keys call); [done | apply NoDup_seq].
  - apply quiet_fresh_run.
  - split; [exact H | reflexivity].
Defined.

(** The run on the cramped origin, in three stretches: 488 writes that
    are saved as they come; the write whose save is refused, so that the
    [catch] evicts and saves again; twelve more. *)
Lemma cramped_run_488 :
  let w := setAll (call <$> seq 1 488) cramped in
  this w = holding (call <$> seq 1 488) ∧
  quota (localStorage w) = 46000 ∧ denied (localStorage w) = false.
Proof.
  destruct (setAll_affordable (call <$> seq 1 488) cramped) as (H1 & Hq1 & Hd1 & _).
  - apply (NoDup_track_keys call); [done | apply NoDup_seq].
  - lazy. discriminate.
  - split_and!; [reflexivity | lazy; discriminate | lazy; discriminate].
  - intros w. subst w. rewrite H1, Hq1, Hd1. split_and!; reflexivity.
Qed.

Lemma cramped_run_489 w :
  this w = holding (call <$> seq 1 488) →
  quota (localStorage w) = 46000 → denied (localStorage w) = false →
  let w' := setCachedAnalysis (track 489) (Some "{}") 489 489 w in
  this w' = holding (call <$> seq 140 350) ∧
  quota (localStorage w') = 46000 ∧ denied (localStorage w') = false.
Proof.
  intros H1 Hq1 Hd1 w'.
  destruct (setCachedAnalysis_over_quota (track 489) (Some "{}") 489 489 w) as (H2 & Hls2).
  - done.
  - rewrite H1. lazy. discriminate.
  - rewrite H1, Hq1. lazy. reflexivity.
  - rewrite H1, Hq1. lazy. discriminate.
  - subst w'. rewrite H2, Hls2, H1. unfold stored. cbn [quota denied].
    split_and!; [lazy; reflexivity | done | done].
Qed.

Lemma cramped_run_501 w :
  this w = holding (call <$> seq 140 350) →
  quota (localStorage w) = 46000 → denied (localStorage w) = false →
  this (setAll (call <$> seq 490 12) w) = holding (call <$> seq 140 362).
Proof.
  intros H2 Hq2 Hd2.
  destruct (setAll_affordable (call <$> seq 490 12) w) as (H3 & _).
  - rewrite H2. unfold entries, holding. cbn [cache data]. unfold JS.keys.
    rewrite <-fmap_app, <-!fmap_app.
    apply (NoDup_track_keys call (seq 140 350 ++ seq 490 12)); [done|].
    change 490%nat with (140 + 350)%nat. rewrite <-seq_app. apply NoDup_seq.
  - rewrite H2. lazy. discriminate.
  - rewrite H2. split_and!; [done | lazy; discriminate | rewrite Hq2; lazy; discriminate].
  - rewrite H3, H2. unfold entries, holding. cbn [cache data version storageKey maxCacheSize cacheVersion].
    rewrite <-!fmap_app. change 490%nat with (140 + 350)%nat. by rewrite <-seq_app.
Qed.

Lemma cramped_run :
  this (setAll (call <$> seq 1 501) cramped) = holding (call <$> seq 140 362).
Proof.
  change (call <$> seq 1 501)
    with ((call <$> seq 1 488) ++ [call 489] ++ (call <$> seq 490 12)).
  rewrite !setAll_app.
  destruct cramped_run_488 as (H1 & Hq1 & Hd1).
  destruct (cramped_run_489 _ H1 Hq1 Hd1) as (H2 & Hq2 & Hd2).
  by apply cramped_run_501.
Qed.

(** From an empty store, 501 writes with distinct keys on an origin with
    46000 bytes of quota left: the 489th save is refused, the [catch]
    evicts down to 350, the retry succeeds, twelve more writes follow. *)
Lemma eviction_bound_fails_when_quota_evicts :
  entries (this cramped) = [] ∧
  length (call <$> seq 1 501) = 501%nat ∧
  NoDup (JS.keys (written <$> (call <$> seq 1 501))) ∧
  keepCount (maxCacheSize (this cramped)) = 350 ∧
  length (entries (this (setAll (call <$> seq 1 501) cramped))) = 362%nat.
Proof.
  split_and!.
  - reflexivity.
  - reflexivity.
  - apply (NoDup_track_keys call); [done | apply NoDup_seq].
  - reflexivity.
  - rewrite cramped_run. reflexivity.
Qed.

Lemma set_then_get_roundtrip_witness :
  (getCachedAnalysis (track 1) 3 (setCachedAnalysis (track 1) (Some "{}") 1 2 fresh)).1
  = Some "{}" ∧
  (getCachedAnalysis (track 1) 6
     (setCachedAnalysis (track 1) (Some "{}") 4 5
        (getCachedAnalysis (track 1) 3
           (setCachedAnalysis (track 1) (Some "{}") 1 2 fresh)).2)).1
  = Some "{}".
Proof.
  apply (set_then_get_roundtrip fresh (track 1) (track 1) "{}" 1 2 3 4 5 6).
  - apply NoDup_nil_2.
  - reflexivity.
  - reflexivity.
  - left. split_and!; [vm_compute; discriminate | vm_compute; discriminate |].
    right. vm_compute. discriminate.
  - left. split_and!; [vm_compute; discriminate | vm_compute; discriminate |].
    right. vm_compute. discriminate.
Defined.

Lemma late_run_500 :
  let w := setAll (late <$> seq 1 500) fresh in
  this w = holding (late <$> seq 1 500) ∧
  quota (localStorage w) = 5242880 ∧ denied (localStorage w) = false.
Proof.
  destruct (setAll_affordable (late <$> seq 1 500) fresh) as (H1 & Hq1 & Hd1 & _).
  - apply (NoDup_track_keys late); [done | apply NoDup_seq].
  - lazy. discriminate.
  - split_and!; [reflexivity | lazy; discriminate | lazy; discriminate].
  - intros w. subst w. rewrite H1, Hq1, Hd1. split_and!; reflexivity.
Qed.

Lemma late_run_501 w :
  this w = holding (late <$> seq 1 500) →
  quota (localStorage w) = 5242880 → denied (localStorage w) = false →
  (getCachedAnalysis (track 501) 1001
     (setCachedAnalysis (track 501) (Some "{}") 1000 1000 w)).1 = None.
Proof.
  intros H1 Hq1 Hd1. rewrite getCachedAnalysis_result.
  destruct (setCachedAnalysis_affordable (track 501) (Some "{}") 1000 1000 w) as (H2 & _).
  - rewrite H1. split_and!; [done | lazy; discriminate | rewrite Hq1; lazy; discriminate].
  - rewrite H2, H1. lazy. reflexivity.
Qed.

(** 500 files are cached while the clock reads 2000; it is then set back
    and reads 1000 when a 501st file is cached: the eviction that write
    triggers drops the entry just written, and the lookup misses. *)
Lemma roundtrip_fails_when_clock_steps_back :
  (getCachedAnalysis (track 501) 1001
     (setCachedAnalysis (track 501) (Some "{}") 1000 1000
        (setAll (late <$> seq 1 500) fresh))).1 = None.
Proof.
  destruct late_run_500 as (H1 & Hq1 & Hd1). by apply late_run_501.
Qed.

Lemma quote_size_doubled n s : quote_size (doubled n s) = 2 ^ Z.of_nat n * quote_size s.
Proof.
  revert s. induction n as [|n IH]; intros s.
  - simpl. lia.
  - change (doubled (S n) s) with (doubled n (s +:+ s)).
    rewrite IH, quote_size_app, Nat2Z.inj_succ, Z.pow_succ_r by lia. lia.
Qed.

(** The store of [full] serialises to 32914 bytes over the limit. *)
Lemma full_size : JS.Blob_size (JSON_text (cache (this full))) = 4751506.
Proof.
  rewrite Blob_size_JSON_text.
  change (cache (this full))
    with (mkStore (Analysis := string) None
            (written (Cache.mkCall long_track (Some "{}") 0 0)
             :: (written <$> (call <$> seq 1 350)))).
  unfold store_size, data_size. cbn [version data version_size].
  rewrite members_size_cons.
  unfold entry_size, written, newEntry.
  cbn [fst snd CacheEntry.fileName CacheEntry.path CacheEntry.size CacheEntry.analysis
       CacheEntry.cachedAt CacheEntry.lastAccessed file value at1 at2].
  change (AudioFile.name long_track) with (doubled 18 "jam-session-take-1").
  rewrite quote_size_doubled.
  change (AudioFile.path long_track) with "g".
  change (AudioFile.size long_track) with (Bytes 1).
  change (generateFileKey long_track) with "g_1".
  lazy. reflexivity.
Qed.

Lemma saveCache_writes_stale_text_witness :
  (parsed <$> item (localStorage (saveCache full))) = Some (Some (cache (this full))) ∧
  length (data (cache (this full))) = 351%nat ∧
  length (entries (this (saveCache full))) = 350%nat.
Proof.
  destruct (saveCache_writes_stale_text full) as [Hitem Hthis].
  - reflexivity.
  - rewrite full_size. reflexivity.
  - rewrite full_size. discriminate.
  - rewrite Hitem, Hthis. split_and!; reflexivity.
Defined.

(** A store the code itself has written carries no version member: the
    next page load keeps it whole, under a running version of "1.0", while
    a store tagged "1.0" is discarded and replaced by one without a
    version. *)
Lemma reload_compares_with_undefined :
  let saved := localStorage (setCachedAnalysis (track 1) (Some "{}") 1 2 fresh) in
  let tagged := mkStore (Some "1.0") (written <$> [call 1]) in
  (version <$> (item saved ≫= JSON_parse)) = Some None ∧
  cacheVersion (this (constructor saved [])) = Some "1.0" ∧
  JS.keys (entries (this (constructor saved []))) = ["f_1"] ∧
  cache (this (constructor (mkStorage (Some (JSON_stringify tagged)) 5242880 false) []))
  = mkStore None [].
Proof. vm_compute. done. Qed.

End CacheExamples.

(** ** Worked examples for the channel and the batch *)

(** Signals are lists of samples; the host's and the worker's mocks are
    told apart by their text. *)
Module ChannelExamples.

Definition host_mock (k : nat) : string :=
  "{host mock " +:+ JS.Number_toString (Z.of_nat k) +:+ "}".

Definition worker_mock (k : nat) : string :=
  "{worker mock " +:+ JS.Number_toString (Z.of_nat k) +:+ "}".

Definition extract (signal : list Z) (k : nat) : option string :=
  Some ("{samples " +:+ JS.Number_toString (Z.of_nat (length signal)) +:+ "}").

(** A worker whose library has loaded and which answers at once. *)
Definition prompt : Channel.Thread string (list Z) :=
  Worker.prompt_thread true extract worker_mock (Worker.mkState true true 0).

(** The channel after [initialize()] with that worker. *)
Definition ready : Channel.World string (list Z) :=
  (Channel.initialize true prompt Channel.constructor).2.

Definition take : Channel.RequestPayload (list Z) :=
  Channel.AnalyzePayload (Some [1; 2; 3]) "take-1.wav".

(** The answer to request 1, were it to come. *)
Definition answer : Channel.Message string :=
  Channel.mkMessage "analysis-complete"
    (Channel.mkPayload None None (Some "{samples 3}") (Some "take-1.wav")) 1.

(** A decoder that fails on files of size 2. *)
Definition decode (f : AudioFile.t string) : option (list Z) :=
  match AudioFile.size f with
  | Bytes 2 => None
  | _ => Some [1; 2; 3]
  end.

Definition env : Sketch.Env string (list Z) :=
  Sketch.mkEnv (λ k, Z.of_nat k) decode host_mock prompt.

Definition dataset : list (AudioFile.t string) :=
  [Examples.track 1; Examples.track 2; Examples.track 3].

(** The globals before a file is processed. *)
Definition idle (ew : Channel.World string (list Z)) : Sketch.App string (list Z) :=
  Sketch.mkApp Examples.fresh ew dataset [] (Sketch.mkStatus 0 3 0) true 0.

End ChannelExamples.

Section ChannelExamples.
Import Channel ChannelExamples.

Lemma request_times_out_witness :
  let w := run [Deliver answer]
             (fire 1 (run [Elapse 30000; Terminate; Elapse 30000]
                          (sendMessage "analyze" take ready).2)) in
  let early := fire 1 (run [Elapse 59999] (sendMessage "analyze" take ready).2) in
  pendingMessages (this w) !! 1 = None ∧
  promises w !! 1 = Some (Rejected (Error "Worker message timeout")) ∧
  console w = console ready ++ [LogTerminated; WarnUnknownId 1] ∧
  pendingMessages (this early) !! 1 = Some ResolveReject ∧
  promises early !! 1 = Some Pending.
Proof.
  assert (fresh_ids ready) as Hfresh.
  { intros t Ht. apply list_elem_of_In in Ht. simpl in Ht.
    destruct Ht as [<-|[]]. vm_compute. reflexivity. }
  destruct (request_times_out "analyze" take 0%nat
              [Elapse 30000; Terminate; Elapse 30000] [Deliver answer] ready)
    as (_ & _ & _ & H & _).
  - exact Hfresh.
  - reflexivity.
  - intros m Hm. apply list_elem_of_In in Hm. simpl in Hm.
    destruct Hm as [Hm|[Hm|[Hm|[]]]]; discriminate.
  - destruct H as (Hp & Hr & _); [vm_compute; discriminate|].
    destruct (request_times_out "analyze" take 0%nat [Elapse 59999] [] ready)
      as (_ & _ & E & _).
    + exact Hfresh.
    + reflexivity.
    + intros m Hm. apply list_elem_of_In in Hm. simpl in Hm.
      destruct Hm as [Hm|[]]; discriminate.
    + destruct E as (_ & _ & Ep & Er); [vm_compute; reflexivity|].
      split_and!; [exact Hp | exact Hr | vm_compute; reflexivity | exact Ep | exact Er].
Defined.

(** A request is sent, half a minute passes, the channel is terminated:
    the worker is gone and the request is still pending; half a minute
    later its timeout rejects it. *)
Lemma terminate_keeps_pending_witness :
  let w1 := run [Elapse 30000] (sendMessage "analyze" take ready).2 in
  let w2 := run [Elapse 30000] (terminate w1) in
  this (terminate w1)
  = mkManager None false 2 (pendingMessages (this w1)) ∧
  promises (terminate w1) !! 1 = Some Pending ∧
  promises (fire 1 w2) !! 1 = Some (Rejected (Error "Worker message timeout")).
Proof.
  intros w1 w2.
  destruct (terminate_keeps_pending host_mock prompt None "take-2.wav" w1
              "analyze" take 0%nat [Elapse 30000] [Elapse 30000] ready)
    as (Hdown & _ & _ & _ & _ & _ & _ & _ & _ & _ & Hlater).
  destruct (Hdown 0%nat) as (Hthis & _); [reflexivity|].
  destruct Hlater as (Hearly & _ & Hdue).
  - intros t Ht. apply list_elem_of_In in Ht. simpl in Ht.
    destruct Ht as [<-|[]]. vm_compute. reflexivity.
  - reflexivity.
  - intros m Hm. apply list_elem_of_In in Hm. simpl in Hm.
    destruct Hm as [Hm|[Hm|[]]]; discriminate.
  - destruct Hearly as [_ Hp]; [vm_compute; reflexivity|].
    destruct Hdue as [_ Hr]; [vm_compute; discriminate|].
    split_and!; [exact Hthis | exact Hp | exact Hr].
Defined.

(** A request is outstanding when [terminate()] is called: its entry is
    still in [pendingMessages] afterwards and its promise is unsettled. *)
Lemma terminate_leaves_request_pending :
  let w := (sendMessage "analyze" take ready).2 in
  pendingMessages (this w) !! 1 = Some ResolveReject ∧
  promises w !! 1 = Some Pending ∧
  worker (this (terminate w)) = None ∧
  pendingMessages (this (terminate w)) !! 1 = Some ResolveReject ∧
  promises (terminate w) !! 1 = Some Pending.
Proof. vm_compute. done. Qed.

End ChannelExamples.

Section SketchExamples.
Import Channel Sketch Examples ChannelExamples.

Lemma mock_analysis_is_cached_witness :
  (Cache.getCachedAnalysis (track 1) 2
     (cacheManager (analyzeAndCache env 0 (track 1) (idle constructor)).2)).1
  = Some (host_mock 0).
Proof.
  destruct (mock_analysis_is_cached env 0%nat (track 1) (idle constructor))
    as (_ & _ & _ & _ & H).
  - reflexivity.
  - apply NoDup_nil_2.
  - left. split_and!; [vm_compute; discriminate | vm_compute; discriminate |].
    right. vm_compute. discriminate.
  - apply H.
Defined.

(** The batch on three files with the worker never initialised: each file
    gets a mock, nothing is posted, and the cache holds all three mocks. *)
Lemma batch_without_worker_caches_mocks :
  let '(c, app) := initializeApp env fresh constructor dataset in
  c = Completed () ∧
  AudioFile.analysis <$> audioFiles app
    = [Some (host_mock 0); Some (host_mock 1); Some (host_mock 2)] ∧
  posted (essentiaWorker app) = [] ∧
  CacheEntry.analysis <$> (JS.get (Cache.generateFileKey (track 1))
                             (Cache.data (Cache.cache (Cache.this (cacheManager app)))))
    = Some (Some (host_mock 0)) ∧
  length (Cache.data (Cache.cache (Cache.this (cacheManager app)))) = 3%nat.
Proof. vm_compute. done. Qed.

Lemma undecoded_file_is_posted_witness :
  (0%nat, mkRequest "analyze" (AnalyzePayload None "f") 1)
    ∈ posted (essentiaWorker (analyzeAndCache env 1 (track 2) (idle ready)).2).
Proof.
  destruct (undecoded_file_is_posted env 1%nat (track 2) (idle ready) 0%nat)
    as [H _].
  - reflexivity.
  - reflexivity.
  - reflexivity.
  - apply H.
Defined.

(** The batch on three files, the second of which cannot be decoded, with
    the worker initialised: an analyze request with a null buffer is
    posted for the second file, and the mock the worker answers with is
    in the cache under that file's key. *)
Lemma batch_posts_and_caches_undecoded_file :
  let '(c, app) := initializeApp env fresh ready dataset in
  c = Completed () ∧
  decodeAudio env (track 2) = None ∧
  (rpayload ∘ snd) <$> posted (essentiaWorker app)
    = [EmptyPayload; AnalyzePayload (Some [1; 2; 3]) "f";
       AnalyzePayload None "f"; AnalyzePayload (Some [1; 2; 3]) "f"] ∧
  CacheEntry.analysis <$> (JS.get (Cache.generateFileKey (track 2))
                             (Cache.data (Cache.cache (Cache.this (cacheManager app)))))
    = Some (Some (worker_mock 0)) ∧
  length (Cache.data (Cache.cache (Cache.this (cacheManager app)))) = 3%nat.
Proof. vm_compute. done. Qed.

End SketchExamples.

Section CachePropertyExamples.
Import Cache Examples.

(** The manager after one write on the roomy origin. *)
Definition one_entry : World string :=
  setCachedAnalysis (track 1) (Some "{}") 1 2 fresh.

(** What the save of [one_entry] wrote: the text, and what [JSON.parse]
    makes of it. *)
Definition one_entry_item : StoredText string :=
  mkText (JSON_text (cache (this one_entry))) (Some (cache (this one_entry))).

Lemma saved_store_is_reloaded_witness :
  item (localStorage (saveCache one_entry)) = Some one_entry_item ∧
  cache (this (constructor (mkStorage (Some one_entry_item) 5242880 false) []))
  = cache (this one_entry).
Proof.
  destruct (saved_store_is_reloaded one_entry one_entry_item 5242880 [])
    as (_ & Hitem & _ & _ & H).
  - split_and!; [reflexivity | lazy; discriminate | lazy; discriminate].
  - split; [rewrite Hitem; reflexivity | apply H; reflexivity].
Defined.

(** One entry in memory, five bytes of quota left. *)
Definition starved : World string :=
  mkWorld (holding [call 1]) (mkStorage None 5 false) [].

Lemma saveCache_retries_after_quota_error_witness :
  localStorage (saveCache starved) = localStorage starved ∧
  last (console (saveCache starved)) = Some ErrStillCannotSave.
Proof.
  destruct (saveCache_retries_after_quota_error starved) as [_ H].
  - reflexivity.
  - lazy. discriminate.
  - lazy. reflexivity.
  - assert ((store_size (cache (pruned (this starved))) <=? quota (localStorage starved))
            = false) as E by (lazy; reflexivity).
    rewrite E in H. destruct H as [H1 H2]. split; [exact H1|]. rewrite H2. reflexivity.
Defined.

(** A store loaded with five entries by a manager told to hold at most
    three. *)
Definition oversized : World string :=
  mkWorld (mkManager "essentiaSketch_audioAnalysis"
             (mkStore None (written <$> (call <$> seq 1 5))) 3 (Some "1.0"))
          (mkStorage None 5242880 false) [].

(** The 501st write into the full default store evicts down to 350; a
    write into the oversized store evicts down to 2. *)
Lemma setCachedAnalysis_bounds_count_witness :
  let w := setAll (call <$> seq 1 500) fresh in
  let w' := setCachedAnalysis (track 501) (Some "{}") 501 501 w in
  let v' := setCachedAnalysis (track 6) (Some "{}") 6 6 oversized in
  length (entries (this w)) = 500%nat ∧
  length (entries (this w')) = 350%nat ∧
  Z.of_nat (length (entries (this w'))) ≤ 500 ∧
  length (entries (this v')) = 2%nat ∧
  Z.of_nat (length (entries (this v'))) ≤ 3.
Proof.
  intros w w' v'.
  destruct fresh_run_500 as (Hthis & Hq & Hd & _). fold w in Hthis, Hq, Hd.
  clearbody w.
  assert (affordable (counted (inserted (track 501) (Some "{}") 501 501 (this w)))
            (localStorage w)) as Hfits.
  { rewrite Hthis. split_and!; [done | lazy; discriminate | rewrite Hq; lazy; discriminate]. }
  destruct (setCachedAnalysis_affordable (track 501) (Some "{}") 501 501 w Hfits)
    as (Hthis' & _).
  fold w' in Hthis'.
  split_and!.
  - rewrite Hthis. reflexivity.
  - rewrite Hthis', Hthis. lazy. reflexivity.
  - assert (wf (this w)) as Hwf.
    { rewrite Hthis. apply (NoDup_track_keys call); [done | apply NoDup_seq]. }
    assert (0 < keepCount (maxCacheSize (this w))) as HK.
    { rewrite Hthis. reflexivity. }
    pose proof (setCachedAnalysis_bounds_count (track 501) (Some "{}") 501 501 w Hwf HK) as H.
    rewrite Hthis in H.
    exact H.
  - reflexivity.
  - apply (setCachedAnalysis_bounds_count (track 6) (Some "{}") 6 6 oversized).
    + apply (NoDup_track_keys call); [done | apply NoDup_seq].
    + reflexivity.
Defined.

(** A manager told to hold at most one entry, holding two. *)
Definition single : CacheManager string :=
  mkManager "essentiaSketch_audioAnalysis" (mkStore None (written <$> [call 2; call 1]))
            1 (Some "1.0").

Lemma pruneCache_keeps_all_when_keepCount_is_zero_witness :
  entries (pruned single) = written <$> [call 1; call 2].
Proof.
  destruct (pruneCache_keeps_all_when_keepCount_is_zero single) as (_ & H & _).
  - apply (NoDup_track_keys call [2; 1]%nat); [done|].
    apply NoDup_cons. split; [|apply NoDup_singleton].
    intros Hin. apply list_elem_of_singleton in Hin. discriminate.
  - unfold single. cbn [maxCacheSize]. lia.
  - rewrite H. reflexivity.
Defined.

(** A manager told to hold at most three entries, holding four. *)
Definition crowded : CacheManager string :=
  mkManager "essentiaSketch_audioAnalysis"
            (mkStore None (written <$> (call <$> seq 1 4))) 3 (Some "1.0").

(** A manager told to hold at most 90 entries, holding 91. *)
Definition ninety : CacheManager string :=
  mkManager "essentiaSketch_audioAnalysis"
            (mkStore None (written <$> (call <$> seq 1 91))) 90 (Some "1.0").

Lemma pruneCache_keeps_most_recent_witness :
  entries (pruned crowded) = written <$> [call 3; call 4] ∧
  length (entries (pruned ninety)) = 62%nat.
Proof.
  destruct (pruneCache_keeps_most_recent crowded) as (H & _).
  - apply (NoDup_track_keys call); [done | apply NoDup_seq].
  - reflexivity.
  - destruct (pruneCache_keeps_most_recent ninety) as (_ & H90 & _).
    + apply (NoDup_track_keys call); [done | apply NoDup_seq].
    + reflexivity.
    + split; [rewrite H; reflexivity | rewrite H90; reflexivity].
Defined.

End CachePropertyExamples.

Section ChannelPropertyExamples.
Import Channel ChannelExamples.

Lemma tidy_ready : tidy ready.
Proof.
  assert (posted_ids ready = [0]) as Hids by reflexivity.
  split; rewrite Hids.
  - intros i Hi. apply list_elem_of_singleton in Hi. subst i. reflexivity.
  - apply NoDup_singleton.
Qed.

Lemma request_ids_are_distinct_witness :
  posted_ids (analyzeAudio host_mock prompt (Some [1; 2; 3]) "take-2.wav"
                (run [Send "analyze" take; Terminate; Send "analyze" take] ready)).2
  = [0; 1] ∧
  NoDup (posted_ids (run [Send "analyze" take; Terminate; Send "analyze" take] ready)).
Proof.
  destruct (request_ids_are_distinct host_mock prompt (Some [1; 2; 3]) "take-2.wav"
              [Send "analyze" take; Terminate; Send "analyze" take] ready tidy_ready)
    as ((_ & H) & _ & _).
  split; [reflexivity | exact H].
Defined.

Lemma handleMessage_settles_once_witness :
  let w := (sendMessage "analyze" take ready).2 in
  promises (handleMessage answer w) !! 1 = Some (Fulfilled (payload answer)) ∧
  handleMessage answer (handleMessage answer w)
  = log (WarnUnknownId 1) (handleMessage answer w).
Proof.
  destruct (handleMessage_settles_once answer (sendMessage "analyze" take ready).2)
    as (H1 & _ & _ & _ & _ & _ & H2).
  - reflexivity.
  - reflexivity.
  - split; [exact H1 | by apply H2].
Defined.

Lemma analyzeAudio_round_trip_witness :
  (analyzeAudio host_mock prompt (Some [1; 2; 3]) "take-1.wav" ready).1
  = Completed (Some "{samples 3}").
Proof.
  destruct (analyzeAudio_round_trip true extract worker_mock host_mock (Some [1; 2; 3])
              "take-1.wav" (Worker.mkState true true 0) 0%nat ready) as (H & _).
  - reflexivity.
  - reflexivity.
  - exact H.
Defined.

Lemma analyzeAudio_falls_back_on_timeout_witness :
  (analyzeAudio host_mock (λ req, [Elapse 60000; Fire (rid req)])
     (Some [1; 2; 3]) "take-1.wav" ready).1
  = Completed (Some (host_mock 0)) ∧
  (analyzeAudio host_mock (λ req, [Elapse 59999; Fire (rid req)])
     (Some [1; 2; 3]) "take-1.wav" ready).1
  = Suspended.
Proof.
  destruct (analyzeAudio_falls_back_on_timeout host_mock (Some [1; 2; 3]) "take-1.wav"
              0%nat ready) as (Hearly & Hlate).
  - reflexivity.
  - reflexivity.
  - intros t Ht. apply list_elem_of_In in Ht. simpl in Ht.
    destruct Ht as [<-|[]]. reflexivity.
  - destruct (Hlate 60000) as (H & _); [lia|].
    destruct (Hearly (λ req, [Elapse 59999; Fire (rid req)])) as (E & _).
    + intros m Hm. apply list_elem_of_In in Hm. simpl in Hm.
      destruct Hm as [Hm|[Hm|[]]]; discriminate.
    + vm_compute. reflexivity.
    + split; [exact H | exact E].
Defined.

End ChannelPropertyExamples.

Section BatchPropertyExamples.
Import Channel Sketch Examples ChannelExamples.

Lemma batch_without_worker_completes_witness :
  (initializeApp env fresh constructor dataset).1 = Completed ().
Proof.
  destruct (batch_without_worker_completes env fresh constructor dataset) as (app & H & _).
  - reflexivity.
  - rewrite H. reflexivity.
Defined.

(** The cache after the three files of the dataset were written. *)
Definition warm : Cache.World string := Cache.setAll (call <$> seq 1 3) fresh.

Lemma batch_served_from_cache_witness :
  essentiaWorker (initializeApp env warm ready dataset).2 = ready.
Proof.
  destruct (batch_served_from_cache env warm ready dataset) as (app & H & Hew & _).
  - intros f Hf. apply list_elem_of_In in Hf. simpl in Hf.
    destruct Hf as [<-|[<-|[<-|[]]]]; reflexivity.
  - rewrite H. exact Hew.
Defined.

End BatchPropertyExamples.

(** ** Worked examples for playback and the dataset *)

Module PlaybackExamples.

(** Two files of the dataset, as [loadAudioDataset] makes them. *)
Definition riff : Playback.File Z :=
  Playback.mkFile "riff.wav"
    (Some "https://huggingface.co/datasets/joeljaffesd/jamlog/resolve/main/2024-05-01/audio/riff.wav")
    0 None false false 0.

Definition solo : Playback.File Z :=
  Playback.mkFile "solo.wav"
    (Some "https://huggingface.co/datasets/joeljaffesd/jamlog/resolve/main/2024-05-01/audio/solo.wav")
    0 None false false 0.

Definition shelf : Playback.AudioManager Z :=
  Playback.mkManager [riff; solo] None [] [].

End PlaybackExamples.

Section PlaybackExamples.
Import Playback PlaybackExamples.

Lemma exclusive_shelf : exclusive shelf.
Proof.
  intros [|[|i]] f; cbn; intros [= <-]; cbn; split; intros H; discriminate H.
Qed.

(** [riff] is played, its metadata arrive after 12 seconds' worth of
    audio are announced, then [solo] is paused. *)
Lemma playback_is_exclusive_witness :
  exclusive (pauseAudio 1%nat (resume 0 0%nat 12 (after (playAudio 0 0%nat shelf)))).
Proof.
  apply (playback_is_exclusive 0 shelf).
  - exact exclusive_shelf.
  - eapply rtc_l; [apply (step_playAudio 0 0%nat)|].
    eapply rtc_l;
      [apply (step_resume 0 0%nat 12); [apply list_elem_of_here|by left]|].
    eapply rtc_l; [apply (step_pauseAudio 0 1%nat)|].
    apply rtc_refl.
Defined.

(** Both files are clicked before either has loaded. *)
Lemma unloaded_clips_play_together_witness :
  let m := resume 0 1%nat 30
             (resume 0 0%nat 12
                (after (playAudio 0 1%nat (after (playAudio 0 0%nat shelf))))) in
  currentPlayingAudio m = Some 1%nat ∧ ¬ exclusive m.
Proof.
  destruct (unloaded_clips_play_together 0 shelf 0%nat 1%nat riff solo 12 30)
    as (_ & _ & _ & _ & _ & H1 & H2).
  - discriminate.
  - reflexivity.
  - reflexivity.
  - reflexivity.
  - reflexivity.
  - split; [exact H1 | exact H2].
Defined.

End PlaybackExamples.

Module DatasetExamples.
Import Dataset.

(** A dataset of one dated folder with an [audio] folder in it, which
    holds an empty recording and a text file. *)
Definition archive (url : string) : Response :=
  if String.eqb url tree_url then
    Answered true [mkItem "directory" "2024-05-01" None;
                   mkItem "file" "README.md" (Some 120)]
  else if String.eqb url (tree_url +:+ "/2024-05-01") then
    Answered true [mkItem "directory" "2024-05-01/audio" None]
  else if String.eqb url (tree_url +:+ "/2024-05-01/audio") then
    Answered true [mkItem "file" "2024-05-01/audio/riff.wav" (Some 0);
                   mkItem "file" "2024-05-01/audio/notes.txt" (Some 48)]
  else Rejected.

Definition riff : AudioFile.t string :=
  AudioFile.mk "riff.wav"
    "https://huggingface.co/datasets/joeljaffesd/jamlog/resolve/main/2024-05-01/audio/riff.wav"
    "2024-05-01/audio/riff.wav" Unknown None.

End DatasetExamples.

Section DatasetExamples.
Import DatasetExamples.

Lemma loadAudioDataset_files_witness :
  Dataset.loadAudioDataset archive = Dataset.FromDataset [riff] ∧
  free_of "/" (AudioFile.name riff) ∧
  AudioFile.size riff ≠ Bytes 0.
Proof.
  destruct (loadAudioDataset_files archive [riff]) as [_ H].
  - reflexivity.
  - destruct (H riff) as (_ & _ & Hs & _ & Hn & _); [apply list_elem_of_here|].
    split; [reflexivity|]. split; [exact Hn | exact Hs].
Defined.

End DatasetExamples.
